(** * The alignment stack of uncrustify (src/align_stack.cpp)

    A shallow embedding of [AlignStack]: a pair of chunk stacks
    ([m_aligned], [m_skipped]) plus the scratch stack used by
    [ReAddSkipped], the column target [m_max_col] and the line counters.

    Conventions of the embedding.
    - [int] values are integers of [Z].  Signed overflow is undefined
      behaviour in C++ and lies outside the model.
    - A [chunk_t *] is a handle of an abstract type [chunk]; the chunk list
      itself is owned by the rest of the program and appears as [doc].
    - The member functions call each other recursively ([Add] calls
      [ReAddSkipped], which calls [Add] and [NewLines], which calls
      [Flush], which calls [ReAddSkipped]); they are defined by a mutual
      fixpoint on a fuel argument, [None] meaning that the fuel ran out.
      The lemmas [Add_total], [Flush_total] and their like show that every
      call returns with enough fuel.
    - [LOG_FMT] lines only print diagnostics and are not modelled. *)

From Stdlib Require String Ascii.
From Stdlib Require Import ZArith List Bool Lia Arith Permutation Sorted.
From AAC_tactics Require Import AAC.
From AAC_tactics Require Instances.
Import Instances.Lists.
Import ListNotations.
Local Open Scope Z_scope.

(** ** ChunkStack *)

(** Modelled from the spec: the class [ChunkStack] (chunk_stack.h is not
    among the sources).  The spec describes the stacks as ordered,
    append-only sequences of entries (token reference, sequence number) with
    compaction on discard; align_stack.cpp uses [Reset], [Empty], [Len],
    [Get], [Push], [Set], [Zap] and [Collapse]. *)
Module ChunkStack.

Record Entry (chunk : Type) : Type := mkEntry
  { m_seqnum : Z;
    m_pc     : chunk }.
Arguments mkEntry {chunk} _ _.
Arguments m_seqnum {chunk} _.
Arguments m_pc {chunk} _.

Definition t (chunk : Type) : Type := list (Entry chunk).

Section Ops.
Context {chunk : Type}.

Definition Reset : t chunk := [].

Definition Empty (cs : t chunk) : bool :=
  match cs with
  | [] => true
  | _ :: _ => false
  end.

Definition Len (cs : t chunk) : nat := length cs.

(* Get(idx) for 0 <= idx < Len() *)
Definition Get (cs : t chunk) (idx : nat) : option (Entry chunk) :=
  nth_error cs idx.

Definition Push (pc : chunk) (seqnum : Z) (cs : t chunk) : t chunk :=
  cs ++ [mkEntry seqnum pc].

(* Set(cs) copies the entries of [cs] *)
Definition Set_ (cs : t chunk) : t chunk := cs.

(* The last entry read by a loop that walks the stack from index 0
   ([ce] after the loop of Flush; NULL on an empty stack) *)
Definition Last (cs : t chunk) : option (Entry chunk) :=
  nth_error cs (pred (length cs)).

(* A zapped slot stays in place, empty, until Collapse() *)
Definition slots : Type := list (option (Entry chunk)).

(* for (idx ...) if (Get(idx)->m_seqnum < last_seqnum) Zap(idx); *)
Definition Zap_older (last_seqnum : Z) (cs : t chunk) : slots :=
  map (fun ce => if m_seqnum ce <? last_seqnum then None else Some ce) cs.

(* Collapse() compacts the zapped slots away, keeping the order *)
Fixpoint Collapse (sl : slots) : t chunk :=
  match sl with
  | [] => []
  | None :: sl' => Collapse sl'
  | Some ce :: sl' => ce :: Collapse sl'
  end.

(* The loop test idx < Len() is the test that Get(idx) finds an entry *)
Lemma Get_Some_iff (cs : t chunk) (idx : nat) :
  (exists ce, Get cs idx = Some ce) <-> (idx < Len cs)%nat.
Proof.
  unfold Get, Len. rewrite <- nth_error_Some.
  destruct (nth_error cs idx); split; intros H; eauto; try congruence.
  now destruct H.
Qed.

End Ops.

End ChunkStack.

Import ChunkStack.

(** ** AlignStack *)

Section AlignStack.

(** Modelled from the spec: [chunk_t] and [indent_to_column] are declared
    outside align_stack.cpp.  A token exposes a mutable column and an
    immutable length; the column applier [indent_to_column] changes the
    position of tokens in the document and nothing of the stack. *)
Context {chunk doc : Type}.
Variable column : doc -> chunk -> Z.
Variable len : chunk -> Z.
Variable indent_to_column : chunk -> Z -> doc -> doc.

(** The object, together with the document it works on.  [applier_calls]
    is the history of the calls [indent_to_column(pc, col)], oldest
    first; it is not read by the code. *)
Record state : Type := mkState
  { m_aligned   : ChunkStack.t chunk;
    m_skipped   : ChunkStack.t chunk;
    m_scratch   : ChunkStack.t chunk;
    m_max_col   : Z;
    m_span      : Z;
    m_thresh    : Z;
    m_seqnum    : Z;
    m_nl_seqnum : Z;
    document    : doc;
    applier_calls : list (chunk * Z) }.

Definition set_aligned (v : ChunkStack.t chunk) (s : state) : state :=
  mkState v (m_skipped s) (m_scratch s) (m_max_col s) (m_span s)
          (m_thresh s) (m_seqnum s) (m_nl_seqnum s) (document s)
          (applier_calls s).

Definition set_skipped (v : ChunkStack.t chunk) (s : state) : state :=
  mkState (m_aligned s) v (m_scratch s) (m_max_col s) (m_span s)
          (m_thresh s) (m_seqnum s) (m_nl_seqnum s) (document s)
          (applier_calls s).

Definition set_scratch (v : ChunkStack.t chunk) (s : state) : state :=
  mkState (m_aligned s) (m_skipped s) v (m_max_col s) (m_span s)
          (m_thresh s) (m_seqnum s) (m_nl_seqnum s) (document s)
          (applier_calls s).

Definition set_max_col (v : Z) (s : state) : state :=
  mkState (m_aligned s) (m_skipped s) (m_scratch s) v (m_span s)
          (m_thresh s) (m_seqnum s) (m_nl_seqnum s) (document s)
          (applier_calls s).

Definition set_seqnum (v : Z) (s : state) : state :=
  mkState (m_aligned s) (m_skipped s) (m_scratch s) (m_max_col s)
          (m_span s) (m_thresh s) v (m_nl_seqnum s) (document s)
          (applier_calls s).

Definition set_nl_seqnum (v : Z) (s : state) : state :=
  mkState (m_aligned s) (m_skipped s) (m_scratch s) (m_max_col s)
          (m_span s) (m_thresh s) (m_seqnum s) v (document s)
          (applier_calls s).

(** *** Start *)

Definition Start (span thresh : Z) (s : state) : state :=
  mkState Reset Reset (m_scratch s) 0 span thresh 0 0 (document s)
          (applier_calls s).

(** *** The pieces of Add and Flush *)

(* "Check threshold limits", the condition of Add *)
Definition within_thresh (s : state) (pc : chunk) : bool :=
  (m_max_col s =? 0) || (m_thresh s =? 0) ||
  ((column (document s) pc <=? m_max_col s + m_thresh s) &&
   (column (document s) pc >=? m_max_col s - m_thresh s)).

(* "Assign a seqnum if needed" *)
Definition assign_seqnum (s : state) (seqnum : Z) : Z :=
  if seqnum =? 0 then m_seqnum s else seqnum.

(* "we are adding it, so update the newline seqnum", then
   m_aligned.Push(pc, seqnum) *)
Definition push_aligned (pc : chunk) (seqnum : Z) (s : state) : state :=
  let s := if seqnum >? m_nl_seqnum s then set_nl_seqnum seqnum s else s in
  set_aligned (Push pc seqnum (m_aligned s)) s.

(* m_skipped.Push(pc, seqnum) *)
Definition push_skipped (pc : chunk) (seqnum : Z) (s : state) : state :=
  set_skipped (Push pc seqnum (m_skipped s)) s.

(* One turn of the first loop of Flush:
   indent_to_column(ce->m_pc, m_max_col - ce->m_pc->len) *)
Definition indent_entry (s : state) (ce : Entry chunk) : state :=
  let col := m_max_col s - len (m_pc ce) in
  mkState (m_aligned s) (m_skipped s) (m_scratch s) (m_max_col s)
          (m_span s) (m_thresh s) (m_seqnum s) (m_nl_seqnum s)
          (indent_to_column (m_pc ce) col (document s))
          (applier_calls s ++ [(m_pc ce, col)]).

(* The first loop of Flush, over m_aligned from index 0 *)
Definition indent_aligned (s : state) : state :=
  fold_left indent_entry (m_aligned s) s.

(* Flush between the two loops: last_seqnum, the reset of m_aligned
   (only when the loop ran at least once) and of m_max_col *)
Definition last_seqnum_of (cs : ChunkStack.t chunk) : Z :=
  match Last cs with
  | Some ce => ChunkStack.m_seqnum ce
  | None => 0
  end.

Definition reset_group (s : state) : state :=
  let s := match Last (m_aligned s) with
           | Some _ => set_aligned Reset s
           | None => s
           end in
  set_max_col 0 s.

(** *** Add, ReAddSkipped, NewLines, Flush *)

Fixpoint Add (fuel : nat) (pc : chunk) (seqnum : Z) (s : state)
  {struct fuel} : option state :=
  match fuel with
  | O => None
  | S fuel =>
      let seqnum := assign_seqnum s seqnum in
      if within_thresh s pc then
        let s := push_aligned pc seqnum s in
        (* See if this pushes out the max_col *)
        let endcol := column (document s) pc + len pc in
        if endcol >? m_max_col s then
          let s := set_max_col endcol s in
          if negb (Empty (m_skipped s)) then ReAddSkipped fuel s
          else Some s
        else Some s
      else
        (* The threshold check failed, so add it to the skipped list *)
        Some (push_skipped pc seqnum s)
  end

with ReAddSkipped (fuel : nat) (s : state) {struct fuel} : option state :=
  match fuel with
  | O => None
  | S fuel =>
      if negb (Empty (m_skipped s)) then
        (* Make a copy of the ChunkStack and clear m_skipped *)
        let s := set_scratch (Set_ (m_skipped s)) s in
        let s := set_skipped Reset s in
        match ReAdd_loop fuel 0%nat s with
        | Some s => NewLines fuel 0 s
        | None => None
        end
      else Some s
  end

(* for (idx = 0; idx < m_scratch.Len(); idx++) Add(ce->m_pc, ce->m_seqnum):
   m_scratch is a member, read again at every turn *)
with ReAdd_loop (fuel : nat) (idx : nat) (s : state) {struct fuel}
  : option state :=
  match fuel with
  | O => None
  | S fuel =>
      match Get (m_scratch s) idx with
      | Some ce =>
          match Add fuel (m_pc ce) (ChunkStack.m_seqnum ce) s with
          | Some s => ReAdd_loop fuel (S idx) s
          | None => None
          end
      | None => Some s
      end
  end

with NewLines (fuel : nat) (cnt : Z) (s : state) {struct fuel}
  : option state :=
  match fuel with
  | O => None
  | S fuel =>
      if negb (Empty (m_aligned s)) then
        let s := set_seqnum (m_seqnum s + cnt) s in
        if m_seqnum s >? m_nl_seqnum s + m_span s then Flush fuel s
        else Some s
      else Some s
  end

with Flush (fuel : nat) (s : state) {struct fuel} : option state :=
  match fuel with
  | O => None
  | S fuel =>
      let last_seqnum := last_seqnum_of (m_aligned s) in
      let s := indent_aligned s in
      let s := reset_group s in
      if Empty (m_skipped s) then
        (* Nothing was skipped, sync the seqnums *)
        Some (set_nl_seqnum (m_seqnum s) s)
      else
        (* Remove all items with seqnum < last_seqnum *)
        let s := set_skipped (Collapse (Zap_older last_seqnum (m_skipped s))) s in
        (* Add all items from the skipped list *)
        ReAddSkipped fuel s
  end.

(** *** End *)

Definition End (fuel : nat) (s : state) : option state :=
  match (if negb (Empty (m_aligned s)) then Flush fuel s else Some s) with
  | Some s => Some (set_skipped Reset (set_aligned Reset s))
  | None => None
  end.

(** *** The pieces named by the statements *)

(* What End does before it resets the stacks *)
Definition End_flush (fuel : nat) (s : state) : option state :=
  if negb (Empty (m_aligned s)) then Flush fuel s else Some s.

(* The state of Flush after its first loop and the resets, and the
   entries of m_skipped that survive the removal of the older ones *)
Definition flushed (s : state) : state := reset_group (indent_aligned s).

Definition newer_skipped (s : state) : ChunkStack.t chunk :=
  Collapse (Zap_older (last_seqnum_of (m_aligned s)) (m_skipped s)).

(* The calls that the first loop of Flush makes *)
Definition group_calls (s : state) : list (chunk * Z) :=
  map (fun ce => (m_pc ce, m_max_col s - len (m_pc ce))) (m_aligned s).

(** *** Sessions: the calls a client makes *)

Inductive call : Type :=
| CStart (span thresh : Z)
| CAdd (pc : chunk) (seqnum : Z)
| CNewLines (cnt : Z)
| CFlush
| CEnd.

Definition do_call (fuel : nat) (c : call) (s : state) : option state :=
  match c with
  | CStart span thresh => Some (Start span thresh s)
  | CAdd pc seqnum => Add fuel pc seqnum s
  | CNewLines cnt => NewLines fuel cnt s
  | CFlush => Flush fuel s
  | CEnd => End fuel s
  end.

Fixpoint run (fuel : nat) (cs : list call) (s : state) : option state :=
  match cs with
  | [] => Some s
  | c :: cs' =>
      match do_call fuel c s with
      | Some s1 => run fuel cs' s1
      | None => None
      end
  end.

(** ** ReAddSkipped as the spec words it *)

(** The spec describes ReAddSkipped as: take a snapshot of m_skipped, clear
    m_skipped, call Add for each entry of the snapshot in order, then call
    NewLines(0).  This definition follows those words, with the snapshot
    as a local list, for comparison with [ReAddSkipped]. *)
Definition ReAddSkipped_as_specified (fuel : nat) (s : state) : option state :=
  if negb (Empty (m_skipped s)) then
    let snapshot := m_skipped s in
    match fold_left
            (fun o ce =>
               match o with
               | Some s1 => Add fuel (m_pc ce) (ChunkStack.m_seqnum ce) s1
               | None => None
               end)
            snapshot (Some (set_skipped Reset s)) with
    | Some s1 => NewLines fuel 0 s1
    | None => None
    end
  else Some s.

(** ** Calls that return

    [Add_to pc seqnum s r]: the call [Add(pc, seqnum)] made in state [s]
    returns in state [r]; likewise for the other functions.  The
    relations are the graph of the functions above (lemma
    [returns_iff]); they give an induction principle over the calls that
    a call makes. *)

Inductive Add_to : chunk -> Z -> state -> state -> Prop :=
| Add_skipped pc seqnum s :
    within_thresh s pc = false ->
    Add_to pc seqnum s (push_skipped pc (assign_seqnum s seqnum) s)
| Add_aligned pc seqnum s s1 :
    within_thresh s pc = true ->
    s1 = push_aligned pc (assign_seqnum s seqnum) s ->
    (column (document s1) pc + len pc >? m_max_col s1) = false ->
    Add_to pc seqnum s s1
| Add_pushed_out pc seqnum s s1 r :
    within_thresh s pc = true ->
    s1 = push_aligned pc (assign_seqnum s seqnum) s ->
    (column (document s1) pc + len pc >? m_max_col s1) = true ->
    ReAddSkipped_to (set_max_col (column (document s1) pc + len pc) s1) r ->
    Add_to pc seqnum s r

with ReAddSkipped_to : state -> state -> Prop :=
| ReAdd_nothing s :
    Empty (m_skipped s) = true ->
    ReAddSkipped_to s s
| ReAdd_all s s1 r :
    Empty (m_skipped s) = false ->
    ReAdd_loop_to 0%nat (set_skipped Reset (set_scratch (m_skipped s) s)) s1 ->
    NewLines_to 0 s1 r ->
    ReAddSkipped_to s r

with ReAdd_loop_to : nat -> state -> state -> Prop :=
| ReAdd_loop_end idx s :
    Get (m_scratch s) idx = None ->
    ReAdd_loop_to idx s s
| ReAdd_loop_turn idx s ce s1 r :
    Get (m_scratch s) idx = Some ce ->
    Add_to (m_pc ce) (ChunkStack.m_seqnum ce) s s1 ->
    ReAdd_loop_to (S idx) s1 r ->
    ReAdd_loop_to idx s r

with NewLines_to : Z -> state -> state -> Prop :=
| NewLines_idle cnt s :
    Empty (m_aligned s) = true ->
    NewLines_to cnt s s
| NewLines_within cnt s s1 :
    Empty (m_aligned s) = false ->
    s1 = set_seqnum (m_seqnum s + cnt) s ->
    (m_seqnum s1 >? m_nl_seqnum s1 + m_span s1) = false ->
    NewLines_to cnt s s1
| NewLines_expired cnt s s1 r :
    Empty (m_aligned s) = false ->
    s1 = set_seqnum (m_seqnum s + cnt) s ->
    (m_seqnum s1 >? m_nl_seqnum s1 + m_span s1) = true ->
    Flush_to s1 r ->
    NewLines_to cnt s r

with Flush_to : state -> state -> Prop :=
| Flush_sync s :
    Empty (m_skipped s) = true ->
    Flush_to s (set_nl_seqnum (m_seqnum (flushed s)) (flushed s))
| Flush_readd s r :
    Empty (m_skipped s) = false ->
    ReAddSkipped_to (set_skipped (newer_skipped s) (flushed s)) r ->
    Flush_to s r.

Scheme Add_to_min := Minimality for Add_to Sort Prop
  with ReAddSkipped_to_min := Minimality for ReAddSkipped_to Sort Prop
  with ReAdd_loop_to_min := Minimality for ReAdd_loop_to Sort Prop
  with NewLines_to_min := Minimality for NewLines_to Sort Prop
  with Flush_to_min := Minimality for Flush_to Sort Prop.

Combined Scheme calls_ind from
  Add_to_min, ReAddSkipped_to_min, ReAdd_loop_to_min, NewLines_to_min,
  Flush_to_min.

Definition End_to (s r : state) : Prop :=
  exists s1,
    (if negb (Empty (m_aligned s)) then Flush_to s s1 else s1 = s) /\
    r = set_skipped Reset (set_aligned Reset s1).

Definition call_to (c : call) (s r : state) : Prop :=
  match c with
  | CStart span thresh => r = Start span thresh s
  | CAdd pc seqnum => Add_to pc seqnum s r
  | CNewLines cnt => NewLines_to cnt s r
  | CFlush => Flush_to s r
  | CEnd => End_to s r
  end.

(** ** Vocabulary of the statements *)

Local Notation "'nsk' s" := (length (m_skipped s)) (at level 10, s at level 9).
Local Notation "'nsc' s" := (length (m_scratch s)) (at level 10, s at level 9).

(* The test of Add as the interval it describes *)
Definition accepted (s : state) (pc : chunk) : Prop :=
  m_max_col s = 0 \/ m_thresh s = 0 \/
  m_max_col s - m_thresh s <= column (document s) pc <= m_max_col s + m_thresh s.

(* The state right after Add has pushed the token onto m_aligned *)
Definition with_aligned (pc : chunk) (seqnum : Z) (s : state) : state :=
  mkState (m_aligned s ++ [mkEntry seqnum pc]) (m_skipped s) (m_scratch s)
          (m_max_col s) (m_span s) (m_thresh s) (m_seqnum s)
          (Z.max (m_nl_seqnum s) seqnum) (document s) (applier_calls s).

(* The state right after Add has pushed the token onto m_skipped *)
Definition with_skipped (pc : chunk) (seqnum : Z) (s : state) : state :=
  mkState (m_aligned s) (m_skipped s ++ [mkEntry seqnum pc]) (m_scratch s)
          (m_max_col s) (m_span s) (m_thresh s) (m_seqnum s)
          (m_nl_seqnum s) (document s) (applier_calls s).

(* m_scratch is as it was, or has been overwritten by a replay of at most
   as many entries as m_skipped held *)
Definition scratch_kept_or_short (s r : state) : Prop :=
  m_scratch r = m_scratch s \/ (nsc r <= nsk s)%nat.

(* The span and the threshold are those of the last Start *)
Definition same_settings (s r : state) : Prop :=
  m_span r = m_span s /\ m_thresh r = m_thresh s.

(* From [s] to [r] the applier history has only grown, by [new]; the
   entries of m_aligned are still there or went through the applier, and
   m_aligned has only grown if the applier was not called *)
Definition history_grows (s r : state) : Prop :=
  exists new,
    applier_calls r = applier_calls s ++ new /\
    (new = [] -> exists l, m_aligned r = m_aligned s ++ l) /\
    (forall ce, In ce (m_aligned s) ->
       In ce (m_aligned r) \/ In (m_pc ce) (map fst new)).

(* The state predicate of the spec: m_max_col = 0 iff m_aligned is empty *)
Definition group_inv (s : state) : Prop :=
  m_max_col s = 0 <-> m_aligned s = [].

(* Every token of the document ends right of column 0 *)
Definition positive_ends (d : doc) : Prop :=
  forall pc, 0 < column d pc + len pc.

Definition applier_keeps_positive_ends : Prop :=
  forall pc col d, positive_ends d -> positive_ends (indent_to_column pc col d).

Definition group_ok (s : state) : Prop :=
  positive_ends (document s) /\ group_inv s.

(* m_skipped holds entries only while m_aligned holds a group *)
Definition group_behind_skipped (s : state) : Prop :=
  (m_max_col s <> 0 -> m_aligned s <> []) /\
  (m_skipped s <> [] -> m_aligned s <> []).

Definition no_CEnd (cs : list call) : Prop :=
  Forall (fun c => match c with CEnd => False | _ => True end) cs.

(* The sum of the counts of the NewLines calls made with tokens in
   m_aligned, from the last Start on; [acc] is the sum before [cs] *)
Fixpoint counted_newlines (fuel : nat) (cs : list call) (s : state) (acc : Z)
  : Z :=
  match cs with
  | [] => acc
  | c :: cs' =>
      let acc' := match c with
                  | CStart _ _ => 0
                  | CNewLines cnt => if Empty (m_aligned s) then acc else acc + cnt
                  | _ => acc
                  end in
      match do_call fuel c s with
      | Some s1 => counted_newlines fuel cs' s1 acc'
      | None => acc'
      end
  end.

Definition no_CStart (cs : list call) : Prop :=
  Forall (fun c => match c with CStart _ _ => False | _ => True end) cs.

Definition counts_nonneg (cs : list call) : Prop :=
  Forall (fun c => match c with CNewLines cnt => 0 <= cnt | _ => True end) cs.

(* No entry of the stack is ahead of the line counter [M] *)
Definition not_ahead (M : Z) (cs : ChunkStack.t chunk) : Prop :=
  Forall (fun ce => ChunkStack.m_seqnum ce <= M) cs.

Definition seq_inv (s : state) : Prop :=
  m_nl_seqnum s <= m_seqnum s /\ not_ahead (m_seqnum s) (m_skipped s).

(* After a call: the invariant, and m_scratch untouched or not ahead *)
Definition seq_post (s r : state) : Prop :=
  seq_inv r /\
  (m_scratch r = m_scratch s \/ not_ahead (m_seqnum r) (m_scratch r)).

(* A call keeps in step with the line counter: Add uses a sequence
   number that is not ahead of m_seqnum (its default, the current m_seqnum,
   never is), NewLines gets a count that is not negative *)
Definition call_in_step (c : call) (s : state) : bool :=
  match c with
  | CAdd _ seqnum => assign_seqnum s seqnum <=? m_seqnum s
  | CNewLines cnt => 0 <=? cnt
  | _ => true
  end.

Fixpoint in_step (fuel : nat) (cs : list call) (s : state) : bool :=
  match cs with
  | [] => true
  | c :: cs' =>
      call_in_step c s &&
      match do_call fuel c s with
      | Some s1 => in_step fuel cs' s1
      | None => true
      end
  end.

(* The tokens of a stack, those that the two stacks hold, and
   [sub_tokens A B]: the tokens of [A] are among those of [B], counted with
   multiplicity *)
Definition tokens (cs : ChunkStack.t chunk) : list chunk := map m_pc cs.

Definition held (s : state) : list chunk :=
  tokens (m_aligned s) ++ tokens (m_skipped s).

Definition sub_tokens (A B : list chunk) : Prop :=
  exists C, Permutation (A ++ C) B.

(* The call from [s] to [r] conserves the tokens, [extra] being those it
   takes from elsewhere (the argument of Add, the rest of m_scratch) *)
Definition conserved (extra : list chunk) (s r : state) : Prop :=
  exists new,
    applier_calls r = applier_calls s ++ new /\
    sub_tokens (held r ++ map fst new) (held s ++ extra).

(* The tokens that a sequence of calls passes to Add *)
Fixpoint added (cs : list call) : list chunk :=
  match cs with
  | [] => []
  | CAdd pc _ :: cs' => pc :: added cs'
  | _ :: cs' => added cs'
  end.

(* m_max_col is not negative and no token of m_aligned ends right of it *)
Definition ends_within (s : state) : Prop :=
  0 <= m_max_col s /\
  forall ce, In ce (m_aligned s) ->
    column (document s) (m_pc ce) + len (m_pc ce) <= m_max_col s.

(* Without a group m_max_col is 0; with one, some token of it ends at
   m_max_col *)
Definition edge_attained (s : state) : Prop :=
  (m_aligned s = [] -> m_max_col s = 0) /\
  (m_aligned s <> [] ->
   exists ce, In ce (m_aligned s) /\
              column (document s) (m_pc ce) + len (m_pc ce) = m_max_col s).

Definition edge_ok (s : state) : Prop :=
  positive_ends (document s) /\ edge_attained s.

(* The threshold test is off and nothing is skipped *)
Definition all_accepted (s : state) : Prop :=
  m_thresh s = 0 /\ m_skipped s = [].

(* The applier calls from [s] to [r] and the tokens of m_aligned account
   for the tokens that m_aligned held and the tokens [extra], in order *)
Definition aligned_in_order (extra : list chunk) (s r : state) : Prop :=
  exists new,
    applier_calls r = applier_calls s ++ new /\
    map fst new ++ tokens (m_aligned r) = tokens (m_aligned s) ++ extra.

(* A pending group is within its span *)
Definition within_span (s : state) : Prop :=
  m_aligned s <> [] -> m_seqnum s <= m_nl_seqnum s + m_span s.

(* Every Add of the sequence leaves its sequence number unset *)
Definition adds_now (cs : list call) : Prop :=
  Forall (fun c => match c with CAdd _ seqnum => seqnum = 0 | _ => True end) cs.

(* Every entry of m_skipped fails the threshold test of Add *)
Definition skipped_out_of_reach (s : state) : Prop :=
  forall ce, In ce (m_skipped s) -> within_thresh s (m_pc ce) = false.

(* Add(ce->m_pc, ce->m_seqnum) for each entry of a list, in order *)
Fixpoint Add_each (fuel : nat) (l : ChunkStack.t chunk) (s : state)
  : option state :=
  match l with
  | [] => Some s
  | ce :: l' =>
      match Add fuel (m_pc ce) (ChunkStack.m_seqnum ce) s with
      | Some s1 => Add_each fuel l' s1
      | None => None
      end
  end.

(* The state in which the loop of ReAddSkipped starts when Flush replays
   the entries of m_skipped that survive: they are in m_scratch, m_skipped
   is empty *)
Definition replay_start (s : state) : state :=
  set_skipped Reset (set_scratch (newer_skipped s) (flushed s)).

(* The applier, given a column at which the token ends right of column 0,
   leaves every token of the document ending right of column 0 *)
Definition applier_keeps_ends_right_of_0 : Prop :=
  forall pc col d,
    positive_ends d -> 0 < col + len pc ->
    positive_ends (indent_to_column pc col d).

(* The state predicate of the spec, with a document whose tokens end right
   of column 0 and m_max_col not negative *)
Definition group_nonneg (s : state) : Prop :=
  positive_ends (document s) /\ group_inv s /\ 0 <= m_max_col s.

(** * Properties *)

(** ** One level of each function *)

Lemma Add_S fuel pc seqnum s :
  Add (S fuel) pc seqnum s =
  if within_thresh s pc then
    let s1 := push_aligned pc (assign_seqnum s seqnum) s in
    if column (document s1) pc + len pc >? m_max_col s1 then
      let s2 := set_max_col (column (document s1) pc + len pc) s1 in
      if negb (Empty (m_skipped s2)) then ReAddSkipped fuel s2 else Some s2
    else Some s1
  else Some (push_skipped pc (assign_seqnum s seqnum) s).
Proof. reflexivity. Qed.

Lemma ReAddSkipped_S fuel s :
  ReAddSkipped (S fuel) s =
  if negb (Empty (m_skipped s)) then
    match ReAdd_loop fuel 0%nat
            (set_skipped Reset (set_scratch (Set_ (m_skipped s)) s)) with
    | Some s1 => NewLines fuel 0 s1
    | None => None
    end
  else Some s.
Proof. reflexivity. Qed.

Lemma ReAdd_loop_S fuel idx s :
  ReAdd_loop (S fuel) idx s =
  match Get (m_scratch s) idx with
  | Some ce =>
      match Add fuel (m_pc ce) (ChunkStack.m_seqnum ce) s with
      | Some s1 => ReAdd_loop fuel (S idx) s1
      | None => None
      end
  | None => Some s
  end.
Proof. reflexivity. Qed.

Lemma NewLines_S fuel cnt s :
  NewLines (S fuel) cnt s =
  if negb (Empty (m_aligned s)) then
    let s1 := set_seqnum (m_seqnum s + cnt) s in
    if m_seqnum s1 >? m_nl_seqnum s1 + m_span s1 then Flush fuel s1
    else Some s1
  else Some s.
Proof. reflexivity. Qed.

Lemma Flush_S fuel s :
  Flush (S fuel) s =
  if Empty (m_skipped (flushed s)) then
    Some (set_nl_seqnum (m_seqnum (flushed s)) (flushed s))
  else
    ReAddSkipped fuel
      (set_skipped
         (Collapse (Zap_older (last_seqnum_of (m_aligned s))
                              (m_skipped (flushed s))))
         (flushed s)).
Proof. reflexivity. Qed.

(** ** More fuel does not change a result *)

Lemma fuel_mono (n : nat) :
  (forall pc seqnum s r, Add n pc seqnum s = Some r ->
     forall m, (n <= m)%nat -> Add m pc seqnum s = Some r) /\
  (forall s r, ReAddSkipped n s = Some r ->
     forall m, (n <= m)%nat -> ReAddSkipped m s = Some r) /\
  (forall idx s r, ReAdd_loop n idx s = Some r ->
     forall m, (n <= m)%nat -> ReAdd_loop m idx s = Some r) /\
  (forall cnt s r, NewLines n cnt s = Some r ->
     forall m, (n <= m)%nat -> NewLines m cnt s = Some r) /\
  (forall s r, Flush n s = Some r ->
     forall m, (n <= m)%nat -> Flush m s = Some r).
Proof.
  induction n as [|n (IA & IR & IL & IN & IF)].
  - repeat split; intros; discriminate.
  - repeat split; intros until r; intros H m Hm;
      (destruct m as [|m]; [lia|]); assert (Hnm : (n <= m)%nat) by lia.
    + rewrite Add_S in *.
      destruct (within_thresh s pc); [|exact H]. cbv zeta in *.
      destruct (_ >? _); [|exact H].
      destruct (negb _); [|exact H]. eauto.
    + rewrite ReAddSkipped_S in *.
      destruct (negb _); [|exact H].
      destruct (ReAdd_loop n _ _) as [s1|] eqn:E; [|discriminate].
      rewrite (IL _ _ _ E m Hnm). eauto.
    + rewrite ReAdd_loop_S in *.
      destruct (Get _ _) as [ce|]; [|exact H].
      destruct (Add n _ _ _) as [s1|] eqn:E; [|discriminate].
      rewrite (IA _ _ _ _ E m Hnm). eauto.
    + rewrite NewLines_S in *.
      destruct (negb _); [|exact H]. cbv zeta in *.
      destruct (_ >? _); [|exact H]. eauto.
    + rewrite Flush_S in *.
      destruct (Empty _); [exact H|]. eauto.
Qed.

Lemma fold_indent_skipped l s :
  m_skipped (fold_left indent_entry l s) = m_skipped s.
Proof. revert s; induction l as [|ce l IH]; intros s; simpl; [|rewrite IH]; reflexivity. Qed.

Lemma flushed_skipped s : m_skipped (flushed s) = m_skipped s.
Proof.
  unfold flushed, reset_group, indent_aligned.
  destruct (Last _); simpl; apply fold_indent_skipped.
Qed.

Lemma ReAddSkipped_to_empty s r :
  Empty (m_skipped s) = true -> ReAddSkipped_to s r -> r = s.
Proof. intros E H; inversion H; subst; congruence. Qed.

Lemma returns_sound (n : nat) :
  (forall pc seqnum s r, Add n pc seqnum s = Some r -> Add_to pc seqnum s r) /\
  (forall s r, ReAddSkipped n s = Some r -> ReAddSkipped_to s r) /\
  (forall idx s r, ReAdd_loop n idx s = Some r -> ReAdd_loop_to idx s r) /\
  (forall cnt s r, NewLines n cnt s = Some r -> NewLines_to cnt s r) /\
  (forall s r, Flush n s = Some r -> Flush_to s r).
Proof.
  induction n as [|n (IA & IR & IL & IN & IF)].
  - repeat split; intros; discriminate.
  - repeat split; intros until r; intros H.
    + rewrite Add_S in H.
      destruct (within_thresh s pc) eqn:Ew.
      * cbv zeta in H.
        destruct (_ >? _) eqn:Eg.
        -- destruct (Empty (m_skipped _)) eqn:Ee; simpl in H.
           ++ injection H as <-.
              eapply Add_pushed_out; eauto. now apply ReAdd_nothing.
           ++ eapply Add_pushed_out; eauto.
        -- injection H as <-. eapply Add_aligned; eauto.
      * injection H as <-. now apply Add_skipped.
    + rewrite ReAddSkipped_S in H.
      destruct (Empty (m_skipped s)) eqn:Ee; simpl in H.
      * injection H as <-. now apply ReAdd_nothing.
      * destruct (ReAdd_loop n _ _) as [s1|] eqn:E; [|discriminate].
        eapply ReAdd_all; eauto.
    + rewrite ReAdd_loop_S in H.
      destruct (Get _ _) as [ce|] eqn:Eg.
      * destruct (Add n _ _ _) as [s1|] eqn:E; [|discriminate].
        eapply ReAdd_loop_turn; eauto.
      * injection H as <-. now apply ReAdd_loop_end.
    + rewrite NewLines_S in H.
      destruct (Empty (m_aligned s)) eqn:Ee; simpl in H.
      * injection H as <-. now apply NewLines_idle.
      * destruct (_ >? _) eqn:Eg.
        -- eapply NewLines_expired; eauto.
        -- injection H as <-. eapply NewLines_within; eauto.
    + rewrite Flush_S in H. rewrite flushed_skipped in H.
      destruct (Empty (m_skipped s)) eqn:Ee.
      * injection H as <-. now apply Flush_sync.
      * apply Flush_readd; auto.
Qed.

Lemma returns_complete :
  (forall pc seqnum s r, Add_to pc seqnum s r ->
     exists n, Add n pc seqnum s = Some r) /\
  (forall s r, ReAddSkipped_to s r -> exists n, ReAddSkipped n s = Some r) /\
  (forall idx s r, ReAdd_loop_to idx s r ->
     exists n, ReAdd_loop n idx s = Some r) /\
  (forall cnt s r, NewLines_to cnt s r ->
     exists n, NewLines n cnt s = Some r) /\
  (forall s r, Flush_to s r -> exists n, Flush n s = Some r).
Proof.
  apply calls_ind.
  - intros pc seqnum s Ew. exists 1%nat. rewrite Add_S, Ew. reflexivity.
  - intros pc seqnum s s1 Ew -> Eg. exists 1%nat.
    rewrite Add_S, Ew. cbv zeta. rewrite Eg. reflexivity.
  - intros pc seqnum s s1 r Ew -> Eg Hr [n Hn]. exists (S n).
    rewrite Add_S, Ew. cbv zeta. rewrite Eg.
    destruct (Empty (m_skipped _)) eqn:Ee; simpl; [|exact Hn].
    f_equal. symmetry. now apply ReAddSkipped_to_empty.
  - intros s Ee. exists 1%nat. rewrite ReAddSkipped_S, Ee. reflexivity.
  - intros s s1 r Ee _ [n Hn] _ [m Hm]. exists (S (Nat.max n m)).
    rewrite ReAddSkipped_S, Ee. simpl negb. cbv iota. unfold Set_.
    rewrite (proj1 (proj2 (proj2 (fuel_mono n))) _ _ _ Hn (Nat.max n m)) by lia.
    apply (proj1 (proj2 (proj2 (proj2 (fuel_mono m)))) _ _ _ Hm). lia.
  - intros idx s Eg. exists 1%nat. rewrite ReAdd_loop_S, Eg. reflexivity.
  - intros idx s ce s1 r Eg _ [n Hn] _ [m Hm]. exists (S (Nat.max n m)).
    rewrite ReAdd_loop_S, Eg.
    rewrite (proj1 (fuel_mono n) _ _ _ _ Hn (Nat.max n m)) by lia.
    apply (proj1 (proj2 (proj2 (fuel_mono m))) _ _ _ Hm). lia.
  - intros cnt s Ee. exists 1%nat. rewrite NewLines_S, Ee. reflexivity.
  - intros cnt s s1 Ee -> Eg. exists 1%nat.
    rewrite NewLines_S, Ee. simpl negb. cbv iota zeta. rewrite Eg. reflexivity.
  - intros cnt s s1 r Ee -> Eg _ [n Hn]. exists (S n).
    rewrite NewLines_S, Ee. simpl negb. cbv iota zeta. rewrite Eg. exact Hn.
  - intros s Ee. exists 1%nat.
    rewrite Flush_S, flushed_skipped, Ee. reflexivity.
  - intros s r Ee _ [n Hn]. exists (S n).
    rewrite Flush_S, flushed_skipped, Ee. exact Hn.
Qed.

Lemma returns_iff :
  (forall pc seqnum s r,
     (exists n, Add n pc seqnum s = Some r) <-> Add_to pc seqnum s r) /\
  (forall s r, (exists n, ReAddSkipped n s = Some r) <-> ReAddSkipped_to s r) /\
  (forall cnt s r,
     (exists n, NewLines n cnt s = Some r) <-> NewLines_to cnt s r) /\
  (forall s r, (exists n, Flush n s = Some r) <-> Flush_to s r) /\
  (forall s r, (exists n, End n s = Some r) <-> End_to s r).
Proof.
  destruct returns_complete as (CA & CR & _ & CN & CF).
  repeat split; try (intros [n H]; revert H; apply returns_sound); auto.
  - intros [n H]. unfold End in H. unfold End_to.
    destruct (negb _).
    + destruct (Flush n s) as [s1|] eqn:E; [|discriminate].
      injection H as <-. exists s1. split; auto.
      revert E. apply returns_sound.
    + injection H as <-. exists s. auto.
  - intros (s1 & H & ->). unfold End.
    destruct (negb _).
    + destruct (CF _ _ H) as [n Hn]. exists n. now rewrite Hn.
    + subst s1. exists 0%nat. reflexivity.
Qed.

(** ** What the building blocks leave alone *)

Lemma push_aligned_fields pc seqnum s :
  m_aligned (push_aligned pc seqnum s) = m_aligned s ++ [mkEntry seqnum pc] /\
  m_skipped (push_aligned pc seqnum s) = m_skipped s /\
  m_scratch (push_aligned pc seqnum s) = m_scratch s /\
  m_max_col (push_aligned pc seqnum s) = m_max_col s /\
  m_span (push_aligned pc seqnum s) = m_span s /\
  m_thresh (push_aligned pc seqnum s) = m_thresh s /\
  m_seqnum (push_aligned pc seqnum s) = m_seqnum s /\
  m_nl_seqnum (push_aligned pc seqnum s) = Z.max (m_nl_seqnum s) seqnum /\
  document (push_aligned pc seqnum s) = document s /\
  applier_calls (push_aligned pc seqnum s) = applier_calls s.
Proof.
  unfold push_aligned, Push.
  destruct (seqnum >? m_nl_seqnum s) eqn:E; simpl; repeat split; lia.
Qed.

Lemma fold_indent_fields l s :
  let r := fold_left indent_entry l s in
  m_aligned r = m_aligned s /\ m_scratch r = m_scratch s /\
  m_max_col r = m_max_col s /\ m_span r = m_span s /\
  m_thresh r = m_thresh s /\ m_seqnum r = m_seqnum s /\
  m_nl_seqnum r = m_nl_seqnum s /\
  applier_calls r =
    applier_calls s ++ map (fun ce => (m_pc ce, m_max_col s - len (m_pc ce))) l.
Proof.
  revert s; induction l as [|ce l IH]; intros s; simpl.
  - rewrite app_nil_r. repeat split.
  - destruct (IH (indent_entry s ce)) as (A & B & C & D & E & F & G & H).
    simpl in *. rewrite A, B, C, D, E, F, G, H, <- app_assoc.
    repeat split.
Qed.

Lemma Last_None (cs : ChunkStack.t chunk) : Last cs = None <-> cs = [].
Proof.
  unfold Last. split.
  - intros H. apply nth_error_None in H. destruct cs; simpl in *; [auto|lia].
  - intros ->. reflexivity.
Qed.

Lemma Empty_true (cs : ChunkStack.t chunk) : Empty cs = true <-> cs = [].
Proof. destruct cs; simpl; split; congruence. Qed.

Lemma Empty_false (cs : ChunkStack.t chunk) : Empty cs = false <-> cs <> [].
Proof. destruct cs; simpl; split; congruence. Qed.

Lemma flushed_fields s :
  m_aligned (flushed s) = [] /\ m_skipped (flushed s) = m_skipped s /\
  m_scratch (flushed s) = m_scratch s /\ m_max_col (flushed s) = 0 /\
  m_span (flushed s) = m_span s /\ m_thresh (flushed s) = m_thresh s /\
  m_seqnum (flushed s) = m_seqnum s /\
  m_nl_seqnum (flushed s) = m_nl_seqnum s /\
  applier_calls (flushed s) = applier_calls s ++ group_calls s.
Proof.
  pose proof (flushed_skipped s) as K.
  destruct (fold_indent_fields (m_aligned s) s) as (A & B & C & D & E & F & G & H).
  unfold flushed, reset_group, indent_aligned, group_calls in *.
  destruct (Last _) eqn:EL; simpl in *.
  - repeat split; auto.
  - rewrite A. apply Last_None in EL. rewrite A in EL. repeat split; auto.
Qed.

Lemma Collapse_Zap_older last (cs : ChunkStack.t chunk) :
  Collapse (Zap_older last cs) =
  filter (fun ce => negb (ChunkStack.m_seqnum ce <? last)) cs.
Proof.
  induction cs as [|ce cs IH]; simpl; [reflexivity|].
  destruct (_ <? _); simpl; now rewrite IH.
Qed.

Lemma newer_skipped_length s :
  (length (newer_skipped s) <= length (m_skipped s))%nat.
Proof. unfold newer_skipped. rewrite Collapse_Zap_older. apply filter_length_le. Qed.

(** ** Sizes of the stacks across a call

    [ReAddSkipped] keeps its work list in the member [m_scratch].  An
    [Add] made by its loop may call [ReAddSkipped] again, which
    overwrites [m_scratch] with the (shorter) list of entries skipped so
    far; the outer loop then finds its index beyond the end of
    [m_scratch] and stops. *)

Lemma sizes_post :
  (forall pc seqnum s r, Add_to pc seqnum s r ->
     (nsk r <= nsk s + 1)%nat /\
     (m_scratch r = m_scratch s \/
      ((nsc r <= nsk s)%nat /\ (nsk r <= nsk s)%nat)) /\
     (nsk r = nsk s + 1 -> m_aligned r = m_aligned s)%nat) /\
  (forall s r, ReAddSkipped_to s r ->
     (nsk r <= nsk s)%nat /\ scratch_kept_or_short s r) /\
  (forall idx s r, ReAdd_loop_to idx s r ->
     (nsk s <= idx)%nat ->
     (nsc r <= nsc s)%nat /\
     (nsk r <= nsk s + (nsc s - idx))%nat /\
     (nsk r = nsk s + (nsc s - idx) -> m_aligned r = m_aligned s)%nat) /\
  (forall cnt s r, NewLines_to cnt s r ->
     (nsk r <= nsk s)%nat /\ scratch_kept_or_short s r) /\
  (forall s r, Flush_to s r ->
     (nsk r <= nsk s)%nat /\ scratch_kept_or_short s r).
Proof.
  unfold scratch_kept_or_short. apply calls_ind.
  - (* Add, skipped *)
    intros pc seqnum s _. unfold push_skipped, Push. simpl.
    rewrite length_app. simpl. repeat split; auto; lia.
  - (* Add, aligned *)
    intros pc seqnum s s1 _ -> _.
    destruct (push_aligned_fields pc (assign_seqnum s seqnum) s)
      as (_ & -> & -> & _).
    repeat split; auto; lia.
  - (* Add, pushed out *)
    intros pc seqnum s s1 r _ -> _ _ IH.
    cbn [m_skipped m_scratch set_max_col] in IH.
    destruct (push_aligned_fields pc (assign_seqnum s seqnum) s)
      as (_ & Hk & Hc & _).
    rewrite Hk, Hc in IH. destruct IH as (I1 & I2).
    repeat split; [lia| |lia].
    destruct I2; [left|right]; auto.
  - (* ReAddSkipped, nothing *)
    intros s _. auto.
  - (* ReAddSkipped, all *)
    intros s s1 r _ _ IL _ IN. simpl in IL.
    destruct (IL (Nat.le_0_l _)) as (L1 & L2 & _).
    destruct IN as (N1 & N2). split; [lia|].
    right. destruct N2 as [-> | N2]; lia.
  - (* loop, end *)
    intros idx s Eg _. apply nth_error_None in Eg.
    repeat split; auto; lia.
  - (* loop, turn *)
    intros idx s ce s1 r Eg _ (A1 & A2 & A3) _ IL Hpre.
    assert (Hidx : (idx < nsc s)%nat).
    { apply nth_error_Some. unfold Get in Eg. congruence. }
    destruct (IL ltac:(lia)) as (L1 & L2 & L3).
    destruct A2 as [Ec | (Ec & Ek)].
    + rewrite Ec in *. repeat split; [lia|lia|].
      intros Heq. rewrite L3 by lia. apply A3. lia.
    + repeat split; lia.
  - (* NewLines, idle *)
    intros cnt s _. auto.
  - (* NewLines, within *)
    intros cnt s s1 _ -> _. simpl. auto.
  - (* NewLines, expired *)
    intros cnt s s1 r _ -> _ _ IH. simpl in IH. exact IH.
  - (* Flush, sync *)
    intros s _. destruct (flushed_fields s) as (_ & Hk & Hc & _).
    cbn [m_skipped m_scratch set_nl_seqnum]. rewrite Hk, Hc. auto.
  - (* Flush, readd *)
    intros s r _ _ (I1 & I2).
    cbn [m_skipped m_scratch set_skipped] in I1, I2.
    destruct (flushed_fields s) as (_ & _ & Hc & _).
    pose proof (newer_skipped_length s). rewrite Hc in I2.
    split; [lia|]. destruct I2; [left|right]; auto; lia.
Qed.

(** ** Termination: every call returns *)

Lemma Add_total_below (k : nat) :
  (forall s, (nsk s < k)%nat -> exists r, ReAddSkipped_to s r) ->
  forall pc seqnum s, (nsk s < k)%nat -> exists r, Add_to pc seqnum s r.
Proof.
  intros IH pc seqnum s Hk.
  destruct (within_thresh s pc) eqn:Ew.
  - set (s1 := push_aligned pc (assign_seqnum s seqnum) s).
    destruct (column (document s1) pc + len pc >? m_max_col s1) eqn:Eg.
    + destruct (IH (set_max_col (column (document s1) pc + len pc) s1))
        as [r Hr].
      { cbn [m_skipped set_max_col]. subst s1.
        destruct (push_aligned_fields pc (assign_seqnum s seqnum) s)
          as (_ & -> & _). exact Hk. }
      exists r. eapply Add_pushed_out; eauto.
    + exists s1. eapply Add_aligned; eauto.
  - eexists. now apply Add_skipped.
Qed.

Lemma ReAdd_loop_total_below (k : nat) :
  (forall s, (nsk s < k)%nat -> exists r, ReAddSkipped_to s r) ->
  forall j idx s, (nsc s - idx = j)%nat -> (nsk s <= idx)%nat ->
    (nsc s <= k)%nat -> exists r, ReAdd_loop_to idx s r.
Proof.
  intros IH. induction j as [|j IHj]; intros idx s Hj Hpre Hk.
  - exists s. apply ReAdd_loop_end. apply nth_error_None. lia.
  - destruct (Get (m_scratch s) idx) as [ce|] eqn:Eg.
    2:{ exists s. now apply ReAdd_loop_end. }
    destruct (Add_total_below k IH (m_pc ce) (ChunkStack.m_seqnum ce) s)
      as [s1 Hs1]; [lia|].
    destruct (proj1 sizes_post _ _ _ _ Hs1) as (A1 & A2 & _).
    assert (exists r, ReAdd_loop_to (S idx) s1 r) as [r Hr].
    { destruct A2 as [Ec | (Ec & _)].
      - apply IHj; rewrite ?Ec; lia.
      - exists s1. apply ReAdd_loop_end. apply nth_error_None. lia. }
    exists r. eapply ReAdd_loop_turn; eauto.
Qed.

Lemma ReAddSkipped_total_sized :
  forall k a s, nsk s = k -> length (m_aligned s) = a ->
    exists r, ReAddSkipped_to s r.
Proof.
  induction k as [k IHk] using lt_wf_ind.
  induction a as [a IHa] using lt_wf_ind.
  intros s Hk Ha.
  assert (IH : forall s', (nsk s' < k)%nat -> exists r, ReAddSkipped_to s' r).
  { intros s' H. eapply IHk; eauto. }
  destruct (Empty (m_skipped s)) eqn:Ee.
  { exists s. now apply ReAdd_nothing. }
  set (s0 := set_skipped Reset (set_scratch (m_skipped s) s)).
  destruct (ReAdd_loop_total_below k IH (nsc s0) 0%nat s0) as [s1 Hs1];
    [lia|simpl; lia|simpl; lia|].
  destruct (proj1 (proj2 (proj2 sizes_post)) _ _ _ Hs1 (Nat.le_0_l _))
    as (_ & L2 & L3).
  cbn [s0 m_skipped m_scratch m_aligned set_skipped set_scratch Reset length]
    in L2, L3.
  assert (exists r, NewLines_to 0 s1 r) as [r Hr].
  { destruct (Empty (m_aligned s1)) eqn:Ea.
    { exists s1. now apply NewLines_idle. }
    set (s2 := set_seqnum (m_seqnum s1 + 0) s1).
    destruct (m_seqnum s2 >? m_nl_seqnum s2 + m_span s2) eqn:Eg.
    2:{ exists s2. eapply NewLines_within; eauto. }
    assert (exists r, Flush_to s2 r) as [r Hr].
    { destruct (Empty (m_skipped s2)) eqn:Es.
      { eexists. now apply Flush_sync. }
      destruct (flushed_fields s2) as (Fa & _).
      pose proof (newer_skipped_length s2) as Hn.
      cbn [s2 m_skipped set_seqnum] in Hn.
      set (s3 := set_skipped (newer_skipped s2) (flushed s2)).
      assert (exists r, ReAddSkipped_to s3 r) as [r Hr].
      { destruct (Nat.eq_dec (nsk s3) k) as [E|E].
        - apply (IHa (length (m_aligned s3))); auto.
          cbn [s3 m_aligned set_skipped]. rewrite Fa. simpl.
          cbn [s3 m_skipped set_skipped] in E.
          rewrite L3 in Ea by lia.
          destruct (m_aligned s); simpl in *; [discriminate|lia].
        - apply IH. cbn [s3 m_skipped set_skipped] in *. lia. }
      exists r. now apply Flush_readd. }
    exists r. eapply NewLines_expired; eauto. }
  exists r. eapply ReAdd_all; eauto.
Qed.

Lemma ReAddSkipped_total s : exists r, ReAddSkipped_to s r.
Proof. eapply ReAddSkipped_total_sized; eauto. Qed.

Lemma Add_total pc seqnum s : exists r, Add_to pc seqnum s r.
Proof.
  apply (Add_total_below (S (nsk s))); [|lia].
  intros; apply ReAddSkipped_total.
Qed.

Lemma Flush_total s : exists r, Flush_to s r.
Proof.
  destruct (Empty (m_skipped s)) eqn:Es.
  - eexists. now apply Flush_sync.
  - destruct (ReAddSkipped_total (set_skipped (newer_skipped s) (flushed s)))
      as [r Hr].
    exists r. now apply Flush_readd.
Qed.

Lemma NewLines_total cnt s : exists r, NewLines_to cnt s r.
Proof.
  destruct (Empty (m_aligned s)) eqn:Ea.
  { exists s. now apply NewLines_idle. }
  set (s1 := set_seqnum (m_seqnum s + cnt) s).
  destruct (m_seqnum s1 >? m_nl_seqnum s1 + m_span s1) eqn:Eg.
  - destruct (Flush_total s1) as [r Hr].
    exists r. eapply NewLines_expired; eauto.
  - exists s1. eapply NewLines_within; eauto.
Qed.

Lemma End_total s : exists r, End_to s r.
Proof.
  unfold End_to. destruct (negb _).
  - destruct (Flush_total s) as [s1 H]. eauto.
  - eauto.
Qed.

(** ** What a call leaves alone *)

(* Only NewLines writes m_seqnum, and only with tokens in m_aligned;
   nothing but Start writes m_span and m_thresh *)
Lemma calls_frame :
  (forall pc seqnum s r, Add_to pc seqnum s r ->
     m_seqnum r = m_seqnum s /\ same_settings s r) /\
  (forall s r, ReAddSkipped_to s r ->
     m_seqnum r = m_seqnum s /\ same_settings s r) /\
  (forall idx s r, ReAdd_loop_to idx s r ->
     m_seqnum r = m_seqnum s /\ same_settings s r) /\
  (forall cnt s r, NewLines_to cnt s r ->
     m_seqnum r = m_seqnum s + (if Empty (m_aligned s) then 0 else cnt) /\
     same_settings s r) /\
  (forall s r, Flush_to s r ->
     m_seqnum r = m_seqnum s /\ same_settings s r).
Proof.
  unfold same_settings. apply calls_ind.
  - intros pc seqnum s _. simpl. auto.
  - intros pc seqnum s s1 _ -> _.
    destruct (push_aligned_fields pc (assign_seqnum s seqnum) s)
      as (_ & _ & _ & _ & -> & -> & -> & _). auto.
  - intros pc seqnum s s1 r _ -> _ _.
    cbn [m_seqnum m_span m_thresh set_max_col].
    destruct (push_aligned_fields pc (assign_seqnum s seqnum) s)
      as (_ & _ & _ & _ & -> & -> & -> & _). auto.
  - auto.
  - intros s s1 r _ _ IL _ IN. simpl in IL.
    destruct IL as (L1 & L2 & L3), IN as (N1 & N2 & N3).
    rewrite N1, N2, N3, L1, L2, L3.
    destruct (Empty _); repeat split; lia.
  - auto.
  - intros idx s ce s1 r _ _ (A1 & A2 & A3) _ (L1 & L2 & L3).
    rewrite L1, L2, L3. auto.
  - intros cnt s ->. repeat split; lia.
  - intros cnt s s1 Ee -> _. rewrite Ee. simpl. auto.
  - intros cnt s s1 r Ee -> _ _ IH. rewrite Ee. simpl in IH. exact IH.
  - intros s _. cbn [m_seqnum m_span m_thresh set_nl_seqnum].
    destruct (flushed_fields s) as (_ & _ & _ & _ & -> & -> & -> & _). auto.
  - intros s r _ _. cbn [m_seqnum m_span m_thresh set_skipped].
    destruct (flushed_fields s) as (_ & _ & _ & _ & -> & -> & -> & _). auto.
Qed.

(** ** The history of applier calls

    A call only appends to the history.  An entry of [m_aligned] stays
    there unless it is handed to the applier, and [m_aligned] only
    grows as long as the applier is not called. *)

Lemma history_grows_refl s : history_grows s s.
Proof.
  exists []. rewrite !app_nil_r. repeat split; auto.
  exists []. now rewrite app_nil_r.
Qed.

Lemma history_grows_trans s1 s2 s3 :
  history_grows s1 s2 -> history_grows s2 s3 -> history_grows s1 s3.
Proof.
  intros (n1 & H1 & G1 & K1) (n2 & H2 & G2 & K2).
  exists (n1 ++ n2). rewrite H2, H1, app_assoc. split; [reflexivity|]. split.
  - intros E. apply app_eq_nil in E as (-> & ->).
    destruct (G1 eq_refl) as [l1 E1], (G2 eq_refl) as [l2 E2].
    exists (l1 ++ l2). now rewrite E2, E1, app_assoc.
  - intros ce Hin. rewrite map_app, in_app_iff.
    destruct (K1 ce Hin) as [H|H]; auto.
    destruct (K2 ce H); auto.
Qed.

Lemma history_grows_same (s r : state) :
  applier_calls r = applier_calls s ->
  (exists l, m_aligned r = m_aligned s ++ l) ->
  history_grows s r.
Proof.
  intros Hc [l Hl]. exists []. rewrite app_nil_r. repeat split; auto.
  - eauto.
  - intros ce Hin. left. rewrite Hl. apply in_or_app. auto.
Qed.

Lemma history_grows_flushed s : history_grows s (flushed s).
Proof.
  destruct (flushed_fields s) as (Ha & _ & _ & _ & _ & _ & _ & _ & Hc).
  exists (group_calls s). split; [exact Hc|]. split.
  - intros E. unfold group_calls in E. apply map_eq_nil in E.
    exists []. now rewrite Ha, E.
  - intros ce Hin. right. unfold group_calls. rewrite map_map. simpl.
    apply in_map with (f := m_pc) in Hin. exact Hin.
Qed.

Lemma calls_history :
  (forall pc seqnum s r, Add_to pc seqnum s r -> history_grows s r) /\
  (forall s r, ReAddSkipped_to s r -> history_grows s r) /\
  (forall idx s r, ReAdd_loop_to idx s r -> history_grows s r) /\
  (forall cnt s r, NewLines_to cnt s r -> history_grows s r) /\
  (forall s r, Flush_to s r -> history_grows s r).
Proof.
  apply calls_ind.
  - intros pc seqnum s _. apply history_grows_same; [reflexivity|].
    exists []. now rewrite app_nil_r.
  - intros pc seqnum s s1 _ -> _.
    destruct (push_aligned_fields pc (assign_seqnum s seqnum) s)
      as (Ha & _ & _ & _ & _ & _ & _ & _ & _ & Hc).
    apply history_grows_same; eauto.
  - intros pc seqnum s s1 r _ -> _ _ IH.
    destruct (push_aligned_fields pc (assign_seqnum s seqnum) s)
      as (Ha & _ & _ & _ & _ & _ & _ & _ & _ & Hc).
    eapply history_grows_trans; [|exact IH].
    apply history_grows_same; simpl; eauto.
  - intros; apply history_grows_refl.
  - intros s s1 r _ _ IL _ IN.
    eapply history_grows_trans; [|exact IN].
    eapply history_grows_trans; [|exact IL].
    apply history_grows_same; [reflexivity|].
    exists []. now rewrite app_nil_r.
  - intros; apply history_grows_refl.
  - intros idx s ce s1 r _ _ IA _ IL.
    eapply history_grows_trans; eauto.
  - intros; apply history_grows_refl.
  - intros cnt s s1 _ -> _. apply history_grows_same; [reflexivity|].
    exists []. now rewrite app_nil_r.
  - intros cnt s s1 r _ -> _ _ IH.
    eapply history_grows_trans; [|exact IH].
    apply history_grows_same; [reflexivity|].
    exists []. now rewrite app_nil_r.
  - intros s _.
    eapply history_grows_trans; [apply history_grows_flushed|].
    apply history_grows_same; [reflexivity|].
    exists []. now rewrite app_nil_r.
  - intros s r _ _ IH.
    eapply history_grows_trans; [apply history_grows_flushed|].
    eapply history_grows_trans; [|exact IH].
    apply history_grows_same; [reflexivity|].
    exists []. now rewrite app_nil_r.
Qed.

(** ** Add: the threshold test *)

Lemma within_thresh_true s pc : within_thresh s pc = true <-> accepted s pc.
Proof.
  unfold within_thresh, accepted.
  rewrite !orb_true_iff, andb_true_iff, !Z.eqb_eq, Z.leb_le, Z.geb_le. lia.
Qed.

Lemma within_thresh_false s pc : within_thresh s pc = false <-> ~ accepted s pc.
Proof.
  rewrite <- within_thresh_true. destruct (within_thresh s pc); split; congruence.
Qed.

Lemma push_aligned_eq pc seqnum s :
  push_aligned pc seqnum s = with_aligned pc seqnum s.
Proof.
  unfold push_aligned, with_aligned, Push, set_aligned, set_nl_seqnum.
  destruct (seqnum >? m_nl_seqnum s) eqn:E; simpl; f_equal; lia.
Qed.

(** C1.  Add(token, seqnum) returns, and it pushes the token onto
    m_aligned exactly when m_max_col = 0, or m_thresh = 0, or the column of
    the token lies in [m_max_col - m_thresh, m_max_col + m_thresh].  In
    that case m_skipped is not pushed to: the state after the push is
    [with_aligned], from which the rest of Add (the growth of m_max_col
    and the replay of m_skipped) runs, and the entry is still in
    m_aligned when Add returns unless it went through the applier.
    Otherwise the token is pushed onto m_skipped and nothing else
    changes. *)
Theorem Add_places_token_by_threshold pc seqnum s :
  let seq := assign_seqnum s seqnum in
  let endcol := column (document s) pc + len pc in
  exists fuel r,
    Add fuel pc seqnum s = Some r /\
    (accepted s pc ->
       (if endcol >? m_max_col s
        then exists fuel',
               ReAddSkipped fuel' (set_max_col endcol (with_aligned pc seq s))
               = Some r
        else r = with_aligned pc seq s) /\
       (In (mkEntry seq pc) (m_aligned r) \/
        exists new, applier_calls r = applier_calls s ++ new /\
                    In pc (map fst new))) /\
    (~ accepted s pc -> r = with_skipped pc seq s).
Proof.
  intros seq endcol.
  destruct (Add_total pc seqnum s) as [r Hr].
  destruct (proj1 returns_complete _ _ _ _ Hr) as [fuel Hf].
  exists fuel, r. split; [exact Hf|].
  inversion Hr as [? ? ? Ew | ? ? ? ? Ew E1 Eg | ? ? ? ? ? Ew E1 Eg HR]; subst.
  - split; [intros A; apply within_thresh_true in A; congruence|].
    intros _. reflexivity.
  - split; [|intros A; apply within_thresh_false in A; congruence].
    intros _. rewrite push_aligned_eq in *. simpl in Eg.
    fold endcol in Eg. rewrite Eg. split; [reflexivity|].
    left. simpl. apply in_or_app. right. now left.
  - split; [|intros A; apply within_thresh_false in A; congruence].
    intros _. rewrite push_aligned_eq in *. simpl in Eg, HR.
    fold endcol seq in Eg, HR. rewrite Eg. split.
    + apply (proj1 (proj2 returns_complete)). exact HR.
    + destruct (proj1 (proj2 calls_history) _ _ HR) as (new & Hc & _ & K).
      destruct (K (mkEntry seq pc)) as [H|H].
      * simpl. apply in_or_app. right. now left.
      * now left.
      * right. exists new. auto.
Qed.

(** ** Results do not depend on the fuel *)

Lemma Add_fuel_unique n m pc seqnum s r r' :
  Add n pc seqnum s = Some r -> Add m pc seqnum s = Some r' -> r = r'.
Proof.
  intros H H'.
  apply (proj1 (fuel_mono n)) with (m := Nat.max n m) in H; [|lia].
  apply (proj1 (fuel_mono m)) with (m := Nat.max n m) in H'; [|lia].
  congruence.
Qed.

Lemma NewLines_fuel_unique n m cnt s r r' :
  NewLines n cnt s = Some r -> NewLines m cnt s = Some r' -> r = r'.
Proof.
  intros H H'.
  apply (proj1 (proj2 (proj2 (proj2 (fuel_mono n))))) with (m := Nat.max n m) in H; [|lia].
  apply (proj1 (proj2 (proj2 (proj2 (fuel_mono m))))) with (m := Nat.max n m) in H'; [|lia].
  congruence.
Qed.

Lemma ReAddSkipped_fuel_unique n m s r r' :
  ReAddSkipped n s = Some r -> ReAddSkipped m s = Some r' -> r = r'.
Proof.
  intros H H'.
  apply (proj1 (proj2 (fuel_mono n))) with (m := Nat.max n m) in H; [|lia].
  apply (proj1 (proj2 (fuel_mono m))) with (m := Nat.max n m) in H'; [|lia].
  congruence.
Qed.

Lemma Flush_fuel_unique n m s r r' :
  Flush n s = Some r -> Flush m s = Some r' -> r = r'.
Proof.
  intros H H'.
  apply (proj2 (proj2 (proj2 (proj2 (fuel_mono n))))) with (m := Nat.max n m) in H; [|lia].
  apply (proj2 (proj2 (proj2 (proj2 (fuel_mono m))))) with (m := Nat.max n m) in H'; [|lia].
  congruence.
Qed.

Lemma End_fuel_unique n m s r r' :
  End n s = Some r -> End m s = Some r' -> r = r'.
Proof.
  unfold End. destruct (negb _); [|congruence].
  destruct (Flush n s) eqn:E; [|discriminate].
  destruct (Flush m s) eqn:E'; [|discriminate].
  rewrite (Flush_fuel_unique _ _ _ _ _ E E'). congruence.
Qed.

(** ** Flush *)

Lemma newer_skipped_nil s : m_skipped s = [] -> newer_skipped s = [].
Proof. unfold newer_skipped. intros ->. reflexivity. Qed.

(* Flush when no entry of m_skipped survives: the state it returns *)
Lemma Flush_to_no_newer s r :
  Flush_to s r -> newer_skipped s = [] ->
  m_aligned r = [] /\ m_max_col r = 0 /\
  applier_calls r = applier_calls s ++ group_calls s.
Proof.
  intros H Hn.
  destruct (flushed_fields s) as (Ha & _ & _ & Hm & _ & _ & _ & _ & Hc).
  inversion H as [? Ee | ? ? Ee HR]; subst.
  - cbn [m_aligned m_max_col applier_calls set_nl_seqnum]. auto.
  - apply ReAddSkipped_to_empty in HR; [|cbn [m_skipped set_skipped]; now rewrite Hn].
    subst r. cbn [m_aligned m_max_col applier_calls set_skipped]. auto.
Qed.

(** ** NewLines *)

(** C4.  With tokens in m_aligned, span S = m_span and N = m_nl_seqnum,
    NewLines(cnt) returns; it adds cnt to m_seqnum and then calls Flush
    exactly when the new m_seqnum exceeds N + S, that is when it is at
    least N + S + 1.  When it does, its result is that of Flush and the
    applier has been called on the group; when the new m_seqnum is at most
    N + S, only m_seqnum has changed.  So the applier history changes iff
    the new m_seqnum is N + S + 1 or more. *)
Theorem NewLines_flushes_beyond_span cnt s :
  m_aligned s <> [] ->
  let s1 := set_seqnum (m_seqnum s + cnt) s in
  exists fuel r,
    NewLines fuel cnt s = Some r /\
    (m_nl_seqnum s + m_span s + 1 <= m_seqnum s + cnt ->
       (exists fuel', Flush fuel' s1 = Some r) /\
       exists rest, applier_calls r = applier_calls s ++ group_calls s ++ rest) /\
    (m_seqnum s + cnt <= m_nl_seqnum s + m_span s -> r = s1) /\
    (applier_calls r <> applier_calls s <->
     m_nl_seqnum s + m_span s + 1 <= m_seqnum s + cnt).
Proof.
  intros Hne s1.
  destruct (NewLines_total cnt s) as [r Hr].
  destruct (proj1 (proj2 (proj2 (proj2 returns_complete))) _ _ _ Hr)
    as [fuel Hf].
  exists fuel, r. split; [exact Hf|].
  assert (Hg : group_calls s <> []).
  { unfold group_calls. destruct (m_aligned s); [congruence|discriminate]. }
  inversion Hr as [? ? Ee | ? ? ? Ee E1 Eg | ? ? ? ? Ee E1 Eg HF]; subst.
  - apply Empty_true in Ee. contradiction.
  - simpl in Eg. rewrite Z.gtb_ltb in Eg. apply Z.ltb_ge in Eg.
    repeat split; try lia; auto.
    simpl. intros H. congruence.
  - simpl in Eg. rewrite Z.gtb_ltb in Eg. apply Z.ltb_lt in Eg.
    assert (Hc : exists rest,
               applier_calls r = applier_calls s ++ group_calls s ++ rest).
    { inversion HF as [? Ek | ? ? Ek HR]; subst.
      - exists []. cbn [applier_calls set_nl_seqnum].
        destruct (flushed_fields (set_seqnum (m_seqnum s + cnt) s))
          as (_ & _ & _ & _ & _ & _ & _ & _ & Hc).
        rewrite Hc. now rewrite app_nil_r.
      - destruct (proj1 (proj2 calls_history) _ _ HR) as (rest & Hrest & _).
        exists rest. rewrite Hrest. cbn [applier_calls set_skipped].
        destruct (flushed_fields (set_seqnum (m_seqnum s + cnt) s))
          as (_ & _ & _ & _ & _ & _ & _ & _ & Hc).
        rewrite Hc. now rewrite app_assoc. }
    repeat split; try lia.
    + apply (proj2 (proj2 (proj2 (proj2 returns_complete)))). exact HF.
    + exact Hc.
    + intros _ E. destruct Hc as [rest Hc]. rewrite Hc in E.
      rewrite <- (app_nil_r (applier_calls s)) in E at 2.
      apply app_inv_head in E. apply app_eq_nil in E as (E & _).
      contradiction.
Qed.

(** ** m_max_col = 0 iff m_aligned is empty *)

Lemma fold_indent_positive_ends l s :
  applier_keeps_positive_ends ->
  positive_ends (document s) ->
  positive_ends (document (fold_left indent_entry l s)).
Proof.
  intros Happ. revert s. induction l as [|ce l IH]; intros s H; simpl; auto.
  apply IH. simpl. now apply Happ.
Qed.

Lemma flushed_group_ok s :
  applier_keeps_positive_ends ->
  positive_ends (document s) -> group_ok (flushed s).
Proof.
  intros Happ H. destruct (flushed_fields s) as (Ha & _ & _ & Hm & _).
  split.
  - unfold flushed, reset_group, indent_aligned.
    destruct (Last _); simpl; now apply fold_indent_positive_ends.
  - unfold group_inv. rewrite Ha, Hm. tauto.
Qed.

Lemma fold_indent_ends_right_of_0 l s :
  applier_keeps_ends_right_of_0 ->
  (l <> [] -> 0 < m_max_col s) ->
  positive_ends (document s) ->
  positive_ends (document (fold_left indent_entry l s)).
Proof.
  intros Happ. revert s. induction l as [|ce l IH]; intros s Hm H; simpl; auto.
  assert (H0 : 0 < m_max_col s) by (apply Hm; discriminate).
  apply IH; simpl.
  - intros _. exact H0.
  - apply Happ; [exact H|lia].
Qed.

Lemma flushed_group_nonneg s :
  applier_keeps_ends_right_of_0 ->
  group_nonneg s -> group_nonneg (flushed s).
Proof.
  intros Happ (Hp & Hi & H0).
  destruct (flushed_fields s) as (Ha & _ & _ & Hm & _).
  split; [|split].
  - assert (Hpos : m_aligned s <> [] -> 0 < m_max_col s).
    { intros Hne. destruct (Z.eq_dec (m_max_col s) 0) as [E|E]; [|lia].
      apply Hi in E. contradiction. }
    unfold flushed, reset_group, indent_aligned.
    destruct (Last _); simpl; now apply fold_indent_ends_right_of_0.
  - unfold group_inv. rewrite Ha, Hm. tauto.
  - rewrite Hm. lia.
Qed.

Lemma calls_group_nonneg :
  applier_keeps_ends_right_of_0 ->
  (forall pc seqnum s r, Add_to pc seqnum s r ->
     group_nonneg s -> group_nonneg r) /\
  (forall s r, ReAddSkipped_to s r -> group_nonneg s -> group_nonneg r) /\
  (forall idx s r, ReAdd_loop_to idx s r -> group_nonneg s -> group_nonneg r) /\
  (forall cnt s r, NewLines_to cnt s r -> group_nonneg s -> group_nonneg r) /\
  (forall s r, Flush_to s r -> group_nonneg s -> group_nonneg r).
Proof.
  intros Happ. apply calls_ind.
  - intros pc seqnum s _ H. exact H.
  - intros pc seqnum s s1 _ -> Eg (Hp & Hi & H0). rewrite push_aligned_eq in *.
    simpl in Eg. split; [exact Hp|]. split; [|exact H0].
    unfold group_inv. simpl.
    rewrite Z.gtb_ltb in Eg. apply Z.ltb_ge in Eg. specialize (Hp pc).
    split; [lia|]. intros E. now apply app_eq_nil in E as (_ & E).
  - intros pc seqnum s s1 r _ -> Eg _ IH (Hp & Hi & H0). apply IH.
    rewrite push_aligned_eq in *. simpl in Eg.
    rewrite Z.gtb_ltb in Eg. apply Z.ltb_lt in Eg.
    split; [exact Hp|]. split; [|simpl; lia].
    unfold group_inv. simpl.
    split; [lia|]. intros E. now apply app_eq_nil in E as (_ & E).
  - auto.
  - intros s s1 r _ _ IL _ IN H. apply IN, IL. exact H.
  - auto.
  - intros idx s ce s1 r _ _ IA _ IL H. auto.
  - auto.
  - intros cnt s s1 _ -> _ H. exact H.
  - intros cnt s s1 r _ -> _ _ IH H. apply IH. exact H.
  - intros s _ H. now apply (flushed_group_nonneg s Happ).
  - intros s r _ _ IH H. apply IH. now apply (flushed_group_nonneg s Happ).
Qed.

Lemma End_after_flush fuel s :
  End fuel s =
  match End_flush fuel s with
  | Some s1 => Some (set_skipped Reset (set_aligned Reset s1))
  | None => None
  end.
Proof. reflexivity. Qed.

(** C5 (amended).  The state predicate (m_max_col = 0 iff m_aligned is
    empty) holds after Start, where m_max_col is not negative.  Add,
    NewLines, Flush and ReAddSkipped, called in a state where the
    predicate holds and m_max_col is not negative, return in such a state,
    provided every token of the document ends right of column 0
    (column + len > 0) and the applier, when it is given a column at which
    the token ends right of column 0, leaves every token ending right of
    column 0.  End returns, and preserves the predicate exactly when the
    Flush it makes leaves no token in m_aligned. *)
Theorem max_col_zero_iff_no_group span thresh s0 s pc seqnum cnt :
  applier_keeps_ends_right_of_0 ->
  positive_ends (document s) ->
  group_inv s ->
  0 <= m_max_col s ->
  (group_inv (Start span thresh s0) /\ 0 <= m_max_col (Start span thresh s0)) /\
  (exists fuel r, Add fuel pc seqnum s = Some r /\
                  positive_ends (document r) /\ group_inv r /\
                  0 <= m_max_col r) /\
  (exists fuel r, NewLines fuel cnt s = Some r /\
                  positive_ends (document r) /\ group_inv r /\
                  0 <= m_max_col r) /\
  (exists fuel r, Flush fuel s = Some r /\
                  positive_ends (document r) /\ group_inv r /\
                  0 <= m_max_col r) /\
  (exists fuel r, ReAddSkipped fuel s = Some r /\
                  positive_ends (document r) /\ group_inv r /\
                  0 <= m_max_col r) /\
  (exists fuel s1 r, End_flush fuel s = Some s1 /\ End fuel s = Some r /\
                     positive_ends (document r) /\ 0 <= m_max_col r /\
                     (group_inv r <-> m_aligned s1 = [])).
Proof.
  intros Happ Hp Hi H0.
  destruct (calls_group_nonneg Happ) as (GA & GR & _ & GN & GF).
  destruct returns_complete as (CA & CR & _ & CN & CF).
  assert (Hok : group_nonneg s) by (split; [|split]; assumption).
  split; [unfold group_inv; simpl; split; [tauto|lia]|].
  split; [|split; [|split; [|split]]].
  - destruct (Add_total pc seqnum s) as [r Hr].
    destruct (CA _ _ _ _ Hr) as [fuel Hf]. exists fuel, r.
    split; [exact Hf|]. now apply (GA _ _ _ _ Hr).
  - destruct (NewLines_total cnt s) as [r Hr].
    destruct (CN _ _ _ Hr) as [fuel Hf]. exists fuel, r.
    split; [exact Hf|]. now apply (GN _ _ _ Hr).
  - destruct (Flush_total s) as [r Hr].
    destruct (CF _ _ Hr) as [fuel Hf]. exists fuel, r.
    split; [exact Hf|]. now apply (GF _ _ Hr).
  - destruct (ReAddSkipped_total s) as [r Hr].
    destruct (CR _ _ Hr) as [fuel Hf]. exists fuel, r.
    split; [exact Hf|]. now apply (GR _ _ Hr).
  - assert (exists fuel s1, End_flush fuel s = Some s1 /\ group_nonneg s1)
      as (fuel & s1 & H1 & (P1 & G1 & N1)).
    { unfold End_flush. destruct (negb _).
      - destruct (Flush_total s) as [s1 Hr].
        destruct (CF _ _ Hr) as [fuel Hf]. exists fuel, s1.
        split; [exact Hf|]. now apply (GF _ _ Hr).
      - exists 0%nat, s. auto. }
    exists fuel, s1, (set_skipped Reset (set_aligned Reset s1)).
    split; [exact H1|]. split; [now rewrite End_after_flush, H1|].
    split; [exact P1|]. split; [exact N1|].
    unfold group_inv in *. simpl. split.
    + intros (_ & H). apply G1. now apply H.
    + intros Ha. split; [reflexivity|]. intros _. now apply G1.
Qed.

(** ** Sessions: the calls a client makes *)

Lemma do_call_sound fuel c s r : do_call fuel c s = Some r -> call_to c s r.
Proof.
  destruct returns_iff as (RA & _ & RN & RF & RE).
  destruct c; simpl; intros H.
  - congruence.
  - apply RA; eauto.
  - apply RN; eauto.
  - apply RF; eauto.
  - apply RE; eauto.
Qed.

Lemma do_call_mono n m c s r :
  do_call n c s = Some r -> (n <= m)%nat -> do_call m c s = Some r.
Proof.
  destruct (fuel_mono n) as (MA & _ & _ & MN & MF).
  destruct c; simpl; intros H Hnm; eauto.
  unfold End in *. destruct (negb _); [|exact H].
  destruct (Flush n s) as [s1|] eqn:E; [|discriminate].
  now rewrite (MF _ _ E m Hnm).
Qed.

Lemma do_call_total c s : exists fuel r, do_call fuel c s = Some r.
Proof.
  destruct returns_iff as (RA & _ & RN & RF & RE).
  destruct c; simpl.
  - exists 0%nat. eauto.
  - destruct (Add_total pc seqnum s) as [r Hr]. apply RA in Hr as [n Hn]. eauto.
  - destruct (NewLines_total cnt s) as [r Hr]. apply RN in Hr as [n Hn]. eauto.
  - destruct (Flush_total s) as [r Hr]. apply RF in Hr as [n Hn]. eauto.
  - destruct (End_total s) as [r Hr]. apply RE in Hr as [n Hn]. eauto.
Qed.

Lemma run_mono n m cs s r :
  run n cs s = Some r -> (n <= m)%nat -> run m cs s = Some r.
Proof.
  revert s. induction cs as [|c cs IH]; intros s H Hnm; simpl in *; [exact H|].
  destruct (do_call n c s) as [s1|] eqn:E; [|discriminate].
  rewrite (do_call_mono _ _ _ _ _ E Hnm). auto.
Qed.

Lemma run_fuel_unique n m cs s r r' :
  run n cs s = Some r -> run m cs s = Some r' -> r = r'.
Proof.
  intros H H'.
  apply run_mono with (m := Nat.max n m) in H; [|lia].
  apply run_mono with (m := Nat.max n m) in H'; [|lia].
  congruence.
Qed.

Lemma run_total cs s : exists fuel r, run fuel cs s = Some r.
Proof.
  revert s. induction cs as [|c cs IH]; intros s.
  - exists 0%nat, s. reflexivity.
  - destruct (do_call_total c s) as (n & s1 & H1).
    destruct (IH s1) as (m & r & H2).
    exists (Nat.max n m), r. simpl.
    rewrite (do_call_mono _ (Nat.max n m) _ _ _ H1) by lia.
    apply (run_mono _ _ _ _ _ H2). lia.
Qed.

Lemma run_app fuel cs1 cs2 s :
  run fuel (cs1 ++ cs2) s =
  match run fuel cs1 s with
  | Some s1 => run fuel cs2 s1
  | None => None
  end.
Proof.
  revert s. induction cs1 as [|c cs1 IH]; intros s; simpl; [reflexivity|].
  destruct (do_call fuel c s); auto.
Qed.

(** ** Flush without a group *)

Lemma calls_group_behind_skipped :
  (forall pc seqnum s r, Add_to pc seqnum s r ->
     group_behind_skipped s -> group_behind_skipped r) /\
  (forall s r, ReAddSkipped_to s r ->
     (m_max_col s <> 0 -> m_aligned s <> []) -> group_behind_skipped r) /\
  (forall idx s r, ReAdd_loop_to idx s r ->
     group_behind_skipped s -> group_behind_skipped r) /\
  (forall cnt s r, NewLines_to cnt s r ->
     group_behind_skipped s -> group_behind_skipped r) /\
  (forall s r, Flush_to s r -> group_behind_skipped r).
Proof.
  unfold group_behind_skipped. apply calls_ind.
  - (* Add, skipped *)
    intros pc seqnum s Ew (H1 & H2). simpl.
    assert (Hm : m_max_col s <> 0).
    { intros E. unfold within_thresh in Ew. rewrite E in Ew. discriminate. }
    auto.
  - (* Add, aligned *)
    intros pc seqnum s s1 _ -> _ _. rewrite push_aligned_eq. simpl.
    split; intros _ E; now apply app_eq_nil in E as (_ & E).
  - (* Add, pushed out *)
    intros pc seqnum s s1 r _ -> _ _ IH _. apply IH.
    rewrite push_aligned_eq. simpl.
    intros _ E; now apply app_eq_nil in E as (_ & E).
  - intros s Ee H1. apply Empty_true in Ee. split; [exact H1|].
    intros H. contradiction.
  - intros s s1 r _ _ IL _ IN H1. apply IN, IL. simpl.
    split; [exact H1|]. intros H. now contradiction H.
  - auto.
  - intros idx s ce s1 r _ _ IA _ IL H. auto.
  - auto.
  - intros cnt s s1 _ -> _ H. exact H.
  - intros cnt s s1 r _ -> _ _ IH _. exact IH.
  - intros s Ee. apply Empty_true in Ee.
    destruct (flushed_fields s) as (Fa & Fk & _ & Fm & _).
    cbn [m_max_col m_aligned m_skipped set_nl_seqnum].
    rewrite Fm, Fk, Ee. split; intros H; now contradiction H.
  - intros s r _ _ IH. apply IH.
    destruct (flushed_fields s) as (_ & _ & _ & Fm & _).
    cbn [m_max_col set_skipped]. rewrite Fm. intros H. now contradiction H.
Qed.

Lemma run_group_behind_skipped fuel cs s r :
  no_CEnd cs -> run fuel cs s = Some r ->
  group_behind_skipped s -> group_behind_skipped r.
Proof.
  destruct calls_group_behind_skipped as (BA & _ & _ & BN & BF).
  intros Hcs. revert s.
  induction Hcs as [|c cs Hc _ IH]; intros s Hr Hs; simpl in Hr.
  - now injection Hr as <-.
  - destruct (do_call fuel c s) as [s1|] eqn:E; [|discriminate].
    apply (IH s1 Hr). apply do_call_sound in E.
    destruct c; simpl in E.
    + subst s1. split; simpl; intros H; now contradiction H.
    + apply (BA _ _ _ _ E Hs).
    + apply (BN _ _ _ E Hs).
    + apply (BF _ _ E).
    + contradiction.
Qed.

(** C8 (amended).  (1) In a state where m_aligned is empty and no entry
    of m_skipped has a sequence number of 0 or more (in particular when
    m_skipped is empty), Flush returns without any call of the applier,
    with the document untouched, m_aligned empty and m_max_col = 0.
    (2) In a session, after Start and any number of Add, NewLines, Flush
    and Start calls, m_skipped is empty whenever m_aligned is, so that (1)
    covers every Flush made there on an empty m_aligned. *)
Theorem Flush_of_nothing s span thresh cs s0 :
  (m_aligned s = [] ->
   Forall (fun ce => ChunkStack.m_seqnum ce < 0) (m_skipped s) ->
   exists fuel r,
     Flush fuel s = Some r /\
     applier_calls r = applier_calls s /\ document r = document s /\
     m_aligned r = [] /\ m_max_col r = 0) /\
  (no_CEnd cs ->
   exists fuel r,
     run fuel (CStart span thresh :: cs) s0 = Some r /\
     (m_aligned r = [] -> m_skipped r = [])).
Proof.
  split.
  - intros Ha Hk.
    destruct (Flush_total s) as [r Hr].
    destruct (proj2 (proj2 (proj2 (proj2 returns_complete))) _ _ Hr)
      as [fuel Hf].
    exists fuel, r. split; [exact Hf|].
    assert (Hn : newer_skipped s = []).
    { unfold newer_skipped. rewrite Ha. unfold last_seqnum_of. simpl.
      rewrite Collapse_Zap_older.
      induction Hk as [|ce l H _ IH]; simpl; [reflexivity|].
      apply Z.ltb_lt in H. now rewrite H. }
    destruct (Flush_to_no_newer s r Hr Hn) as (A & M & C).
    unfold group_calls in C. rewrite Ha, app_nil_r in C.
    repeat split; auto.
    assert (Hd : document (flushed s) = document s).
    { unfold flushed, reset_group, indent_aligned. rewrite Ha. simpl.
      rewrite Ha. reflexivity. }
    inversion Hr as [? Ee | ? ? Ee HR]; subst.
    + exact Hd.
    + apply ReAddSkipped_to_empty in HR; [|now rewrite Hn].
      subst r. exact Hd.
  - intros Hcs.
    destruct (run_total (CStart span thresh :: cs) s0) as (fuel & r & Hr).
    exists fuel, r. split; [exact Hr|].
    simpl in Hr.
    destruct (run_group_behind_skipped fuel cs _ r Hcs Hr) as (_ & H2).
    { split; simpl; intros H; now contradiction H. }
    intros Ha. destruct (m_skipped r) as [|ce l]; [reflexivity|].
    exfalso. apply H2; [discriminate|exact Ha].
Qed.

(** ** The running sequence number *)

Lemma call_to_seqnum c s r :
  call_to c s r ->
  m_seqnum r = match c with
               | CStart _ _ => 0
               | CNewLines cnt =>
                   if Empty (m_aligned s) then m_seqnum s else m_seqnum s + cnt
               | _ => m_seqnum s
               end.
Proof.
  destruct calls_frame as (FA & _ & _ & FN & FF).
  destruct c; simpl; intros H.
  - now subst r.
  - now apply FA in H.
  - apply FN in H as (-> & _). destruct (Empty _); lia.
  - now apply FF in H.
  - destruct H as (s1 & H & ->). simpl.
    destruct (negb _); [now apply FF in H|now subst].
Qed.

(** C6 (amended).  Every sequence of calls returns, and afterwards
    m_seqnum is the sum of the counts of those NewLines calls, since the
    last Start, that were made while m_aligned held a token (NewLines with
    m_aligned empty does not count its newlines).  Within a session (no
    Start among the calls) m_seqnum does not decrease when no count is
    negative. *)
Theorem seqnum_counts_newlines_of_open_group cs s :
  exists fuel r,
    run fuel cs s = Some r /\
    m_seqnum r = counted_newlines fuel cs s (m_seqnum s) /\
    (no_CStart cs -> counts_nonneg cs -> m_seqnum s <= m_seqnum r).
Proof.
  destruct (run_total cs s) as (fuel & r & Hr).
  exists fuel, r. split; [exact Hr|]. split.
  - revert s Hr. induction cs as [|c cs IH]; intros s Hr; simpl in *.
    + congruence.
    + destruct (do_call fuel c s) as [s1|] eqn:E; [|discriminate].
      rewrite (IH s1 Hr). f_equal.
      rewrite (call_to_seqnum c s s1 (do_call_sound _ _ _ _ E)).
      destruct c; reflexivity.
  - intros Hs Hn. revert s Hr.
    induction cs as [|c cs IH]; intros s Hr; simpl in *.
    + injection Hr as <-. lia.
    + destruct (do_call fuel c s) as [s1|] eqn:E; [|discriminate].
      inversion Hs as [|? ? Hs1 Hs2]; inversion Hn as [|? ? Hn1 Hn2]; subst.
      specialize (IH Hs2 Hn2 s1 Hr).
      pose proof (call_to_seqnum c s s1 (do_call_sound _ _ _ _ E)) as Hc.
      destruct c; try contradiction; try lia.
      destruct (Empty _); lia.
Qed.

(** ** m_nl_seqnum <= m_seqnum *)

Lemma not_ahead_mono M M' cs : M <= M' -> not_ahead M cs -> not_ahead M' cs.
Proof.
  intros HM H. unfold not_ahead in *. rewrite Forall_forall in *.
  intros ce Hin. specialize (H ce Hin). lia.
Qed.

Lemma not_ahead_newer M s :
  not_ahead M (m_skipped s) -> not_ahead M (newer_skipped s).
Proof.
  unfold newer_skipped, not_ahead. rewrite Collapse_Zap_older, !Forall_forall.
  intros H ce Hin. apply filter_In in Hin as (Hin & _). auto.
Qed.

Lemma flushed_seq_fields s :
  m_seqnum (flushed s) = m_seqnum s /\ m_nl_seqnum (flushed s) = m_nl_seqnum s /\
  m_scratch (flushed s) = m_scratch s /\ m_skipped (flushed s) = m_skipped s.
Proof.
  destruct (flushed_fields s) as (_ & A & B & _ & _ & _ & C & D & _). auto.
Qed.

Lemma calls_seq_inv :
  (forall pc seqnum s r, Add_to pc seqnum s r ->
     assign_seqnum s seqnum <= m_seqnum s -> seq_inv s -> seq_post s r) /\
  (forall s r, ReAddSkipped_to s r -> seq_inv s -> seq_post s r) /\
  (forall idx s r, ReAdd_loop_to idx s r ->
     seq_inv s -> not_ahead (m_seqnum s) (m_scratch s) ->
     seq_inv r /\ not_ahead (m_seqnum r) (m_scratch r)) /\
  (forall cnt s r, NewLines_to cnt s r ->
     0 <= cnt -> seq_inv s -> seq_post s r) /\
  (forall s r, Flush_to s r -> seq_inv s -> seq_post s r).
Proof.
  destruct calls_frame as (FA & FR & FL & FN & FF).
  unfold seq_post, seq_inv. apply calls_ind.
  - (* Add, skipped *)
    intros pc seqnum s _ Hs (H1 & H2). simpl. repeat split; auto.
    unfold Push, not_ahead in *. apply Forall_app. split; auto.
  - (* Add, aligned *)
    intros pc seqnum s s1 _ -> _ Hs (H1 & H2). rewrite push_aligned_eq.
    simpl. repeat split; auto. lia.
  - (* Add, pushed out *)
    intros pc seqnum s s1 r _ -> _ _ IH Hs (H1 & H2).
    rewrite push_aligned_eq in IH. simpl in IH. apply IH. split; auto. lia.
  - auto.
  - (* ReAddSkipped *)
    intros s s1 r _ _ IL HN IN (H1 & H2). simpl in IL.
    destruct (IL (conj H1 (Forall_nil _)) H2) as (L1 & L2).
    destruct (IN (Z.le_refl 0) L1) as (N1 & N2). split; [exact N1|].
    right. destruct N2 as [-> | N2]; [|exact N2].
    destruct (FN _ _ _ HN) as (E & _).
    apply (not_ahead_mono (m_seqnum s1)); [|exact L2].
    destruct (Empty (m_aligned s1)); lia.
  - auto.
  - (* loop, one turn *)
    intros idx s ce s1 r Eg HA IA _ IL Hi Hc.
    assert (Hce : ChunkStack.m_seqnum ce <= m_seqnum s).
    { unfold not_ahead in Hc. rewrite Forall_forall in Hc. apply Hc.
      eapply nth_error_In. exact Eg. }
    destruct (FA _ _ _ _ HA) as (E & _).
    destruct IA as (A1 & A2); auto.
    { unfold assign_seqnum. destruct (_ =? _); lia. }
    apply IL; auto. destruct A2 as [-> | A2]; [|exact A2]. now rewrite E.
  - auto.
  - (* NewLines, within the span *)
    intros cnt s s1 _ -> _ Hc (H1 & H2). simpl. repeat split; auto; try lia.
    apply (not_ahead_mono (m_seqnum s)); [lia|exact H2].
  - (* NewLines, expired *)
    intros cnt s s1 r _ -> _ _ IH Hc (H1 & H2). simpl in IH.
    apply IH. split; [lia|].
    apply (not_ahead_mono (m_seqnum s)); [lia|exact H2].
  - (* Flush, nothing skipped *)
    intros s _ (H1 & H2).
    destruct (flushed_seq_fields s) as (A & B & C & D).
    cbn [m_nl_seqnum m_seqnum m_skipped m_scratch set_nl_seqnum].
    rewrite A, C, D. repeat split; auto. lia.
  - (* Flush, replay *)
    intros s r _ _ IH (H1 & H2).
    destruct (flushed_seq_fields s) as (A & B & C & D).
    cbn [m_nl_seqnum m_seqnum m_skipped m_scratch set_skipped] in IH.
    rewrite A, B, C in IH. apply IH. split; [exact H1|].
    now apply not_ahead_newer.
Qed.

Lemma call_to_seq_inv c s r :
  call_to c s r -> call_in_step c s = true -> seq_inv s -> seq_inv r.
Proof.
  destruct calls_seq_inv as (SA & _ & _ & SN & SF).
  destruct c; simpl; intros H Hc Hi.
  - subst r. split; simpl; [lia|constructor].
  - apply Z.leb_le in Hc. now apply (SA _ _ _ _ H Hc).
  - apply Z.leb_le in Hc. now apply (SN _ _ _ H Hc).
  - now apply (SF _ _ H).
  - destruct H as (s1 & H & ->). unfold seq_inv. simpl.
    assert (H1 : seq_inv s1).
    { destruct (negb _); [now apply (SF _ _ H)|now subst]. }
    split; [apply H1|constructor].
Qed.

Lemma in_step_app fuel cs1 cs2 s :
  in_step fuel (cs1 ++ cs2) s = true -> in_step fuel cs1 s = true.
Proof.
  revert s. induction cs1 as [|c cs1 IH]; intros s H; simpl in *; [reflexivity|].
  apply andb_true_iff in H as (Hc & H). rewrite Hc. simpl.
  destruct (do_call fuel c s); auto.
Qed.

(** C7 (amended).  Every sequence of calls that begins with Start returns,
    and m_nl_seqnum <= m_seqnum holds after each of its calls (after every
    prefix [cs1] of the calls [cs1 ++ cs2] that follow Start), provided
    every Add uses a sequence number that is not ahead of the running
    m_seqnum (the default, "now", never is) and every NewLines count is
    non-negative. *)
Theorem nl_seqnum_le_seqnum_in_step span thresh cs1 cs2 s0 :
  (exists fuel r, run fuel (CStart span thresh :: cs1 ++ cs2) s0 = Some r) /\
  forall fuel r,
    run fuel (CStart span thresh :: cs1) s0 = Some r ->
    in_step fuel (cs1 ++ cs2) (Start span thresh s0) = true ->
    m_nl_seqnum r <= m_seqnum r.
Proof.
  split; [apply run_total|].
  intros fuel r Hr Hs. apply in_step_app in Hs. simpl in Hr.
  assert (Hi : seq_inv (Start span thresh s0)).
  { split; simpl; [lia|constructor]. }
  revert Hr Hs Hi. generalize (Start span thresh s0). clear s0.
  induction cs1 as [|c cs IH]; intros s Hr Hs Hi; simpl in *.
  - injection Hr as <-. apply Hi.
  - destruct (do_call fuel c s) as [s1|] eqn:E; [|discriminate].
    apply andb_true_iff in Hs as (Hc & Hs).
    apply (IH s1 Hr Hs).
    apply (call_to_seq_inv c s s1 (do_call_sound _ _ _ _ E) Hc Hi).
Qed.

(** ** Where the tokens go

      Tokens are held by m_aligned and m_skipped.  A call moves tokens
      between the stacks and hands tokens of m_aligned to the applier; it
      can drop tokens but never duplicates one.  [sub_tokens A B]: the
      tokens of [A] are among those of [B], counted with multiplicity. *)

Lemma sub_tokens_perm A B : Permutation A B -> sub_tokens A B.
Proof. intros H. exists []. now rewrite app_nil_r. Qed.

Lemma sub_tokens_trans A B C :
  sub_tokens A B -> sub_tokens B C -> sub_tokens A C.
Proof.
  intros [X HX] [Y HY]. exists (X ++ Y).
  rewrite <- HY, <- HX. aac_reflexivity.
Qed.

Lemma sub_tokens_app A B C D :
  sub_tokens A B -> sub_tokens C D -> sub_tokens (A ++ C) (B ++ D).
Proof.
  intros [X HX] [Y HY]. exists (X ++ Y).
  rewrite <- HY, <- HX. aac_reflexivity.
Qed.

Lemma sub_tokens_nil A : sub_tokens [] A.
Proof. exists A. reflexivity. Qed.

Lemma sub_tokens_In A B x : sub_tokens A B -> In x A -> In x B.
Proof.
  intros [X HX] H. apply (Permutation_in _ HX). apply in_or_app. now left.
Qed.

Lemma sub_tokens_NoDup A B : sub_tokens A B -> NoDup B -> NoDup A.
Proof.
  intros [X HX] H. apply Permutation_sym in HX.
  apply (Permutation_NoDup HX) in H. now apply NoDup_app_remove_r in H.
Qed.

Lemma sub_tokens_filter f (cs : ChunkStack.t chunk) :
  sub_tokens (tokens (filter f cs)) (tokens cs).
Proof.
  induction cs as [|ce cs [X HX]]; simpl.
  - apply sub_tokens_nil.
  - destruct (f ce); simpl.
    + exists X. now constructor.
    + exists (m_pc ce :: X). rewrite <- HX.
      change (m_pc ce :: X) with ([m_pc ce] ++ X).
      change (m_pc ce :: tokens (filter f cs) ++ X)
        with ([m_pc ce] ++ tokens (filter f cs) ++ X).
      aac_reflexivity.
Qed.

Lemma conserved_same extra s r :
  applier_calls r = applier_calls s ->
  sub_tokens (held r) (held s ++ extra) ->
  conserved extra s r.
Proof.
  intros Hc H. exists []. simpl. now rewrite !app_nil_r.
Qed.

Lemma conserved_trans X Y s1 s2 s3 :
  conserved X s1 s2 -> conserved Y s2 s3 -> conserved (X ++ Y) s1 s3.
Proof.
  intros (n1 & H1 & [c1 P1]) (n2 & H2 & [c2 P2]).
  exists (n1 ++ n2). rewrite H2, H1, app_assoc. split; [reflexivity|].
  exists (c2 ++ c1). rewrite map_app.
  transitivity (((held s3 ++ map fst n2) ++ c2) ++ map fst n1 ++ c1);
    [aac_reflexivity|].
  rewrite P2.
  transitivity (((held s2 ++ map fst n1) ++ c1) ++ Y); [aac_reflexivity|].
  rewrite P1. aac_reflexivity.
Qed.

Lemma conserved_weaken X Y s r :
  conserved X s r -> sub_tokens X Y -> conserved Y s r.
Proof.
  intros (new & H & S) HXY. exists new. split; [exact H|].
  eapply sub_tokens_trans; [exact S|].
  apply sub_tokens_app; [apply sub_tokens_perm; reflexivity|exact HXY].
Qed.

Lemma conserved_nil_r X s1 s2 s3 :
  conserved X s1 s2 -> conserved [] s2 s3 -> conserved X s1 s3.
Proof.
  intros H1 H2. rewrite <- (app_nil_r X). eapply conserved_trans; eauto.
Qed.

Lemma conserved_nil_l X s1 s2 s3 :
  conserved [] s1 s2 -> conserved X s2 s3 -> conserved X s1 s3.
Proof.
  intros H1 H2. change X with ([] ++ X). eapply conserved_trans; eauto.
Qed.

Lemma conserved_flushed s :
  conserved [] s (set_skipped (newer_skipped s) (flushed s)).
Proof.
  destruct (flushed_fields s) as (Ha & _ & _ & _ & _ & _ & _ & _ & Hc).
  exists (group_calls s). cbn [applier_calls set_skipped]. split; [exact Hc|].
  unfold held. cbn [m_aligned m_skipped set_skipped]. rewrite Ha.
  unfold group_calls. rewrite map_map. simpl map.
  fold (tokens (m_aligned s)). rewrite app_nil_r.
  eapply sub_tokens_trans;
    [|apply sub_tokens_perm, Permutation_app_comm].
  apply sub_tokens_app; [|apply sub_tokens_perm; reflexivity].
  unfold newer_skipped. rewrite Collapse_Zap_older. apply sub_tokens_filter.
Qed.

Lemma skipn_nth_error {A} (l : list A) idx x :
  nth_error l idx = Some x -> skipn idx l = x :: skipn (S idx) l.
Proof.
  revert idx. induction l as [|y l IH]; intros [|idx] H; simpl in *;
    try discriminate.
  - now injection H as ->.
  - now apply IH.
Qed.

Lemma calls_conserved :
  (forall pc seqnum s r, Add_to pc seqnum s r -> conserved [pc] s r) /\
  (forall s r, ReAddSkipped_to s r -> conserved [] s r) /\
  (forall idx s r, ReAdd_loop_to idx s r ->
     (nsk s <= idx)%nat ->
     conserved (tokens (skipn idx (m_scratch s))) s r) /\
  (forall cnt s r, NewLines_to cnt s r -> conserved [] s r) /\
  (forall s r, Flush_to s r -> conserved [] s r).
Proof.
  apply calls_ind.
  - (* Add, skipped *)
    intros pc seqnum s _. apply conserved_same; [reflexivity|].
    apply sub_tokens_perm. unfold held, tokens, push_skipped, Push. simpl.
    rewrite map_app. simpl. aac_reflexivity.
  - (* Add, aligned *)
    intros pc seqnum s s1 _ -> _. rewrite push_aligned_eq.
    apply conserved_same; [reflexivity|].
    apply sub_tokens_perm. unfold held, tokens. simpl.
    rewrite map_app. simpl. aac_reflexivity.
  - (* Add, pushed out *)
    intros pc seqnum s s1 r _ -> _ _ IH. rewrite push_aligned_eq in IH.
    eapply conserved_nil_r; [|exact IH].
    apply conserved_same; [reflexivity|].
    apply sub_tokens_perm. unfold held, tokens. simpl.
    rewrite map_app. simpl. aac_reflexivity.
  - (* ReAddSkipped, nothing *)
    intros s _. apply conserved_same; [reflexivity|].
    apply sub_tokens_perm. now rewrite app_nil_r.
  - (* ReAddSkipped, all *)
    intros s s1 r _ _ IL _ IN.
    eapply conserved_nil_r; [|exact IN].
    destruct (IL (Nat.le_0_l _)) as (new & Hc & S).
    exists new. split; [exact Hc|].
    eapply sub_tokens_trans; [exact S|].
    apply sub_tokens_perm. unfold held. simpl. aac_reflexivity.
  - (* loop, end *)
    intros idx s _ _. apply conserved_same; [reflexivity|].
    exists (tokens (skipn idx (m_scratch s))). reflexivity.
  - (* loop, one turn *)
    intros idx s ce s1 r Eg HA IA _ IL Hpre.
    destruct (proj1 sizes_post _ _ _ _ HA) as (A1 & A2 & _).
    specialize (IL ltac:(lia)).
    unfold Get in Eg. rewrite (skipn_nth_error _ _ _ Eg).
    change (tokens (ce :: skipn (S idx) (m_scratch s)))
      with ([m_pc ce] ++ tokens (skipn (S idx) (m_scratch s))).
    destruct A2 as [Ec | (Ec & _)].
    + rewrite Ec in IL. eapply conserved_trans; eauto.
    + rewrite skipn_all2 in IL by lia.
      eapply conserved_weaken.
      * eapply conserved_nil_r; eauto.
      * exists (tokens (skipn (S idx) (m_scratch s))). reflexivity.
  - (* NewLines, idle *)
    intros cnt s _. apply conserved_same; [reflexivity|].
    apply sub_tokens_perm. now rewrite app_nil_r.
  - (* NewLines, within the span *)
    intros cnt s s1 _ -> _. apply conserved_same; [reflexivity|].
    apply sub_tokens_perm. unfold held. simpl. now rewrite app_nil_r.
  - (* NewLines, expired *)
    intros cnt s s1 r _ -> _ _ IH.
    eapply conserved_nil_l; [|exact IH].
    apply conserved_same; [reflexivity|].
    apply sub_tokens_perm. unfold held. simpl. now rewrite app_nil_r.
  - (* Flush, nothing skipped *)
    intros s Ee. apply Empty_true in Ee.
    destruct (conserved_flushed s) as (new & Hc & S).
    exists new. split; [exact Hc|].
    eapply sub_tokens_trans; [|exact S].
    apply sub_tokens_perm. unfold held.
    cbn [m_aligned m_skipped set_skipped set_nl_seqnum].
    rewrite flushed_skipped, (newer_skipped_nil s Ee), Ee. reflexivity.
  - (* Flush, replay *)
    intros s r _ _ IH.
    eapply conserved_nil_l; [apply conserved_flushed|exact IH].
Qed.

(** ** Flush: the group, then the entries that survive *)

Lemma Add_each_mono n m l s r :
  Add_each n l s = Some r -> (n <= m)%nat -> Add_each m l s = Some r.
Proof.
  revert s. induction l as [|ce l IH]; intros s H Hnm; simpl in *; [exact H|].
  destruct (Add n (m_pc ce) (ChunkStack.m_seqnum ce) s) as [s1|] eqn:E;
    [|discriminate].
  rewrite (proj1 (fuel_mono n) _ _ _ _ E m Hnm). eauto.
Qed.

(* The loop of ReAddSkipped passes the entries of m_scratch to Add in
   order, from index idx on.  It stops before the last entry only when an
   Add has overwritten m_scratch with a shorter list. *)
Lemma ReAdd_loop_prefix idx s r :
  ReAdd_loop_to idx s r -> (nsk s <= idx)%nat ->
  exists n fuel,
    Add_each fuel (firstn n (skipn idx (m_scratch s))) s = Some r /\
    (n <= nsc s - idx)%nat /\
    (idx < nsc s -> 1 <= n)%nat /\
    (n < nsc s - idx -> nsc r < nsc s)%nat.
Proof.
  induction 1 as [idx s Eg | idx s ce s1 r Eg HA HL IH]; intros Hpre.
  - exists 0%nat, 0%nat. apply nth_error_None in Eg. simpl.
    repeat split; lia.
  - assert (Hidx : (idx < nsc s)%nat).
    { apply nth_error_Some. unfold Get in Eg. congruence. }
    destruct (proj1 sizes_post _ _ _ _ HA) as (A1 & A2 & _).
    destruct (IH ltac:(lia)) as (n' & f' & HE & B1 & B2 & B3).
    destruct (proj1 returns_complete _ _ _ _ HA) as [fa Hfa].
    unfold Get in Eg. rewrite (skipn_nth_error _ _ _ Eg).
    destruct A2 as [Ec | (Ec & Ek)].
    + exists (S n'), (Nat.max fa f'). rewrite Ec in *. split.
      * simpl.
        rewrite (proj1 (fuel_mono fa) _ _ _ _ Hfa (Nat.max fa f')) by lia.
        apply (Add_each_mono f'); [exact HE|lia].
      * repeat split; lia.
    + rewrite skipn_all2, firstn_nil in HE by lia.
      simpl in HE. injection HE as <-.
      exists 1%nat, fa. split.
      * simpl. now rewrite Hfa.
      * repeat split; lia.
Qed.

Lemma calls_skipped_out_of_reach :
  (forall pc seqnum s r, Add_to pc seqnum s r ->
     skipped_out_of_reach s -> skipped_out_of_reach r) /\
  (forall s r, ReAddSkipped_to s r -> skipped_out_of_reach r) /\
  (forall idx s r, ReAdd_loop_to idx s r ->
     skipped_out_of_reach s -> skipped_out_of_reach r) /\
  (forall cnt s r, NewLines_to cnt s r ->
     skipped_out_of_reach s -> skipped_out_of_reach r) /\
  (forall s r, Flush_to s r -> skipped_out_of_reach r).
Proof.
  unfold skipped_out_of_reach. apply calls_ind.
  - intros pc seqnum s Ew H ce Hin. simpl in Hin.
    apply in_app_or in Hin as [Hin|[<-|[]]].
    + apply (H ce Hin).
    + exact Ew.
  - intros pc seqnum s s1 _ -> _ H. rewrite push_aligned_eq. exact H.
  - intros pc seqnum s s1 r _ -> _ _ IH _. exact IH.
  - intros s Ee ce Hin. apply Empty_true in Ee. rewrite Ee in Hin.
    contradiction.
  - intros s s1 r _ _ IL _ IN. apply IN, IL. intros ce [].
  - auto.
  - intros idx s ce s1 r _ _ IA _ IL H. auto.
  - auto.
  - intros cnt s s1 _ -> _ H. exact H.
  - intros cnt s s1 r _ -> _ _ IH _. exact IH.
  - intros s Ee ce Hin. apply Empty_true in Ee.
    cbn [m_skipped set_nl_seqnum] in Hin.
    rewrite flushed_skipped, Ee in Hin. contradiction.
  - intros s r _ _ IH. exact IH.
Qed.

(* The replay that Flush starts when an entry of m_skipped survives: the
   first survivor is accepted by Add as the first token of a new group,
   the loop goes through a prefix of the survivors, NewLines(0) ends it *)
Lemma replay_of_survivors s r e l rest :
  newer_skipped s = e :: l ->
  ReAddSkipped_to (set_skipped (newer_skipped s) (flushed s)) r ->
  applier_calls r = applier_calls s ++ group_calls s ++ rest ->
  (exists n fuel s1,
     (1 <= n <= length (e :: l))%nat /\
     Add_each fuel (firstn n (e :: l)) (replay_start s) = Some s1 /\
     (n < length (e :: l) -> nsc s1 < length (e :: l))%nat /\
     NewLines fuel 0 s1 = Some r) /\
  (In (m_pc e) (tokens (m_aligned r)) \/ In (m_pc e) (map fst rest)).
Proof.
  intros Hn HR Hrest.
  destruct calls_history as (_ & _ & HL & HN & _).
  destruct (flushed_fields s) as (Fa & _ & _ & Fm & _ & _ & _ & _ & Fc).
  inversion HR as [? Ee | ? s3 ? Ee HLoop HNew]; subst.
  { cbn [m_skipped set_skipped] in Ee. rewrite Hn in Ee. discriminate. }
  change (set_skipped Reset
            (set_scratch (m_skipped (set_skipped (newer_skipped s) (flushed s)))
                         (set_skipped (newer_skipped s) (flushed s))))
    with (replay_start s) in HLoop.
  assert (Hsc : m_scratch (replay_start s) = e :: l) by exact Hn.
  split.
  - destruct (ReAdd_loop_prefix _ _ _ HLoop) as (n & f1 & HE & B1 & B2 & B3).
    { simpl. lia. }
    destruct (proj1 (proj2 (proj2 (proj2 returns_complete))) _ _ _ HNew)
      as [f2 Hf2].
    rewrite Hsc in *. simpl skipn in HE. rewrite Nat.sub_0_r in *.
    exists n, (Nat.max f1 f2), s3. split; [|split; [|split]].
    + split; [apply B2; simpl; lia|exact B1].
    + apply (Add_each_mono f1); [exact HE|lia].
    + exact B3.
    + apply (proj1 (proj2 (proj2 (proj2 (fuel_mono f2)))) _ _ _ Hf2). lia.
  - inversion HLoop as [? ? Eg | ? ? ce sB ? Eg HAdd HRest]; subst.
    { unfold Get in Eg. rewrite Hsc in Eg. discriminate. }
    unfold Get in Eg. rewrite Hsc in Eg. injection Eg as <-.
    set (seq := assign_seqnum (replay_start s) (ChunkStack.m_seqnum e)) in *.
    assert (HB : In (mkEntry seq (m_pc e)) (m_aligned sB) /\
                 applier_calls sB = applier_calls s ++ group_calls s).
    { inversion HAdd as [? ? ? Ew | ? ? ? ? Ew E1 Eg' | ? ? ? ? ? Ew E1 Eg' HRe];
        subst.
      - unfold within_thresh in Ew. cbn [m_max_col replay_start set_skipped
          set_scratch] in Ew. rewrite Fm in Ew. discriminate.
      - rewrite push_aligned_eq. unfold with_aligned, replay_start.
        cbn [m_aligned applier_calls set_skipped set_scratch].
        rewrite Fa, Fc. split; [now left|auto].
      - rewrite push_aligned_eq in HRe.
        apply ReAddSkipped_to_empty in HRe; [|reflexivity]. subst sB.
        unfold with_aligned, replay_start.
        cbn [m_aligned applier_calls set_skipped set_scratch set_max_col].
        rewrite Fa, Fc. split; [now left|auto]. }
    destruct HB as (Hin & HcB).
    destruct (history_grows_trans _ _ _ (HL _ _ _ HRest) (HN _ _ _ HNew))
      as (new & Hc & _ & K).
    rewrite HcB, Hrest, <- !app_assoc in Hc.
    apply app_inv_head in Hc. apply app_inv_head in Hc. subst new.
    destruct (K _ Hin) as [H|H]; [left|right; exact H].
    apply (in_map m_pc) in H. exact H.
Qed.

(** C2 (amended).  Flush returns.  With m_aligned = [e1; ...; en] and
    m_max_col = M it first calls the applier once per entry, e1 first and en
    last, entry e_i with the column M - len e_i; after this loop m_aligned is
    empty and m_max_col is 0.  When m_skipped is empty Flush returns there
    (with m_nl_seqnum synchronised).  Otherwise the entries of m_skipped
    that are older than e_n are removed and ReAddSkipped runs on those that
    survive.  When none survives, Flush returns with m_aligned empty,
    m_max_col = 0 and no further applier call.  When e :: l survive, they
    are replayed: the loop of ReAddSkipped starts with no group, so that e
    is accepted; it passes to Add the first n >= 1 survivors in order, all
    of them unless an Add of the replay has overwritten m_scratch with a
    shorter list, and NewLines(0) follows.  The first survivor seeds a new
    group: when Flush returns, its token is in m_aligned or has been passed
    to the applier after e_n, so that m_aligned is not empty unless the
    applier was called again.  No entry is left in m_skipped untested:
    every entry of m_skipped fails the threshold test of the state
    returned, and every token held or passed to the applier after e_n comes
    from a survivor. *)
Theorem Flush_applies_group_then_replays s :
  let calls := map (fun ce => (m_pc ce, m_max_col s - len (m_pc ce)))
                   (m_aligned s) in
  exists fuel r rest,
    Flush fuel s = Some r /\
    applier_calls (flushed s) = applier_calls s ++ calls /\
    m_aligned (flushed s) = [] /\ m_max_col (flushed s) = 0 /\
    applier_calls r = applier_calls s ++ calls ++ rest /\
    (m_skipped s = [] -> r = set_nl_seqnum (m_seqnum s) (flushed s)) /\
    (m_skipped s <> [] ->
       exists fuel', ReAddSkipped fuel'
                       (set_skipped (newer_skipped s) (flushed s)) = Some r) /\
    (newer_skipped s = [] ->
       m_aligned r = [] /\ m_max_col r = 0 /\ rest = []) /\
    (forall e l, newer_skipped s = e :: l ->
       accepted (replay_start s) (m_pc e) /\
       (exists n fuel' s1,
          (1 <= n <= length (e :: l))%nat /\
          Add_each fuel' (firstn n (e :: l)) (replay_start s) = Some s1 /\
          (n < length (e :: l) ->
           length (m_scratch s1) < length (e :: l))%nat /\
          NewLines fuel' 0 s1 = Some r) /\
       (In (m_pc e) (tokens (m_aligned r)) \/ In (m_pc e) (map fst rest)) /\
       (rest = [] -> m_aligned r <> [])) /\
    (forall ce, In ce (m_skipped r) -> ~ accepted r (m_pc ce)) /\
    sub_tokens (held r ++ map fst rest) (tokens (newer_skipped s)).
Proof.
  intros calls.
  destruct (Flush_total s) as [r Hr].
  destruct (proj2 (proj2 (proj2 (proj2 returns_complete))) _ _ Hr) as [fuel Hf].
  destruct (flushed_fields s) as (Ha & Hk & _ & Hm & _ & _ & Hs & _ & Hc).
  assert (Hrest : exists rest,
             applier_calls r = applier_calls s ++ calls ++ rest /\
             sub_tokens (held r ++ map fst rest) (tokens (newer_skipped s))).
  { inversion Hr as [? Ee | ? ? Ee HR]; subst.
    - exists []. cbn [applier_calls set_nl_seqnum].
      rewrite Hc, app_nil_r. split; [reflexivity|].
      apply Empty_true in Ee. unfold held.
      cbn [m_aligned m_skipped set_nl_seqnum]. rewrite Ha, Hk, Ee.
      apply sub_tokens_nil.
    - destruct (proj1 (proj2 calls_conserved) _ _ HR) as (rest & Hrest & S).
      exists rest. cbn [applier_calls set_skipped] in Hrest.
      rewrite Hc, <- app_assoc in Hrest. split; [exact Hrest|].
      unfold held at 2 in S. cbn [m_aligned m_skipped set_skipped] in S.
      rewrite Ha, app_nil_r in S. exact S. }
  destruct Hrest as (rest & Hrest & Hsub).
  exists fuel, r, rest.
  split; [exact Hf|]. split; [exact Hc|]. split; [exact Ha|].
  split; [exact Hm|]. split; [exact Hrest|].
  split; [|split; [|split; [|split; [|split]]]].
  - intros E. inversion Hr as [? Ee | ? ? Ee HR]; subst.
    + now rewrite Hs.
    + apply Empty_false in Ee. contradiction.
  - intros E. inversion Hr as [? Ee | ? ? Ee HR]; subst.
    + apply Empty_true in Ee. contradiction.
    + apply (proj1 (proj2 returns_complete)). exact HR.
  - intros E. destruct (Flush_to_no_newer _ _ Hr E) as (A1 & A2 & A3).
    split; [exact A1|]. split; [exact A2|].
    rewrite A3 in Hrest. apply app_inv_head in Hrest.
    change calls with (group_calls s) in Hrest.
    rewrite <- (app_nil_r (group_calls s)) in Hrest at 1.
    apply app_inv_head in Hrest. now subst.
  - intros e l E.
    assert (HR : ReAddSkipped_to (set_skipped (newer_skipped s) (flushed s)) r).
    { inversion Hr as [? Ee | ? ? Ee HR]; subst; [|exact HR].
      apply Empty_true in Ee. rewrite (newer_skipped_nil s Ee) in E.
      discriminate. }
    destruct (replay_of_survivors s r e l rest E HR Hrest) as (P1 & P2).
    split; [|split; [exact P1|split; [exact P2|]]].
    + left. exact Hm.
    + intros ->. destruct P2 as [H|[]].
      intros Ea. rewrite Ea in H. exact H.
  - intros ce Hin. apply within_thresh_false.
    apply (proj2 (proj2 (proj2 (proj2 calls_skipped_out_of_reach))) _ _ Hr).
    exact Hin.
  - exact Hsub.
Qed.

(** ** End *)

Lemma sub_tokens_drop A B C : sub_tokens (A ++ B) C -> sub_tokens B C.
Proof.
  intros [X HX]. exists (A ++ X). rewrite <- HX. aac_reflexivity.
Qed.

Lemma call_to_conserved c s r :
  call_to c s r -> conserved (added [c]) s r.
Proof.
  destruct calls_conserved as (KA & _ & _ & KN & KF).
  destruct c; simpl; intros H.
  - subst r. apply conserved_same; [reflexivity|]. apply sub_tokens_nil.
  - apply (KA _ _ _ _ H).
  - apply (KN _ _ _ H).
  - apply (KF _ _ H).
  - destruct H as (s1 & H & ->).
    assert (H1 : conserved [] s s1).
    { destruct (negb _); [apply (KF _ _ H)|].
      subst s1. apply conserved_same; [reflexivity|].
      apply sub_tokens_perm. now rewrite app_nil_r. }
    destruct H1 as (new & Hc & S). exists new. split; [exact Hc|].
    unfold held at 1. simpl. now apply sub_tokens_drop in S.
Qed.

Lemma added_cons c cs : added (c :: cs) = added [c] ++ added cs.
Proof. destruct c; reflexivity. Qed.

Lemma run_conserved fuel cs s r :
  run fuel cs s = Some r -> conserved (added cs) s r.
Proof.
  revert s. induction cs as [|c cs IH]; intros s H.
  - injection H as <-. apply conserved_same; [reflexivity|].
    apply sub_tokens_perm. now rewrite app_nil_r.
  - simpl in H. destruct (do_call fuel c s) as [s1|] eqn:E; [|discriminate].
    rewrite added_cons. eapply conserved_trans; [|apply IH; exact H].
    apply call_to_conserved. eapply do_call_sound; eauto.
Qed.

Lemma NoDup_app_disjoint {A} (l1 l2 : list A) x :
  NoDup (l1 ++ l2) -> In x l1 -> ~ In x l2.
Proof.
  induction l1 as [|y l1 IH]; simpl; intros H Hin; [contradiction|].
  inversion H as [|? ? Hy Hnd]; subst. destruct Hin as [-> | Hin].
  - intros H2. apply Hy. apply in_or_app. now right.
  - now apply IH.
Qed.

(** C9 (amended).  (1) In a session (Start, then any calls, then End)
    whose Add calls are given pairwise distinct tokens, every call returns,
    and a token that is in m_skipped when End resets the stacks has not
    been passed to the applier at any point of the session.  (2) The
    discard at End is not the only one: whatever the state, the tokens that
    the stacks hold when Flush returns, and those that Flush passes to the
    applier after the group, all come from entries of m_skipped that are
    not older than the last entry of the group; the older entries are
    dropped by Flush. *)
Theorem skipped_at_End_never_applied span thresh cs s0 s :
  (NoDup (added cs) ->
   exists fuel s1 s2 r new,
     run fuel (CStart span thresh :: cs) s0 = Some s1 /\
     End_flush fuel s1 = Some s2 /\
     End fuel s1 = Some r /\
     r = set_skipped Reset (set_aligned Reset s2) /\
     applier_calls r = applier_calls s0 ++ new /\
     forall ce, In ce (m_skipped s2) -> ~ In (m_pc ce) (map fst new)) /\
  (exists fuel r rest,
     Flush fuel s = Some r /\
     applier_calls r = applier_calls s ++ group_calls s ++ rest /\
     sub_tokens (held r ++ map fst rest) (tokens (newer_skipped s))).
Proof.
  split.
  - intros Hnd.
    destruct (run_total (CStart span thresh :: cs) s0) as (n1 & s1 & H1).
    destruct (do_call_total CEnd s1) as (n2 & r & H2). simpl in H2.
    set (fuel := Nat.max n1 n2).
    apply run_mono with (m := fuel) in H1; [|lia].
    apply (do_call_mono _ fuel CEnd) in H2; [|lia]. simpl in H2.
    pose proof H2 as H3. rewrite End_after_flush in H3.
    destruct (End_flush fuel s1) as [s2|] eqn:E2; [|discriminate].
    injection H3 as Hr.
    assert (K1 : conserved (added cs) (Start span thresh s0) s1).
    { simpl in H1. now apply run_conserved in H1. }
    assert (K2 : conserved [] s1 s2).
    { unfold End_flush in E2. destruct (negb _).
      - apply (proj2 (proj2 (proj2 (proj2 calls_conserved)))).
        apply (proj2 (proj2 (proj2 (proj2 (returns_sound fuel))))). exact E2.
      - injection E2 as <-. apply conserved_same; [reflexivity|].
        apply sub_tokens_perm. now rewrite app_nil_r. }
    destruct (conserved_nil_r _ _ _ _ K1 K2) as (new & Hc & S).
    exists fuel, s1, s2, r, new.
    repeat split; auto.
    + subst r. simpl. exact Hc.
    + intros ce Hin Happ.
      unfold held in S. simpl in S.
      apply sub_tokens_NoDup in S; [|exact Hnd].
      rewrite <- app_assoc in S. apply NoDup_app_remove_l in S.
      apply (NoDup_app_disjoint _ _ (m_pc ce) S); [|exact Happ].
      unfold tokens. now apply in_map.
  - destruct (Flush_total s) as [r Hr].
    destruct (proj2 (proj2 (proj2 (proj2 returns_complete))) _ _ Hr)
      as [fuel Hf].
    destruct (flushed_fields s) as (Fa & Fk & _ & _ & _ & _ & _ & _ & Fc).
    inversion Hr as [? Ee | ? ? Ee HR]; subst.
    + exists fuel, (set_nl_seqnum (m_seqnum (flushed s)) (flushed s)), [].
      split; [exact Hf|].
      cbn [applier_calls set_nl_seqnum]. rewrite Fc, app_nil_r.
      split; [reflexivity|].
      apply Empty_true in Ee. unfold held.
      cbn [m_aligned m_skipped set_nl_seqnum]. rewrite Fa, Fk, Ee.
      apply sub_tokens_nil.
    + destruct (proj1 (proj2 calls_conserved) _ _ HR) as (rest & Hc & S).
      exists fuel, r, rest. split; [exact Hf|].
      cbn [applier_calls set_skipped] in Hc. rewrite Fc, <- app_assoc in Hc.
      split; [exact Hc|].
      unfold held at 2 in S. cbn [m_aligned m_skipped set_skipped] in S.
      rewrite Fa, app_nil_r in S. exact S.
Qed.

Lemma history_grows_still s r :
  history_grows s r -> applier_calls r = applier_calls s ->
  exists l, m_aligned r = m_aligned s ++ l.
Proof.
  intros (new & Hc & G & _) E. apply G.
  rewrite E in Hc. rewrite <- (app_nil_r (applier_calls s)) in Hc at 1.
  now apply app_inv_head in Hc.
Qed.

Lemma history_grows_between s1 s2 s3 :
  history_grows s1 s2 -> history_grows s2 s3 ->
  applier_calls s3 = applier_calls s1 ->
  applier_calls s2 = applier_calls s1.
Proof.
  intros (n1 & H1 & _) (n2 & H2 & _) E.
  rewrite H2, H1, <- app_assoc in E.
  rewrite <- (app_nil_r (applier_calls s1)) in E at 2.
  apply app_inv_head in E. apply app_eq_nil in E as (-> & _).
  now rewrite H1, app_nil_r.
Qed.

(* A replay that starts without a group and does not reach the applier
   leaves a group behind *)
Lemma ReAddSkipped_seeds_group s r :
  ReAddSkipped_to s r ->
  m_max_col s = 0 -> m_skipped s <> [] ->
  applier_calls r = applier_calls s ->
  m_aligned r <> [].
Proof.
  destruct calls_history as (HA & HR & HL & HN & _).
  intros H Hm Hk Hc.
  inversion H as [? Ee | ? sA ? Ee HLoop HNew]; subst.
  { apply Empty_true in Ee. contradiction. }
  set (sX := set_skipped Reset (set_scratch (m_skipped s) s)) in *.
  assert (EX : applier_calls sX = applier_calls s) by reflexivity.
  rewrite <- EX in Hc.
  pose proof (history_grows_between _ _ _ (HL _ _ _ HLoop) (HN _ _ _ HNew) Hc)
    as EA.
  assert (Hne : m_aligned sA <> []).
  { inversion HLoop as [? ? Eg | ? ? ce sB ? Eg HAdd HRest]; subst.
    { unfold Get in Eg. apply nth_error_None in Eg. simpl in Eg.
      destruct (m_skipped s); [congruence|simpl in Eg; lia]. }
    pose proof (history_grows_between _ _ _ (HA _ _ _ _ HAdd) (HL _ _ _ HRest) EA)
      as EB.
    assert (HB : m_aligned sB <> []).
    { inversion HAdd as [? ? ? Ew | ? ? ? ? Ew E1 Eg' | ? ? ? ? ? Ew E1 Eg' HRe];
        subst.
      - unfold within_thresh in Ew. simpl in Ew. rewrite Hm in Ew. discriminate.
      - rewrite push_aligned_eq. simpl. intros E.
        now apply app_eq_nil in E as (_ & E).
      - rewrite push_aligned_eq in *.
        destruct (history_grows_still _ _ (HR _ _ HRe)) as [l Hl].
        { rewrite EB. reflexivity. }
        rewrite Hl. simpl. intros E.
        apply app_eq_nil in E as (E & _).
        now apply app_eq_nil in E as (_ & E). }
    destruct (history_grows_still _ _ (HL _ _ _ HRest)) as [l Hl].
    { now rewrite EA, EB. }
    rewrite Hl. intros E. now apply app_eq_nil in E as (E & _). }
  destruct (history_grows_still _ _ (HN _ _ _ HNew)) as [l Hl].
  { now rewrite Hc, EA. }
  rewrite Hl. intros E. now apply app_eq_nil in E as (E & _).
Qed.

(** C10.  When End is called with tokens in m_aligned and entries in
    m_skipped, the Flush it makes aligns the group and replays the entries
    of m_skipped that survive.  If that replay does not flush a second time
    (the applier history is that of the first group only), it leaves the
    survivors it re-admitted in m_aligned (a new group, not empty when an
    entry survives); End then resets both stacks without another applier
    call, so these tokens are dropped from m_aligned without reaching the
    applier. *)
Theorem End_drops_readmitted_group s :
  m_aligned s <> [] ->
  m_skipped s <> [] ->
  exists fuel s1 r,
    Flush fuel s = Some s1 /\
    ReAddSkipped fuel (set_skipped (newer_skipped s) (flushed s)) = Some s1 /\
    End fuel s = Some r /\
    r = set_skipped Reset (set_aligned Reset s1) /\
    (applier_calls s1 = applier_calls s ++ group_calls s ->
       (newer_skipped s <> [] -> m_aligned s1 <> []) /\
       (forall ce, In ce (m_aligned s1) ->
          In (m_pc ce) (tokens (newer_skipped s))) /\
       m_aligned r = [] /\
       applier_calls r = applier_calls s ++ group_calls s).
Proof.
  intros Ha Hk.
  destruct (ReAddSkipped_total (set_skipped (newer_skipped s) (flushed s)))
    as [s1 HR].
  destruct (proj1 (proj2 returns_complete) _ _ HR) as [fuel Hf].
  assert (HF : Flush (S fuel) s = Some s1).
  { rewrite Flush_S, flushed_skipped.
    apply Empty_false in Hk. now rewrite Hk. }
  exists (S fuel), s1, (set_skipped Reset (set_aligned Reset s1)).
  split; [exact HF|]. split.
  { apply (proj1 (proj2 (fuel_mono fuel)) _ _ Hf). lia. }
  split.
  { unfold End. apply Empty_false in Ha. rewrite Ha. simpl negb. cbv iota.
    now rewrite HF. }
  split; [reflexivity|].
  intros Hc.
  destruct (flushed_fields s) as (Fa & _ & _ & Fm & _ & _ & _ & _ & Fc).
  split; [|split; [|split]].
  - intros Hn. apply (ReAddSkipped_seeds_group _ _ HR); auto.
    cbn [applier_calls set_skipped]. now rewrite Fc.
  - intros ce Hin.
    destruct (proj1 (proj2 calls_conserved) _ _ HR) as (new & _ & S).
    unfold held in S. cbn [m_aligned m_skipped set_skipped] in S.
    rewrite Fa, app_nil_r in S. simpl in S.
    apply (sub_tokens_In _ _ (m_pc ce) S).
    apply in_or_app. left. apply in_or_app. left.
    unfold tokens. now apply in_map.
  - reflexivity.
  - exact Hc.
Qed.

(** * Further properties of the calls *)

(** ** Every call returns *)

(** X1.  Add, NewLines, Flush, ReAddSkipped and End call each other through
    Flush -> ReAddSkipped -> Add / NewLines -> Flush.  Whatever the state
    (also one that no session reaches), each of them returns, and so does
    every sequence of calls. *)
Theorem every_call_returns s :
  (forall pc seqnum, exists fuel r, Add fuel pc seqnum s = Some r) /\
  (forall cnt, exists fuel r, NewLines fuel cnt s = Some r) /\
  (exists fuel r, Flush fuel s = Some r) /\
  (exists fuel r, ReAddSkipped fuel s = Some r) /\
  (exists fuel r, End fuel s = Some r) /\
  (forall cs, exists fuel r, run fuel cs s = Some r).
Proof.
  destruct returns_iff as (RA & RR & RN & RF & RE).
  split; [|split; [|split; [|split; [|split]]]].
  - intros pc seqnum. destruct (Add_total pc seqnum s) as [r H].
    apply RA in H as [n H]. eauto.
  - intros cnt. destruct (NewLines_total cnt s) as [r H].
    apply RN in H as [n H]. eauto.
  - destruct (Flush_total s) as [r H]. apply RF in H as [n H]. eauto.
  - destruct (ReAddSkipped_total s) as [r H]. apply RR in H as [n H]. eauto.
  - destruct (End_total s) as [r H]. apply RE in H as [n H]. eauto.
  - intros cs. apply run_total.
Qed.

(** ** The alignment column and the trailing edges *)

Lemma calls_ends_within :
  (forall pc seqnum s r, Add_to pc seqnum s r -> ends_within s -> ends_within r) /\
  (forall s r, ReAddSkipped_to s r -> ends_within s -> ends_within r) /\
  (forall idx s r, ReAdd_loop_to idx s r -> ends_within s -> ends_within r) /\
  (forall cnt s r, NewLines_to cnt s r -> ends_within s -> ends_within r) /\
  (forall s r, Flush_to s r -> ends_within s -> ends_within r).
Proof.
  unfold ends_within. apply calls_ind.
  - intros pc seqnum s _ H. exact H.
  - intros pc seqnum s s1 _ -> Eg (H0 & H). rewrite push_aligned_eq in *.
    simpl in *. rewrite Z.gtb_ltb in Eg. apply Z.ltb_ge in Eg.
    split; [exact H0|]. intros ce Hin. apply in_app_or in Hin as [Hin|[<-|[]]].
    + now apply H.
    + exact Eg.
  - intros pc seqnum s s1 r _ -> Eg _ IH (H0 & H). apply IH.
    rewrite push_aligned_eq in *. simpl in *.
    rewrite Z.gtb_ltb in Eg. apply Z.ltb_lt in Eg.
    split; [lia|]. intros ce Hin. apply in_app_or in Hin as [Hin|[<-|[]]].
    + specialize (H ce Hin). lia.
    + simpl. lia.
  - auto.
  - intros s s1 r _ _ IL _ IN H. apply IN, IL. exact H.
  - auto.
  - intros idx s ce s1 r _ _ IA _ IL H. auto.
  - auto.
  - intros cnt s s1 _ -> _ H. exact H.
  - intros cnt s s1 r _ -> _ _ IH H. apply IH. exact H.
  - intros s _ _. destruct (flushed_fields s) as (Fa & _ & _ & Fm & _).
    cbn [m_max_col m_aligned document set_nl_seqnum]. rewrite Fa, Fm.
    split; [lia|]. intros ce [].
  - intros s r _ _ IH _. apply IH.
    destruct (flushed_fields s) as (Fa & _ & _ & Fm & _).
    cbn [m_max_col m_aligned document set_skipped]. rewrite Fa, Fm.
    split; [lia|]. intros ce [].
Qed.

Lemma call_to_ends_within c s r :
  call_to c s r -> ends_within s -> ends_within r.
Proof.
  destruct calls_ends_within as (EA & _ & _ & EN & EF).
  destruct c; simpl; intros H Hs.
  - subst r. split; simpl; [lia|]. intros ce [].
  - apply (EA _ _ _ _ H Hs).
  - apply (EN _ _ _ H Hs).
  - apply (EF _ _ H Hs).
  - destruct H as (s1 & H & ->).
    assert (H1 : ends_within s1).
    { destruct (negb _); [apply (EF _ _ H Hs)|now subst]. }
    split; simpl; [apply H1|]. intros ce [].
Qed.

Lemma run_ends_within fuel cs s r :
  run fuel cs s = Some r -> ends_within s -> ends_within r.
Proof.
  revert s. induction cs as [|c cs IH]; intros s Hr Hi; simpl in Hr.
  - now injection Hr as <-.
  - destruct (do_call fuel c s) as [s1|] eqn:E; [|discriminate].
    apply (IH s1 Hr).
    apply (call_to_ends_within c s s1 (do_call_sound _ _ _ _ E) Hi).
Qed.

Lemma Start_ends_within span thresh s : ends_within (Start span thresh s).
Proof. split; simpl; [lia|]. intros ce []. Qed.

(** X2.  In a session (Start, then any calls) m_max_col is never negative and
    no token of m_aligned ends right of it (column + len <= m_max_col).
    So the column m_max_col - len that Flush passes to the applier for a
    token of the group is never left of the column the token has when
    Flush is called. *)
Theorem target_column_never_left_of_token span thresh cs s0 :
  exists fuel r,
    run fuel (CStart span thresh :: cs) s0 = Some r /\
    0 <= m_max_col r /\
    (forall ce, In ce (m_aligned r) ->
       column (document r) (m_pc ce) + len (m_pc ce) <= m_max_col r) /\
    (forall pc col, In (pc, col) (group_calls r) ->
       column (document r) pc <= col).
Proof.
  destruct (run_total (CStart span thresh :: cs) s0) as (fuel & r & Hr).
  exists fuel, r. split; [exact Hr|].
  destruct (run_ends_within fuel cs _ r Hr (Start_ends_within span thresh s0))
    as (H0 & H).
  split; [exact H0|]. split; [exact H|].
  intros pc col Hin. unfold group_calls in Hin.
  apply in_map_iff in Hin as (ce & E & Hin). injection E as <- <-.
  specialize (H ce Hin). lia.
Qed.

Lemma flushed_edge_ok s :
  applier_keeps_positive_ends ->
  positive_ends (document s) -> edge_ok (flushed s).
Proof.
  intros Happ Hp. destruct (flushed_group_ok s Happ Hp) as (Hd & _).
  destruct (flushed_fields s) as (Fa & _ & _ & Fm & _).
  split; [exact Hd|]. split; [intros _; exact Fm|].
  intros H. now contradiction H.
Qed.

Lemma calls_edge_ok :
  applier_keeps_positive_ends ->
  (forall pc seqnum s r, Add_to pc seqnum s r -> edge_ok s -> edge_ok r) /\
  (forall s r, ReAddSkipped_to s r -> edge_ok s -> edge_ok r) /\
  (forall idx s r, ReAdd_loop_to idx s r -> edge_ok s -> edge_ok r) /\
  (forall cnt s r, NewLines_to cnt s r -> edge_ok s -> edge_ok r) /\
  (forall s r, Flush_to s r -> edge_ok s -> edge_ok r).
Proof.
  intros Happ. unfold edge_ok, edge_attained. apply calls_ind.
  - intros pc seqnum s _ H. exact H.
  - intros pc seqnum s s1 _ -> Eg (Hp & H0 & H1). rewrite push_aligned_eq in *.
    simpl in *. rewrite Z.gtb_ltb in Eg. apply Z.ltb_ge in Eg.
    split; [exact Hp|]. split.
    + intros E. now apply app_eq_nil in E as (_ & E).
    + intros _. destruct (m_aligned s) as [|c0 l] eqn:Ea.
      * specialize (H0 eq_refl). specialize (Hp pc). lia.
      * destruct H1 as (ce & Hin & Hce); [discriminate|].
        exists ce. split; [|exact Hce]. apply in_or_app. now left.
  - intros pc seqnum s s1 r _ -> Eg _ IH (Hp & H0 & H1). apply IH.
    rewrite push_aligned_eq in *. simpl in *.
    split; [exact Hp|]. split.
    + intros E. now apply app_eq_nil in E as (_ & E).
    + intros _. exists (mkEntry (assign_seqnum s seqnum) pc).
      split; [|reflexivity]. apply in_or_app. right. now left.
  - auto.
  - intros s s1 r _ _ IL _ IN H. apply IN, IL. exact H.
  - auto.
  - intros idx s ce s1 r _ _ IA _ IL H. auto.
  - auto.
  - intros cnt s s1 _ -> _ H. exact H.
  - intros cnt s s1 r _ -> _ _ IH H. apply IH. exact H.
  - intros s _ (Hp & _). apply (flushed_edge_ok s Happ Hp).
  - intros s r _ _ IH (Hp & _). apply IH. apply (flushed_edge_ok s Happ Hp).
Qed.

(** X3.  With tokens that end right of column 0 (and an applier that keeps it
    so), in a session without End: while m_aligned holds a group,
    m_max_col is the trailing edge of one of its tokens, and without a
    group it is 0.  With the previous theorem m_max_col is the right-most
    trailing edge of the group. *)
Theorem max_col_is_rightmost_edge span thresh cs s0 :
  applier_keeps_positive_ends ->
  positive_ends (document s0) ->
  no_CEnd cs ->
  exists fuel r,
    run fuel (CStart span thresh :: cs) s0 = Some r /\
    (m_aligned r = [] -> m_max_col r = 0) /\
    (m_aligned r <> [] ->
     exists ce, In ce (m_aligned r) /\
       column (document r) (m_pc ce) + len (m_pc ce) = m_max_col r /\
       forall ce', In ce' (m_aligned r) ->
         column (document r) (m_pc ce') + len (m_pc ce')
         <= column (document r) (m_pc ce) + len (m_pc ce)).
Proof.
  intros Happ Hp Hcs.
  destruct (run_total (CStart span thresh :: cs) s0) as (fuel & r & Hr).
  destruct (run_ends_within fuel cs _ r Hr (Start_ends_within span thresh s0))
    as (_ & Hw).
  exists fuel, r. split; [exact Hr|].
  assert (H : edge_ok r).
  { destruct (calls_edge_ok Happ) as (EA & _ & _ & EN & EF).
    simpl in Hr.
    assert (Hi : edge_ok (Start span thresh s0)).
    { split; [exact Hp|]. split; simpl; [reflexivity|].
      intros H. now contradiction H. }
    revert Hr Hi. generalize (Start span thresh s0). clear Hw.
    induction Hcs as [|c cs Hc _ IH]; intros s Hr Hi; simpl in Hr.
    - now injection Hr as <-.
    - destruct (do_call fuel c s) as [s1|] eqn:E; [|discriminate].
      apply (IH s1 Hr). apply do_call_sound in E.
      destruct c; simpl in E.
      + subst s1. split; [apply Hi|]. split; simpl; [reflexivity|].
        intros H. now contradiction H.
      + apply (EA _ _ _ _ E Hi).
      + apply (EN _ _ _ E Hi).
      + apply (EF _ _ E Hi).
      + contradiction. }
  destruct H as (_ & H0 & H1). split; [exact H0|].
  intros Hne. destruct (H1 Hne) as (ce & Hin & Hce).
  exists ce. split; [exact Hin|]. split; [exact Hce|].
  intros ce' Hin'. rewrite Hce. now apply Hw.
Qed.

(** ** The applier is called on added tokens only *)

Lemma sub_tokens_length A B : sub_tokens A B -> (length A <= length B)%nat.
Proof.
  intros [X HX]. apply Permutation_length in HX.
  rewrite length_app in HX. lia.
Qed.

(** X4.  In a session (Start, then any calls) the tokens passed to the applier,
    together with those still in the stacks, are among the tokens passed
    to Add, counted with multiplicity: the applier is called on added
    tokens only, at most once per Add call of a token, so never twice on a
    token that is added once, and at most as often as Add was called. *)
Theorem applier_called_on_added_tokens_only span thresh cs s0 :
  exists fuel r new,
    run fuel (CStart span thresh :: cs) s0 = Some r /\
    applier_calls r = applier_calls s0 ++ new /\
    sub_tokens (held r ++ map fst new) (added cs) /\
    (forall pc, In pc (map fst new) -> In pc (added cs)) /\
    (NoDup (added cs) -> NoDup (map fst new)) /\
    (length new <= length (added cs))%nat.
Proof.
  destruct (run_total (CStart span thresh :: cs) s0) as (fuel & r & Hr).
  pose proof Hr as Hc. simpl in Hc. apply run_conserved in Hc.
  destruct Hc as (new & Hc & S). unfold held at 2 in S. simpl in S.
  exists fuel, r, new. split; [exact Hr|]. split; [exact Hc|].
  split; [exact S|].
  pose proof (sub_tokens_drop _ _ _ S) as S'.
  split; [|split].
  - intros pc Hin. apply (sub_tokens_In _ _ pc S' Hin).
  - intros Hnd. apply (sub_tokens_NoDup _ _ S' Hnd).
  - apply sub_tokens_length in S'. now rewrite length_map in S'.
Qed.

(** ** Sessions with the threshold test off *)

Lemma calls_all_accepted :
  (forall pc seqnum s r, Add_to pc seqnum s r ->
     all_accepted s -> all_accepted r /\ aligned_in_order [pc] s r) /\
  (forall s r, ReAddSkipped_to s r -> all_accepted s -> r = s) /\
  (forall (idx : nat) s r, ReAdd_loop_to idx s r -> True) /\
  (forall (cnt : Z) s r, NewLines_to cnt s r ->
     all_accepted s -> all_accepted r /\ aligned_in_order [] s r) /\
  (forall s r, Flush_to s r ->
     all_accepted s ->
     all_accepted r /\ aligned_in_order [] s r /\ m_aligned r = []).
Proof.
  unfold all_accepted, aligned_in_order. apply calls_ind.
  - intros pc seqnum s Ew (Ht & _).
    unfold within_thresh in Ew. rewrite Ht in Ew. simpl in Ew.
    rewrite orb_true_r in Ew. discriminate.
  - intros pc seqnum s s1 _ -> _ (Ht & Hk). rewrite push_aligned_eq. simpl.
    split; [auto|]. exists []. rewrite app_nil_r. split; [reflexivity|].
    unfold tokens. now rewrite map_app.
  - intros pc seqnum s s1 r _ -> _ _ IH (Ht & Hk).
    rewrite push_aligned_eq in IH. rewrite (IH (conj Ht Hk)). simpl.
    split; [auto|]. exists []. rewrite app_nil_r. split; [reflexivity|].
    unfold tokens. now rewrite map_app.
  - auto.
  - intros s s1 r Ee _ _ _ _ (_ & Hk). rewrite Hk in Ee. discriminate.
  - auto.
  - auto.
  - intros cnt s _ H. split; [exact H|]. exists [].
    now rewrite !app_nil_r.
  - intros cnt s s1 _ -> _ H. split; [exact H|]. exists [].
    now rewrite !app_nil_r.
  - intros cnt s s1 r _ -> _ _ IH H. destruct (IH H) as (A & B & _).
    split; [exact A|exact B].
  - intros s _ (Ht & Hk).
    destruct (flushed_fields s) as (Fa & Fk & _ & _ & _ & Ft & _ & _ & Fc).
    cbn [m_thresh m_skipped m_aligned applier_calls set_nl_seqnum].
    rewrite Ft, Fk, Fa. split; [auto|]. split; [|reflexivity].
    exists (group_calls s). split; [exact Fc|].
    unfold group_calls, tokens. rewrite map_map. simpl.
    now rewrite !app_nil_r.
  - intros s r Ee _ _ (_ & Hk). rewrite Hk in Ee. discriminate.
Qed.

Lemma aligned_in_order_trans X Y s1 s2 s3 :
  aligned_in_order X s1 s2 -> aligned_in_order Y s2 s3 ->
  aligned_in_order (X ++ Y) s1 s3.
Proof.
  intros (n1 & H1 & E1) (n2 & H2 & E2). exists (n1 ++ n2).
  rewrite H2, H1, app_assoc. split; [reflexivity|].
  rewrite map_app, <- app_assoc, E2, !app_assoc, E1. reflexivity.
Qed.

Lemma call_to_all_accepted c s r :
  match c with CStart _ _ => False | _ => True end ->
  call_to c s r -> all_accepted s ->
  all_accepted r /\ aligned_in_order (added [c]) s r /\
  (c = CEnd -> m_aligned r = []).
Proof.
  destruct calls_all_accepted as (TA & _ & _ & TN & TF).
  destruct c; simpl; intros Hc H Hs; try contradiction.
  - destruct (TA _ _ _ _ H Hs) as (A & B).
    split; [exact A|]. split; [exact B|]. discriminate.
  - destruct (TN _ _ _ H Hs) as (A & B).
    split; [exact A|]. split; [exact B|]. discriminate.
  - destruct (TF _ _ H Hs) as (A & B & _).
    split; [exact A|]. split; [exact B|]. discriminate.
  - destruct H as (s1 & H & ->).
    assert (H1 : all_accepted s1 /\ aligned_in_order [] s s1 /\ m_aligned s1 = []).
    { destruct (Empty (m_aligned s)) eqn:Ee; simpl in H.
      - subst s1. apply Empty_true in Ee. split; [exact Hs|]. split; [|exact Ee].
        exists []. now rewrite !app_nil_r.
      - apply (TF _ _ H Hs). }
    destruct H1 as ((Ht & Hk) & (new & Hn & E) & Ha).
    split; [split; simpl; auto|]. split; [|reflexivity].
    exists new. simpl. split; [exact Hn|]. now rewrite Ha in E.
Qed.

Lemma run_all_accepted fuel cs s r :
  no_CStart cs -> run fuel cs s = Some r -> all_accepted s ->
  all_accepted r /\ aligned_in_order (added cs) s r.
Proof.
  intros Hcs. revert s.
  induction Hcs as [|c cs Hc _ IH]; intros s Hr Hs; simpl in Hr.
  - injection Hr as <-. split; [exact Hs|]. exists [].
    now rewrite !app_nil_r.
  - destruct (do_call fuel c s) as [s1|] eqn:E; [|discriminate].
    destruct (call_to_all_accepted c s s1 Hc (do_call_sound _ _ _ _ E) Hs)
      as (H1 & O1 & _).
    destruct (IH s1 Hr H1) as (H2 & O2). split; [exact H2|].
    rewrite added_cons. eapply aligned_in_order_trans; eauto.
Qed.

(** X5.  A session with threshold 0 (Start(span, 0), then Add, NewLines, Flush
    and End calls): no token is ever skipped, that is, after each call of
    the session m_skipped is empty, the test of Add accepts every token,
    and the tokens added so far are those passed to the applier followed
    by those of m_aligned, in the order of the Add calls.  When the
    session is closed by End, the applier has been called exactly once for
    each Add call, in the order of the Add calls. *)
Theorem threshold_zero_aligns_every_token span cs s0 :
  no_CStart cs ->
  (forall cs1 cs2, cs = cs1 ++ cs2 ->
     exists fuel s1 new1,
       run fuel (CStart span 0 :: cs1) s0 = Some s1 /\
       m_skipped s1 = [] /\
       (forall pc, accepted s1 pc) /\
       applier_calls s1 = applier_calls s0 ++ new1 /\
       map fst new1 ++ tokens (m_aligned s1) = added cs1) /\
  exists fuel r new,
    run fuel (CStart span 0 :: cs ++ [CEnd]) s0 = Some r /\
    applier_calls r = applier_calls s0 ++ new /\
    map fst new = added cs /\
    m_skipped r = [].
Proof.
  intros Hcs.
  assert (H0 : all_accepted (Start span 0 s0)) by (split; reflexivity).
  split.
  - intros cs1 cs2 ->. apply Forall_app in Hcs as (Hcs1 & _).
    destruct (run_total (CStart span 0 :: cs1) s0) as (fuel & s1 & Hr).
    pose proof Hr as Hr'. simpl in Hr'.
    destruct (run_all_accepted fuel cs1 _ s1 Hcs1 Hr' H0)
      as ((Ht & Hk) & (new1 & Hn & E)).
    exists fuel, s1, new1. split; [exact Hr|]. split; [exact Hk|].
    split; [intros pc; right; left; exact Ht|].
    split; [exact Hn|]. exact E.
  - destruct (run_total (CStart span 0 :: cs ++ [CEnd]) s0) as (fuel & r & Hr).
    pose proof Hr as Hr'. simpl in Hr'. rewrite run_app in Hr'.
    destruct (run fuel cs (Start span 0 s0)) as [s1|] eqn:E1; [|discriminate].
    simpl in Hr'.
    destruct (End fuel s1) as [r'|] eqn:E2; [|discriminate].
    injection Hr' as ->.
    destruct (run_all_accepted fuel cs _ s1 Hcs E1 H0) as (H1 & O1).
    assert (E2' : do_call fuel CEnd s1 = Some r) by exact E2.
    destruct (call_to_all_accepted CEnd s1 r I (do_call_sound _ _ _ _ E2') H1)
      as ((_ & Hk) & O2 & Ha).
    destruct (aligned_in_order_trans _ _ _ _ _ O1 O2) as (new & Hn & E).
    exists fuel, r, new. split; [exact Hr|]. split; [exact Hn|].
    split; [|exact Hk].
    rewrite (Ha eq_refl) in E. simpl in E. now rewrite !app_nil_r in E.
Qed.

(** ** Accepted tokens are not lost before End *)

Lemma run_history fuel cs s r :
  no_CStart cs -> no_CEnd cs -> run fuel cs s = Some r -> history_grows s r.
Proof.
  destruct calls_history as (HA & _ & _ & HN & HF).
  intros Hs He. revert s.
  induction cs as [|c cs IH]; intros s Hr; simpl in Hr.
  - injection Hr as <-. apply history_grows_refl.
  - destruct (do_call fuel c s) as [s1|] eqn:E; [|discriminate].
    inversion Hs as [|? ? Hs1 Hs2]; inversion He as [|? ? He1 He2]; subst.
    eapply history_grows_trans; [|apply (IH Hs2 He2 s1 Hr)].
    apply do_call_sound in E. destruct c; simpl in E; try contradiction.
    + apply (HA _ _ _ _ E).
    + apply (HN _ _ _ E).
    + apply (HF _ _ E).
Qed.

(** X6.  Across any sequence of Add, NewLines and Flush calls, the applier
    history only grows, and an entry that was in m_aligned is still in
    m_aligned afterwards or its token has been passed to the applier: a
    token that was accepted is not dropped by these calls. *)
Theorem accepted_token_kept_or_applied cs s :
  no_CStart cs -> no_CEnd cs ->
  exists fuel r new,
    run fuel cs s = Some r /\
    applier_calls r = applier_calls s ++ new /\
    forall ce, In ce (m_aligned s) ->
      In ce (m_aligned r) \/ In (m_pc ce) (map fst new).
Proof.
  intros Hs He.
  destruct (run_total cs s) as (fuel & r & Hr).
  destruct (run_history fuel cs s r Hs He Hr) as (new & Hc & _ & K).
  exists fuel, r, new. auto.
Qed.

(** ** The settings of a session *)

(** X7.  The span and the threshold given to Start stay in force for the whole
    session: no Add, NewLines, Flush or End call changes m_span or
    m_thresh. *)
Theorem settings_fixed_by_Start span thresh cs s0 :
  no_CStart cs ->
  exists fuel r,
    run fuel (CStart span thresh :: cs) s0 = Some r /\
    m_span r = span /\ m_thresh r = thresh.
Proof.
  intros Hcs.
  destruct (run_total (CStart span thresh :: cs) s0) as (fuel & r & Hr).
  exists fuel, r. split; [exact Hr|]. simpl in Hr.
  assert (H0 : same_settings (Start span thresh s0) (Start span thresh s0))
    by (split; reflexivity).
  assert (H : same_settings (Start span thresh s0) r).
  { destruct calls_frame as (FA & _ & _ & FN & FF).
    revert Hr H0. generalize (Start span thresh s0) at 1 3.
    induction Hcs as [|c cs Hc _ IH]; intros s Hr Hi; simpl in Hr.
    - now injection Hr as <-.
    - destruct (do_call fuel c s) as [s1|] eqn:E; [|discriminate].
      apply (IH s1 Hr). apply do_call_sound in E.
      destruct Hi as (Hi1 & Hi2). unfold same_settings.
      destruct c; simpl in E; try contradiction.
      + destruct (FA _ _ _ _ E) as (_ & -> & ->). auto.
      + destruct (FN _ _ _ E) as (_ & -> & ->). auto.
      + destruct (FF _ _ E) as (_ & -> & ->). auto.
      + destruct E as (s1' & E & ->). simpl.
        destruct (negb _); [|subst; auto].
        destruct (FF _ _ E) as (_ & -> & ->). auto. }
  exact H.
Qed.

(** ** Newline counts add up until a flush *)

(** X8.  NewLines(a) followed by NewLines(b) is NewLines(a + b), as long as the
    first call does not flush (m_aligned is empty, or the new m_seqnum is
    within the span). *)
Theorem NewLines_counts_add_up fuel a b s :
  m_aligned s = [] \/ m_seqnum s + a <= m_nl_seqnum s + m_span s ->
  match NewLines (S fuel) a s with
  | Some s1 => NewLines (S fuel) b s1
  | None => None
  end = NewLines (S fuel) (a + b) s.
Proof.
  intros H. rewrite !NewLines_S.
  destruct (Empty (m_aligned s)) eqn:Ee; simpl negb; cbv iota.
  - rewrite NewLines_S, Ee. reflexivity.
  - destruct H as [H|H]; [apply Empty_false in Ee; contradiction|].
    cbv zeta. simpl m_seqnum at 1. simpl m_nl_seqnum at 1. simpl m_span at 1.
    assert (Eg : (m_seqnum s + a >? m_nl_seqnum s + m_span s) = false).
    { rewrite Z.gtb_ltb. apply Z.ltb_ge. exact H. }
    rewrite Eg. rewrite NewLines_S. simpl m_aligned. rewrite Ee.
    simpl negb. cbv iota zeta.
    replace (set_seqnum (m_seqnum (set_seqnum (m_seqnum s + a) s) + b)
                        (set_seqnum (m_seqnum s + a) s))
      with (set_seqnum (m_seqnum s + (a + b)) s).
    + reflexivity.
    + unfold set_seqnum. simpl. f_equal. lia.
Qed.

(** ** A pending group is within its span *)

Lemma calls_within_span :
  (forall pc seqnum s r, Add_to pc seqnum s r ->
     within_span s ->
     m_seqnum s <= Z.max (m_nl_seqnum s) (assign_seqnum s seqnum) + m_span s ->
     within_span r) /\
  (forall s r, ReAddSkipped_to s r -> within_span s -> within_span r) /\
  (forall (idx : nat) s r, ReAdd_loop_to idx s r -> True) /\
  (forall (cnt : Z) s r, NewLines_to cnt s r -> within_span r) /\
  (forall s r, Flush_to s r -> within_span r).
Proof.
  unfold within_span. apply calls_ind.
  - intros pc seqnum s _ H _. exact H.
  - intros pc seqnum s s1 _ -> _ _ H _. rewrite push_aligned_eq. simpl. exact H.
  - intros pc seqnum s s1 r _ -> _ _ IH _ H. apply IH.
    rewrite push_aligned_eq. simpl. intros _. exact H.
  - auto.
  - intros s s1 r _ _ _ _ IN _. exact IN.
  - auto.
  - auto.
  - intros cnt s Ee H. apply Empty_true in Ee. contradiction.
  - intros cnt s s1 _ -> Eg _. simpl in *.
    rewrite Z.gtb_ltb in Eg. now apply Z.ltb_ge in Eg.
  - intros cnt s s1 r _ -> _ _ IH. exact IH.
  - intros s _. destruct (flushed_fields s) as (Fa & _).
    cbn [m_aligned set_nl_seqnum]. rewrite Fa. intros H. now contradiction H.
  - intros s r _ _ IH. apply IH.
    destruct (flushed_fields s) as (Fa & _).
    cbn [m_aligned set_skipped]. rewrite Fa. intros H. now contradiction H.
Qed.

(** X9.  In a session with a span that is not negative and whose Add calls
    leave the sequence number unset ("now"), a group never outlives its
    span: whenever a call returns with tokens in m_aligned,
    m_seqnum - m_nl_seqnum <= m_span. *)
Theorem pending_group_within_span span thresh cs s0 :
  0 <= span ->
  no_CStart cs ->
  adds_now cs ->
  exists fuel r,
    run fuel (CStart span thresh :: cs) s0 = Some r /\
    (m_aligned r <> [] -> m_seqnum r - m_nl_seqnum r <= span).
Proof.
  intros Hspan Hst Hcs.
  destruct (run_total (CStart span thresh :: cs) s0) as (fuel & r & Hr).
  exists fuel, r. split; [exact Hr|]. simpl in Hr.
  assert (H : within_span r /\ m_span r = span).
  { destruct calls_within_span as (WA & _ & _ & WN & WF).
    destruct calls_frame as (FA & _ & _ & FN & FF).
    assert (Hi : within_span (Start span thresh s0) /\
                 m_span (Start span thresh s0) = span).
    { split; simpl; [|reflexivity]. intros H. now contradiction H. }
    revert Hr Hi. generalize (Start span thresh s0).
    induction cs as [|c cs IH]; intros s Hr (Hi & Hp); simpl in Hr.
    - injection Hr as <-. auto.
    - destruct (do_call fuel c s) as [s1|] eqn:E; [|discriminate].
      inversion Hst as [|? ? Hs1 Hs2]; inversion Hcs as [|? ? Hc1 Hc2]; subst.
      apply (IH Hs2 Hc2 s1 Hr). apply do_call_sound in E.
      destruct c; simpl in E; try contradiction.
      + subst seqnum. destruct (FA _ _ _ _ E) as (_ & -> & _).
        split; [|reflexivity]. apply (WA _ _ _ _ E Hi).
        unfold assign_seqnum. simpl. lia.
      + destruct (FN _ _ _ E) as (_ & -> & _).
        split; [apply (WN _ _ _ E)|reflexivity].
      + destruct (FF _ _ E) as (_ & -> & _).
        split; [apply (WF _ _ E)|reflexivity].
      + destruct E as (s1' & E & ->). split.
        * intros H. now contradiction H.
        * simpl. destruct (negb _); [|now subst].
          destruct (FF _ _ E) as (_ & -> & _). reflexivity. }
  destruct H as (H & Hp). intros Hne. specialize (H Hne). lia.
Qed.

(** ** What waits in m_skipped is out of reach *)

(** X10.  In a session (Start, then any calls) every entry that waits in
    m_skipped is out of reach of the group: m_max_col and m_thresh are not
    0 and the column of its token is outside
    [m_max_col - m_thresh, m_max_col + m_thresh].  An entry of m_skipped
    that comes within reach is not left waiting. *)
Theorem skipped_entries_out_of_reach span thresh cs s0 :
  exists fuel r,
    run fuel (CStart span thresh :: cs) s0 = Some r /\
    forall ce, In ce (m_skipped r) ->
      m_max_col r <> 0 /\ m_thresh r <> 0 /\
      ~ (m_max_col r - m_thresh r <= column (document r) (m_pc ce)
         <= m_max_col r + m_thresh r).
Proof.
  destruct (run_total (CStart span thresh :: cs) s0) as (fuel & r & Hr).
  exists fuel, r. split; [exact Hr|]. simpl in Hr.
  assert (H : skipped_out_of_reach r).
  { destruct calls_skipped_out_of_reach as (KA & _ & _ & KN & KF).
    assert (Hi : skipped_out_of_reach (Start span thresh s0)).
    { intros ce []. }
    revert Hr Hi. generalize (Start span thresh s0).
    induction cs as [|c cs IH]; intros s Hr Hi; simpl in Hr.
    - now injection Hr as <-.
    - destruct (do_call fuel c s) as [s1|] eqn:E; [|discriminate].
      apply (IH s1 Hr). apply do_call_sound in E.
      destruct c; simpl in E.
      + subst s1. intros ce [].
      + apply (KA _ _ _ _ E Hi).
      + apply (KN _ _ _ E Hi).
      + apply (KF _ _ E).
      + destruct E as (s1' & _ & ->). intros ce []. }
  intros ce Hin. specialize (H ce Hin).
  apply within_thresh_false in H. unfold accepted in H. lia.
Qed.

End AlignStack.

Arguments state : clear implicits.

Arguments call : clear implicits.

(** * Scenarios

    Sessions on a small document: tokens are numbered, the document gives
    the column of each, token 0 has length 0 and every other token length
    1.  The applier [move_right] moves a token right to the column it is
    given, the applier [place_at] puts it at that column. *)
Module Scenarios.

Definition chunk : Type := nat.
Definition doc : Type := nat -> Z.

Definition column (d : doc) (pc : chunk) : Z := d pc.

Definition len (pc : chunk) : Z :=
  match pc with
  | O => 0
  | _ => 1
  end.

Definition move_right (pc : chunk) (col : Z) (d : doc) : doc :=
  fun q => if Nat.eqb q pc then Z.max col (d q) else d q.

(* An object before its first Start *)
Definition fresh (d : doc) : state chunk doc :=
  mkState [] [] [] 0 0 0 0 0 d [].

(* The document of the example of the spec: A = 1, B = 2, C = 3 *)
Definition doc_ABC : doc :=
  fun q => match q with
           | 1%nat => 10 | 2%nat => 14 | 3%nat => 12 | _ => 1
           end.

(* Five tokens: A = 1, B = 2, D = 3, E = 4, C = 5 *)
Definition doc_ABDEC : doc :=
  fun q => match q with
           | 1%nat => 10 | 2%nat => 20 | 3%nat => 14 | 4%nat => 16
           | 5%nat => 12 | _ => 1
           end.

(* A far token between two tokens of one column *)
Definition doc_far : doc :=
  fun q => match q with
           | 1%nat => 10 | 2%nat => 20 | 3%nat => 10 | _ => 1
           end.

(* Token 0, of length 0, at column 0 *)
Definition doc_zero : doc :=
  fun q => match q with
           | O => 0 | _ => 1
           end.

(* A = 1 at column 10, X = 2 at column 1, Y = 3 at column 30 *)
Definition doc_AXY : doc :=
  fun q => match q with
           | 1%nat => 10 | 2%nat => 1 | 3%nat => 30 | _ => 1
           end.

Definition session : nat -> list (call chunk) -> state chunk doc ->
                     option (state chunk doc) :=
  run column len move_right.

(* A group of one token (A) and one skipped token (B) *)
Definition one_and_one : state chunk doc :=
  mkState [mkEntry 1 1%nat] [mkEntry 2 2%nat] [] 11 3 2 0 1 doc_ABC [].

(* After Start(3, 2), Add(A, 1) *)
Definition only_A : state chunk doc :=
  mkState [mkEntry 1 1%nat] [] [] 11 3 2 0 1 doc_ABC [].

(* No group, and a skipped entry with a negative sequence number *)
Definition stale_only : state chunk doc :=
  mkState [] [mkEntry (-1) 2%nat] [] 0 3 2 0 0 doc_ABC [].

(* Three tokens far from each other: A = 1, B = 2, C = 3 *)
Definition doc_spread : doc :=
  fun q => match q with
           | 1%nat => 10 | 2%nat => 30 | 3%nat => 50 | _ => 1
           end.

(* An applier that places the token at the column it is given *)
Definition place_at (pc : chunk) (col : Z) (d : doc) : doc :=
  fun q => if Nat.eqb q pc then col else d q.

(* A group of one token (A) and two skipped tokens (B and C), all far from
   each other *)
Definition one_and_two : state chunk doc :=
  mkState [mkEntry 1 1%nat] [mkEntry 2 2%nat; mkEntry 3 3%nat] []
          11 3 2 0 1 doc_spread [].

(* The running counter as the spec words it: the sum of all the counts
   passed to NewLines since the last Start *)
Fixpoint newlines_since_Start (cs : list (call chunk)) (acc : Z) : Z :=
  match cs with
  | [] => acc
  | CStart _ _ :: cs' => newlines_since_Start cs' 0
  | CNewLines cnt :: cs' => newlines_since_Start cs' (acc + cnt)
  | _ :: cs' => newlines_since_Start cs' acc
  end.

(* The caller contract as the spec words it: the sequence numbers passed
   to Add, and what it is for them to be non-decreasing *)
Fixpoint add_seqnums (cs : list (call chunk)) : list Z :=
  match cs with
  | [] => []
  | CAdd _ seqnum :: cs' => seqnum :: add_seqnums cs'
  | _ :: cs' => add_seqnums cs'
  end.

Fixpoint nondecreasing (l : list Z) : bool :=
  match l with
  | x :: ((y :: _) as l') => (x <=? y) && nondecreasing l'
  | _ => true
  end.

Lemma only_A_reached :
  session 9 [CStart 3 2; CAdd 1%nat 1] (fresh doc_ABC) = Some only_A.
Proof. reflexivity. Qed.

Lemma one_and_one_reached :
  session 9 [CStart 3 2; CAdd 1%nat 1; CAdd 2%nat 2] (fresh doc_ABC)
  = Some one_and_one.
Proof. reflexivity. Qed.

Lemma one_and_two_reached :
  session 9 [CStart 3 2; CAdd 1%nat 1; CAdd 2%nat 2; CAdd 3%nat 3]
          (fresh doc_spread) = Some one_and_two.
Proof. reflexivity. Qed.

Lemma doc_ABC_positive : positive_ends column len doc_ABC.
Proof.
  intros pc. unfold column, len, doc_ABC.
  do 4 (destruct pc as [|pc]; [lia|]). lia.
Qed.

Lemma move_right_keeps_positive_ends :
  applier_keeps_positive_ends column len move_right.
Proof.
  intros pc col d H q. specialize (H q). unfold column, move_right in *.
  destruct (Nat.eqb q pc); lia.
Qed.

Lemma place_at_keeps_ends_right_of_0 :
  applier_keeps_ends_right_of_0 column len place_at.
Proof.
  intros pc col d H Hcol q. specialize (H q). unfold column, place_at in *.
  destruct (Nat.eqb q pc) eqn:E; [|exact H].
  apply Nat.eqb_eq in E. subst q. exact Hcol.
Qed.

(** C2, counterexample.  Start(3, 2), Add(A, 1), Add(B, 2), Flush: B was
    skipped (column 14 outside [9, 13]); Flush aligns A and replays B, so
    that it returns with B in m_aligned and m_max_col = 15. *)
Lemma Flush_reseeds_group :
  match session 9 [CStart 3 2; CAdd 1%nat 1; CAdd 2%nat 2; CFlush]
                (fresh doc_ABC) with
  | Some r => m_aligned r = [mkEntry 2 2%nat] /\ m_max_col r = 15 /\
              ~ (m_aligned r = [] /\ m_max_col r = 0)
  | None => False
  end.
Proof.
  vm_compute. repeat split. intros [H _]. discriminate.
Qed.

(** C3, at the failing input.  With A in m_aligned and B, D, E in
    m_skipped, Add(C) grows m_max_col and replays m_skipped.  The replay of
    D grows m_max_col again and replays B inside the loop, which
    overwrites m_scratch; the outer loop stops and E is never passed to
    Add: it is in neither stack and was not aligned, although its column
    16 is within the threshold of the final m_max_col = 15.  The replay as
    the spec words it re-adds E. *)
Lemma ReAddSkipped_loses_skipped_entry :
  match session 9 [CStart 100 2; CAdd 1%nat 0; CNewLines 1; CAdd 2%nat 0;
                   CNewLines 1; CAdd 3%nat 0; CNewLines 1; CAdd 4%nat 0;
                   CNewLines 1] (fresh doc_ABDEC) with
  | Some s =>
      tokens (m_aligned s) = [1%nat] /\
      tokens (m_skipped s) = [2%nat; 3%nat; 4%nat] /\
      match Add column len move_right 9 5%nat 0 s with
      | Some r =>
          tokens (m_aligned r) = [1%nat; 5%nat; 3%nat] /\
          tokens (m_skipped r) = [2%nat] /\
          applier_calls r = [] /\
          m_max_col r = 15 /\
          within_thresh column r 4%nat = true
      | None => False
      end /\
      (* the replay that Add(C) starts, in the code and as specified *)
      let s2 := set_max_col 13 (push_aligned 5%nat 4 s) in
      option_map (fun r => tokens (m_aligned r))
                 (ReAddSkipped column len move_right 9 s2)
      = Some [1%nat; 5%nat; 3%nat] /\
      option_map (fun r => tokens (m_aligned r))
                 (ReAddSkipped_as_specified column len move_right 9 s2)
      = Some [1%nat; 5%nat; 3%nat; 4%nat]
  | None => False
  end.
Proof.
  vm_compute. repeat split.
Qed.

(** C5, counterexample.  (1) A token of length 0 at column 0 is pushed
    onto m_aligned and leaves m_max_col = 0.  (2) With tokens that end
    right of column 0: Start(3, 2), Add(A, 1), Add(B, 2), End; the Flush
    of End replays B, which sets m_max_col = 15, and End resets the stacks
    but not m_max_col. *)
Lemma group_inv_broken :
  match session 9 [CStart 3 2; CAdd 0%nat 0] (fresh doc_zero) with
  | Some r => m_max_col r = 0 /\ m_aligned r <> [] /\ ~ group_inv r
  | None => False
  end /\
  match session 9 [CStart 3 2; CAdd 1%nat 1; CAdd 2%nat 2] (fresh doc_ABC) with
  | Some s =>
      group_inv s /\
      match End column len move_right 9 s with
      | Some r => m_aligned r = [] /\ m_max_col r = 15 /\ ~ group_inv r
      | None => False
      end
  | None => False
  end.
Proof.
  unfold group_inv. vm_compute. repeat split; try discriminate.
  - intros [H _]. specialize (H eq_refl). discriminate.
  - intros [_ H]. specialize (H eq_refl). discriminate.
Qed.

(** C6, counterexample.  (1) Start(3, 2), NewLines(3): m_aligned is empty,
    NewLines does nothing and m_seqnum stays 0, while 3 newlines were
    passed.  (2) Start(3, 2), Add(A), NewLines(-1): m_seqnum goes down
    from 0 to -1. *)
Lemma seqnum_is_not_the_sum_of_counts :
  (newlines_since_Start [CStart 3 2; CNewLines 3] 0 = 3 /\
   match session 9 [CStart 3 2; CNewLines 3] (fresh doc_ABC) with
   | Some r => m_seqnum r = 0
   | None => False
   end) /\
  match session 9 [CStart 3 2; CAdd 1%nat 0] (fresh doc_ABC) with
  | Some s =>
      match NewLines column len move_right 9 (-1) s with
      | Some r => m_seqnum r < m_seqnum s
      | None => False
      end
  | None => False
  end.
Proof.
  vm_compute. repeat split.
Qed.

(** C7, counterexample.  (1) Start(3, 2), Add(A, 5): one sequence number
    is passed to Add, so they are non-decreasing; A is accepted and
    m_nl_seqnum = 5 while m_seqnum = 0.  (2) Start(3, 2), Add(A),
    NewLines(-1): m_nl_seqnum = 0 while m_seqnum = -1. *)
Lemma nl_seqnum_ahead_of_seqnum :
  (nondecreasing (add_seqnums [CStart 3 2; CAdd 1%nat 5]) = true /\
   match session 9 [CStart 3 2; CAdd 1%nat 5] (fresh doc_ABC) with
   | Some r => m_nl_seqnum r = 5 /\ m_seqnum r = 0 /\
               ~ m_nl_seqnum r <= m_seqnum r
   | None => False
   end) /\
  (nondecreasing (add_seqnums [CStart 3 2; CAdd 1%nat 0; CNewLines (-1)])
   = true /\
   match session 9 [CStart 3 2; CAdd 1%nat 0; CNewLines (-1)]
                 (fresh doc_ABC) with
   | Some r => ~ m_nl_seqnum r <= m_seqnum r
   | None => False
   end).
Proof.
  vm_compute. repeat split; intros H; apply H; reflexivity.
Qed.

(** C8, counterexample.  Start(3, 2), Add(A, 1), Add(B, 2), End leaves
    m_max_col = 15 with both stacks empty; Add(C, 3) is then skipped
    (column 12 outside [13, 17]), which gives a state with m_aligned empty
    and m_skipped = [C].  Flush replays C and returns with C in m_aligned
    and m_max_col = 13. *)
Lemma Flush_of_skipped_only :
  match session 9 [CStart 3 2; CAdd 1%nat 1; CAdd 2%nat 2; CEnd; CAdd 3%nat 3]
                (fresh doc_ABC) with
  | Some s =>
      m_aligned s = [] /\ tokens (m_skipped s) = [3%nat] /\
      match Flush column len move_right 9 s with
      | Some r => m_max_col r = 13 /\ tokens (m_aligned r) = [3%nat] /\
                  ~ (applier_calls r = applier_calls s /\ m_max_col r = 0)
      | None => False
      end
  | None => False
  end.
Proof.
  vm_compute. repeat split. intros [_ H]. discriminate.
Qed.

(** C9, counterexample.  (1) Start(5, 2), Add(A), NewLines(1), Add(B),
    NewLines(1), Add(C), NewLines(10), End, with B far from A and C.  B is
    skipped; the flush made by NewLines(10) aligns A and C and removes B
    from m_skipped, because B is older than C.  B was added, is never
    passed to the applier, and is not in m_skipped when End resets the
    stacks: it was lost at Flush, not at End.  (2) A token that is added
    twice: Start(1, 2), Add(A), NewLines(5) aligns A; then Add(X),
    Add(Y), Add(A) leave Y and A skipped; the Flush of End aligns X and
    replays Y and A, and A is in m_skipped when End resets the stacks
    although it went through the applier before. *)
Lemma token_lost_at_Flush :
  match session 9 [CStart 5 2; CAdd 1%nat 0; CNewLines 1; CAdd 2%nat 0;
                   CNewLines 1; CAdd 3%nat 0] (fresh doc_far) with
  | Some s =>
      tokens (m_skipped s) = [2%nat] /\
      match NewLines column len move_right 9 10 s with
      | Some s1 =>
          m_skipped s1 = [] /\
          End_flush column len move_right 9 s1 = Some s1 /\
          match End column len move_right 9 s1 with
          | Some r => map fst (applier_calls r) = [1%nat; 3%nat] /\
                      ~ In 2%nat (map fst (applier_calls r)) /\
                      ~ In 2%nat (tokens (m_skipped s1))
          | None => False
          end
      | None => False
      end
  | None => False
  end /\
  match session 9 [CStart 1 2; CAdd 1%nat 0; CNewLines 5; CAdd 2%nat 0;
                   CAdd 3%nat 0; CAdd 1%nat 0] (fresh doc_AXY) with
  | Some s1 =>
      match End_flush column len move_right 9 s1 with
      | Some s2 => tokens (m_skipped s2) = [1%nat] /\
                   map fst (applier_calls s2) = [1%nat; 2%nat]
      | None => False
      end
  | None => False
  end.
Proof.
  vm_compute. repeat split; intros H; repeat destruct H as [H|H]; try discriminate; auto.
Qed.

(** ** The theorems at concrete states *)

Lemma Add_places_token_by_threshold_witness :
  ~ accepted column only_A 2%nat /\
  accepted column only_A 3%nat /\
  (exists fuel r,
     Add column len move_right fuel 3%nat 3 only_A = Some r /\
     In (mkEntry 3 3%nat) (m_aligned r)) /\
  exists fuel r,
    Add column len move_right fuel 2%nat 2 only_A = Some r /\
    r = with_skipped 2%nat 2 only_A.
Proof.
  assert (H3 : accepted column only_A 3%nat).
  { unfold accepted, column. simpl. lia. }
  assert (H2 : ~ accepted column only_A 2%nat).
  { unfold accepted, column. simpl. lia. }
  split; [exact H2|]. split; [exact H3|]. split.
  - destruct (Add_places_token_by_threshold column len move_right
                3%nat 3 only_A) as (fuel & r & H & Hacc & _).
    exists fuel, r. split; [exact H|].
    destruct (Hacc H3) as (_ & [Hin | (new & Hc & Hin)]); [exact Hin|].
    exfalso.
    assert (E : Add column len move_right 9 3%nat 3 only_A
                = Some (set_max_col 13 (with_aligned 3%nat 3 only_A)))
      by reflexivity.
    rewrite (Add_fuel_unique _ _ _ _ _ _ _ _ _ _ H E) in Hc.
    simpl in Hc. subst new. exact Hin.
  - destruct (Add_places_token_by_threshold column len move_right
                2%nat 2 only_A) as (fuel & r & H & _ & Hrej).
    exists fuel, r. split; [exact H|]. exact (Hrej H2).
Defined.

Lemma Flush_applies_group_then_replays_witness :
  newer_skipped one_and_two = [mkEntry 2 2%nat; mkEntry 3 3%nat] /\
  exists fuel r rest,
    Flush column len move_right fuel one_and_two = Some r /\
    applier_calls r = [(1%nat, 10)] ++ rest /\
    (exists n fuel' s1,
       (1 <= n <= 2)%nat /\
       Add_each column len move_right fuel'
         (firstn n [mkEntry 2 2%nat; mkEntry 3 3%nat])
         (replay_start len move_right one_and_two) = Some s1 /\
       NewLines column len move_right fuel' 0 s1 = Some r) /\
    (In 2%nat (tokens (m_aligned r)) \/ In 2%nat (map fst rest)) /\
    (forall ce, In ce (m_skipped r) -> ~ accepted column r (m_pc ce)) /\
    tokens (m_aligned r) = [2%nat] /\ tokens (m_skipped r) = [3%nat] /\
    m_max_col r = 31.
Proof.
  assert (Hn : newer_skipped one_and_two = [mkEntry 2 2%nat; mkEntry 3 3%nat])
    by reflexivity.
  split; [exact Hn|].
  destruct (Flush_applies_group_then_replays column len move_right one_and_two)
    as (fuel & r & rest & H & _ & _ & _ & Hc & _ & _ & _ & Hsurv & Hout & _).
  destruct (Hsurv _ _ Hn)
    as (_ & (n & fuel' & s1 & Hb & HE & _ & HN) & Hin & _).
  assert (E : Flush column len move_right 9 one_and_two
              = Some (mkState [mkEntry 2 2%nat] [mkEntry 3 3%nat]
                              [mkEntry 2 2%nat; mkEntry 3 3%nat]
                              31 3 2 0 2
                              (document (flushed len move_right one_and_two))
                              [(1%nat, 10)]))
    by reflexivity.
  pose proof (Flush_fuel_unique _ _ _ _ _ _ _ _ H E) as Er.
  exists fuel, r, rest. split; [exact H|]. split; [exact Hc|].
  split; [exists n, fuel', s1; auto|]. split; [exact Hin|].
  split; [exact Hout|].
  rewrite Er. repeat split.
Defined.

Lemma NewLines_flushes_beyond_span_witness :
  m_aligned only_A <> [] /\
  exists fuel r,
    NewLines column len move_right fuel 5 only_A = Some r /\
    applier_calls r <> applier_calls only_A.
Proof.
  assert (Ha : m_aligned only_A <> []) by discriminate.
  split; [exact Ha|].
  destruct (NewLines_flushes_beyond_span column len move_right 5 only_A Ha)
    as (fuel & r & H & _ & _ & Hiff).
  exists fuel, r. split; [exact H|]. apply Hiff. simpl. lia.
Defined.

Lemma max_col_zero_iff_no_group_witness :
  applier_keeps_ends_right_of_0 column len place_at /\
  positive_ends column len (document one_and_one) /\
  group_inv one_and_one /\
  0 <= m_max_col one_and_one /\
  (* Add(C) is accepted, grows m_max_col and replays B *)
  (exists fuel r,
     Add column len place_at fuel 3%nat 3 one_and_one = Some r /\
     group_inv r /\
     tokens (m_aligned r) = [1%nat; 3%nat; 2%nat] /\ m_max_col r = 15) /\
  (* NewLines(5) and Flush align A and seed a group with B *)
  (exists fuel r,
     NewLines column len place_at fuel 5 one_and_one = Some r /\
     group_inv r /\
     tokens (m_aligned r) = [2%nat] /\ m_max_col r = 15) /\
  (exists fuel r,
     Flush column len place_at fuel one_and_one = Some r /\
     positive_ends column len (document r) /\ group_inv r /\
     applier_calls r = [(1%nat, 10)] /\
     tokens (m_aligned r) = [2%nat] /\ m_max_col r = 15) /\
  (* ReAddSkipped tests B again and leaves the group as it is *)
  (exists fuel r,
     ReAddSkipped column len place_at fuel one_and_one = Some r /\
     group_inv r /\
     tokens (m_aligned r) = [1%nat] /\ tokens (m_skipped r) = [2%nat] /\
     m_max_col r = 11) /\
  (* End: its Flush leaves B in m_aligned, and the predicate is lost *)
  (exists fuel s1 r,
     End_flush column len place_at fuel one_and_one = Some s1 /\
     End column len place_at fuel one_and_one = Some r /\
     m_aligned s1 <> [] /\ ~ group_inv r).
Proof.
  assert (Hi : group_inv one_and_one).
  { unfold group_inv. simpl. split; intros H; discriminate. }
  assert (H0 : 0 <= m_max_col one_and_one) by (simpl; lia).
  split; [exact place_at_keeps_ends_right_of_0|].
  split; [exact doc_ABC_positive|]. split; [exact Hi|]. split; [exact H0|].
  destruct (max_col_zero_iff_no_group column len place_at 3 2
              (fresh doc_ABC) one_and_one 3%nat 3 5
              place_at_keeps_ends_right_of_0 doc_ABC_positive Hi H0)
    as (_ & (fa & ra & HA & _ & GA & _) & (fn & rn & HN & _ & GN & _) &
        (ff & rf & HF & PF & GF & _) & (fr & rr & HR & _ & GR & _) &
        (fe & s1 & re & HE1 & HE & _ & _ & GE)).
  assert (EF : Flush column len place_at 9 one_and_one
               = Some (mkState [mkEntry 2 2%nat] [] [mkEntry 2 2%nat]
                               15 3 2 0 2 (place_at 1%nat 10 doc_ABC)
                               [(1%nat, 10)]))
    by reflexivity.
  split; [|split; [|split; [|split]]].
  - assert (E : Add column len place_at 9 3%nat 3 one_and_one
                = Some (mkState [mkEntry 1 1%nat; mkEntry 3 3%nat;
                                 mkEntry 2 2%nat] [] [mkEntry 2 2%nat]
                                15 3 2 0 3 doc_ABC []))
      by reflexivity.
    pose proof (Add_fuel_unique _ _ _ _ _ _ _ _ _ _ HA E) as Er.
    exists fa, ra. split; [exact HA|]. split; [exact GA|].
    rewrite Er. split; reflexivity.
  - assert (E : NewLines column len place_at 9 5 one_and_one
                = Some (mkState [mkEntry 2 2%nat] [] [mkEntry 2 2%nat]
                                15 3 2 5 2 (place_at 1%nat 10 doc_ABC)
                                [(1%nat, 10)]))
      by reflexivity.
    pose proof (NewLines_fuel_unique _ _ _ _ _ _ _ _ _ HN E) as Er.
    exists fn, rn. split; [exact HN|]. split; [exact GN|].
    rewrite Er. split; reflexivity.
  - pose proof (Flush_fuel_unique _ _ _ _ _ _ _ _ HF EF) as Er.
    exists ff, rf. split; [exact HF|]. split; [exact PF|]. split; [exact GF|].
    rewrite Er. repeat split.
  - assert (E : ReAddSkipped column len place_at 9 one_and_one
                = Some (mkState [mkEntry 1 1%nat] [mkEntry 2 2%nat]
                                [mkEntry 2 2%nat] 11 3 2 0 1 doc_ABC []))
      by reflexivity.
    pose proof (ReAddSkipped_fuel_unique _ _ _ _ _ _ _ _ HR E) as Er.
    exists fr, rr. split; [exact HR|]. split; [exact GR|].
    rewrite Er. repeat split.
  - change (End_flush column len place_at fe one_and_one)
      with (Flush column len place_at fe one_and_one) in HE1.
    pose proof (Flush_fuel_unique _ _ _ _ _ _ _ _ HE1 EF) as E1.
    assert (Hne : m_aligned s1 <> []) by (rewrite E1; discriminate).
    exists fe, s1, re. split; [exact HE1|]. split; [exact HE|].
    split; [exact Hne|]. intros G. apply Hne. now apply GE.
Defined.

Lemma seqnum_counts_newlines_of_open_group_witness :
  exists fuel r,
    session fuel [CAdd 1%nat 0; CNewLines 2; CNewLines 3]
            (Start 3 2 (fresh doc_ABC)) = Some r /\
    m_seqnum r =
      counted_newlines column len move_right fuel
        [CAdd 1%nat 0; CNewLines 2; CNewLines 3]
        (Start 3 2 (fresh doc_ABC)) 0 /\
    0 <= m_seqnum r.
Proof.
  destruct (seqnum_counts_newlines_of_open_group column len move_right
              [CAdd 1%nat 0; CNewLines 2; CNewLines 3]
              (Start 3 2 (fresh doc_ABC)))
    as (fuel & r & H & Hsum & Hmono).
  exists fuel, r. split; [exact H|]. split; [exact Hsum|].
  apply Hmono.
  - repeat constructor.
  - repeat constructor; lia.
Defined.

Lemma nl_seqnum_le_seqnum_in_step_witness :
  in_step column len move_right 9
          ([CAdd 1%nat 0; CNewLines 1; CAdd 2%nat 0] ++
           [CNewLines 5; CAdd 3%nat 6])
          (Start 3 2 (fresh doc_ABC)) = true /\
  exists r,
    session 9 [CStart 3 2; CAdd 1%nat 0; CNewLines 1; CAdd 2%nat 0]
            (fresh doc_ABC) = Some r /\
    m_nl_seqnum r <= m_seqnum r.
Proof.
  split; [reflexivity|].
  eexists. split; [vm_compute; reflexivity|].
  apply (proj2 (nl_seqnum_le_seqnum_in_step column len move_right 3 2
                  [CAdd 1%nat 0; CNewLines 1; CAdd 2%nat 0]
                  [CNewLines 5; CAdd 3%nat 6] (fresh doc_ABC)) 9%nat);
    reflexivity.
Defined.

Lemma Flush_of_nothing_witness :
  m_aligned stale_only = [] /\
  Forall (fun ce => ChunkStack.m_seqnum ce < 0) (m_skipped stale_only) /\
  (exists fuel r,
     Flush column len move_right fuel stale_only = Some r /\
     applier_calls r = [] /\ m_aligned r = [] /\ m_max_col r = 0) /\
  exists fuel r,
    session fuel [CStart 3 2; CAdd 1%nat 1; CAdd 2%nat 2; CFlush; CNewLines 9]
            (fresh doc_ABC) = Some r /\
    (m_aligned r = [] -> m_skipped r = []).
Proof.
  assert (Hk : Forall (fun ce : Entry chunk => ChunkStack.m_seqnum ce < 0)
                      (m_skipped stale_only)).
  { repeat constructor. }
  split; [reflexivity|]. split; [exact Hk|].
  destruct (Flush_of_nothing column len move_right stale_only 3 2
              [CAdd 1%nat 1; CAdd 2%nat 2; CFlush; CNewLines 9]
              (fresh doc_ABC)) as (F1 & F2).
  split.
  - destruct (F1 eq_refl Hk) as (fuel & r & H & Hc & _ & Ha & Hm).
    exists fuel, r. auto.
  - apply F2. repeat constructor.
Defined.

Lemma skipped_at_End_never_applied_witness :
  NoDup (added [CAdd 1%nat 1; CAdd 2%nat 2; CAdd 3%nat 3]) /\
  exists fuel s1 s2 r new,
    session fuel [CStart 3 2; CAdd 1%nat 1; CAdd 2%nat 2; CAdd 3%nat 3]
            (fresh doc_spread) = Some s1 /\
    End_flush column len move_right fuel s1 = Some s2 /\
    End column len move_right fuel s1 = Some r /\
    applier_calls r = new /\
    (forall ce, In ce (m_skipped s2) -> ~ In (m_pc ce) (map fst new)) /\
    (* C is in m_skipped when End resets the stacks *)
    tokens (m_skipped s2) = [3%nat] /\
    m_skipped r = [] /\
    ~ In 3%nat (map fst new).
Proof.
  assert (Hnd : NoDup (added [CAdd 1%nat 1; CAdd 2%nat 2; CAdd 3%nat 3])).
  { simpl. repeat constructor; simpl; intros H;
      repeat destruct H as [H|H]; try discriminate; auto. }
  split; [exact Hnd|].
  destruct (proj1 (skipped_at_End_never_applied column len move_right 3 2
                     [CAdd 1%nat 1; CAdd 2%nat 2; CAdd 3%nat 3]
                     (fresh doc_spread) one_and_one) Hnd)
    as (fuel & s1 & s2 & r & new & H1 & H2 & H3 & Hr & Hc & Hs).
  pose proof (run_fuel_unique _ _ _ _ _ _ _ _ _ H1 one_and_two_reached) as E1.
  pose proof H2 as H2'. rewrite E1 in H2'.
  change (End_flush column len move_right fuel one_and_two)
    with (Flush column len move_right fuel one_and_two) in H2'.
  assert (E : Flush column len move_right 9 one_and_two
              = Some (mkState [mkEntry 2 2%nat] [mkEntry 3 3%nat]
                              [mkEntry 2 2%nat; mkEntry 3 3%nat]
                              31 3 2 0 2
                              (document (flushed len move_right one_and_two))
                              [(1%nat, 10)]))
    by reflexivity.
  pose proof (Flush_fuel_unique _ _ _ _ _ _ _ _ H2' E) as E2.
  assert (Hk : tokens (m_skipped s2) = [3%nat]) by (rewrite E2; reflexivity).
  exists fuel, s1, s2, r, new.
  split; [exact H1|]. split; [exact H2|]. split; [exact H3|].
  split; [exact Hc|]. split; [exact Hs|]. split; [exact Hk|].
  split; [rewrite Hr; reflexivity|].
  apply (Hs (mkEntry 3 3%nat)). rewrite E2. simpl. now left.
Defined.

Lemma End_drops_readmitted_group_witness :
  m_aligned one_and_one <> [] /\
  m_skipped one_and_one <> [] /\
  exists fuel s1 r,
    Flush column len move_right fuel one_and_one = Some s1 /\
    End column len move_right fuel one_and_one = Some r /\
    tokens (m_aligned s1) = [2%nat] /\
    m_aligned r = [] /\
    applier_calls r = [(1%nat, 10)].
Proof.
  assert (Ha : m_aligned one_and_one <> []) by discriminate.
  assert (Hk : m_skipped one_and_one <> []) by discriminate.
  split; [exact Ha|]. split; [exact Hk|].
  destruct (End_drops_readmitted_group column len move_right one_and_one Ha Hk)
    as (fuel & s1 & r & H1 & _ & H2 & _ & Hno).
  assert (E : Flush column len move_right 9 one_and_one
              = Some (mkState [mkEntry 2 2%nat] [] [mkEntry 2 2%nat]
                              15 3 2 0 2
                              (document (flushed len move_right one_and_one))
                              [(1%nat, 10)]))
    by reflexivity.
  pose proof (Flush_fuel_unique _ _ _ _ _ _ _ _ H1 E) as Es1.
  assert (Hc : applier_calls s1
               = applier_calls one_and_one ++ group_calls len one_and_one).
  { rewrite Es1. reflexivity. }
  destruct (Hno Hc) as (_ & _ & A2 & A3).
  exists fuel, s1, r. split; [exact H1|]. split; [exact H2|].
  split; [now rewrite Es1|]. split; [exact A2|exact A3].
Defined.

(** ** The further properties at concrete sessions *)

Lemma max_col_is_rightmost_edge_witness :
  applier_keeps_positive_ends column len move_right /\
  positive_ends column len (document (fresh doc_ABC)) /\
  no_CEnd [CAdd 1%nat 1; CAdd 2%nat 2; CAdd 3%nat 3] /\
  exists fuel r,
    session fuel [CStart 3 2; CAdd 1%nat 1; CAdd 2%nat 2; CAdd 3%nat 3]
            (fresh doc_ABC) = Some r /\
    (m_aligned r = [] -> m_max_col r = 0) /\
    (m_aligned r <> [] ->
     exists ce, In ce (m_aligned r) /\
       column (document r) (m_pc ce) + len (m_pc ce) = m_max_col r /\
       forall ce', In ce' (m_aligned r) ->
         column (document r) (m_pc ce') + len (m_pc ce')
         <= column (document r) (m_pc ce) + len (m_pc ce)).
Proof.
  assert (Hc : no_CEnd [CAdd 1%nat 1; CAdd 2%nat 2; CAdd 3%nat 3])
    by (repeat constructor).
  split; [exact move_right_keeps_positive_ends|].
  split; [exact doc_ABC_positive|]. split; [exact Hc|].
  exact (max_col_is_rightmost_edge column len move_right 3 2
           [CAdd 1%nat 1; CAdd 2%nat 2; CAdd 3%nat 3] (fresh doc_ABC)
           move_right_keeps_positive_ends doc_ABC_positive Hc).
Defined.

Lemma threshold_zero_aligns_every_token_witness :
  no_CStart [CAdd 1%nat 0; CNewLines 1; CAdd 2%nat 0; CAdd 3%nat 0] /\
  (* B, which a threshold of 2 keeps out of the group of A, is not
     skipped *)
  (exists fuel s1 new1,
     session fuel [CStart 3 0; CAdd 1%nat 0; CNewLines 1; CAdd 2%nat 0]
             (fresh doc_ABC) = Some s1 /\
     m_skipped s1 = [] /\
     accepted column s1 3%nat /\
     applier_calls s1 = new1 /\
     map fst new1 ++ tokens (m_aligned s1) = [1%nat; 2%nat]) /\
  exists fuel r new,
    session fuel ([CStart 3 0; CAdd 1%nat 0; CNewLines 1; CAdd 2%nat 0;
                   CAdd 3%nat 0] ++ [CEnd]) (fresh doc_ABC) = Some r /\
    applier_calls r = new /\
    map fst new = [1%nat; 2%nat; 3%nat].
Proof.
  assert (Hc : no_CStart [CAdd 1%nat 0; CNewLines 1; CAdd 2%nat 0; CAdd 3%nat 0])
    by (repeat constructor).
  split; [exact Hc|].
  destruct (threshold_zero_aligns_every_token column len move_right 3
              [CAdd 1%nat 0; CNewLines 1; CAdd 2%nat 0; CAdd 3%nat 0]
              (fresh doc_ABC) Hc) as (Hpre & fuel & r & new & H & Hn & Hm & _).
  split.
  - destruct (Hpre [CAdd 1%nat 0; CNewLines 1; CAdd 2%nat 0] [CAdd 3%nat 0]
                eq_refl) as (f1 & s1 & new1 & H1 & Hk & Hacc & Hn1 & E1).
    exists f1, s1, new1. split; [exact H1|]. split; [exact Hk|].
    split; [apply Hacc|]. split; [exact Hn1|exact E1].
  - exists fuel, r, new. split; [exact H|]. split; [exact Hn|exact Hm].
Defined.

Lemma accepted_token_kept_or_applied_witness :
  no_CStart [CAdd 3%nat 3; CNewLines 9] /\
  no_CEnd [CAdd 3%nat 3; CNewLines 9] /\
  exists fuel r new,
    session fuel [CAdd 3%nat 3; CNewLines 9] only_A = Some r /\
    applier_calls r = applier_calls only_A ++ new /\
    (In (mkEntry 1 1%nat) (m_aligned r) \/ In 1%nat (map fst new)).
Proof.
  assert (Hs : no_CStart [CAdd 3%nat 3; CNewLines 9]) by (repeat constructor).
  assert (He : no_CEnd [CAdd 3%nat 3; CNewLines 9]) by (repeat constructor).
  split; [exact Hs|]. split; [exact He|].
  destruct (accepted_token_kept_or_applied column len move_right
              [CAdd 3%nat 3; CNewLines 9] only_A Hs He)
    as (fuel & r & new & H & Hn & K).
  exists fuel, r, new. split; [exact H|]. split; [exact Hn|].
  apply K. simpl. now left.
Defined.

Lemma settings_fixed_by_Start_witness :
  no_CStart [CAdd 1%nat 1; CAdd 2%nat 2; CNewLines 9; CEnd] /\
  exists fuel r,
    session fuel [CStart 3 2; CAdd 1%nat 1; CAdd 2%nat 2; CNewLines 9; CEnd]
            (fresh doc_ABC) = Some r /\
    m_span r = 3 /\ m_thresh r = 2.
Proof.
  assert (Hs : no_CStart [CAdd 1%nat 1; CAdd 2%nat 2; CNewLines 9; CEnd])
    by (repeat constructor).
  split; [exact Hs|].
  exact (settings_fixed_by_Start column len move_right 3 2
           [CAdd 1%nat 1; CAdd 2%nat 2; CNewLines 9; CEnd] (fresh doc_ABC) Hs).
Defined.

Lemma NewLines_counts_add_up_witness :
  (m_aligned only_A = [] \/
   m_seqnum only_A + 1 <= m_nl_seqnum only_A + m_span only_A) /\
  match NewLines column len move_right 5 1 only_A with
  | Some s1 => NewLines column len move_right 5 4 s1
  | None => None
  end = NewLines column len move_right 5 (1 + 4) only_A.
Proof.
  assert (H : m_aligned only_A = [] \/
              m_seqnum only_A + 1 <= m_nl_seqnum only_A + m_span only_A).
  { right. simpl. lia. }
  split; [exact H|].
  exact (NewLines_counts_add_up column len move_right 4 1 4 only_A H).
Defined.

Lemma pending_group_within_span_witness :
  0 <= 3 /\
  no_CStart [CAdd 1%nat 0; CNewLines 2; CAdd 2%nat 0; CNewLines 1] /\
  adds_now [CAdd 1%nat 0; CNewLines 2; CAdd 2%nat 0; CNewLines 1] /\
  exists fuel r,
    session fuel [CStart 3 2; CAdd 1%nat 0; CNewLines 2; CAdd 2%nat 0;
                  CNewLines 1] (fresh doc_ABC) = Some r /\
    (m_aligned r <> [] -> m_seqnum r - m_nl_seqnum r <= 3).
Proof.
  assert (H0 : 0 <= 3) by lia.
  assert (Hs : no_CStart [CAdd 1%nat 0; CNewLines 2; CAdd 2%nat 0; CNewLines 1])
    by (repeat constructor).
  assert (Ha : adds_now [CAdd 1%nat 0; CNewLines 2; CAdd 2%nat 0; CNewLines 1])
    by (repeat constructor).
  split; [exact H0|]. split; [exact Hs|]. split; [exact Ha|].
  exact (pending_group_within_span column len move_right 3 2
           [CAdd 1%nat 0; CNewLines 2; CAdd 2%nat 0; CNewLines 1]
           (fresh doc_ABC) H0 Hs Ha).
Defined.

Lemma applier_called_on_added_tokens_only_witness :
  NoDup (added [CAdd 1%nat 1; CAdd 2%nat 2; CNewLines 9; CAdd 3%nat 3; CEnd]) /\
  exists fuel r new,
    session fuel [CStart 3 2; CAdd 1%nat 1; CAdd 2%nat 2; CNewLines 9;
                  CAdd 3%nat 3; CEnd] (fresh doc_ABC) = Some r /\
    applier_calls r = new /\
    NoDup (map fst new).
Proof.
  assert (Hnd : NoDup (added [CAdd 1%nat 1; CAdd 2%nat 2; CNewLines 9;
                              CAdd 3%nat 3; CEnd])).
  { simpl. repeat constructor; simpl; intros H;
      repeat destruct H as [H|H]; try discriminate; auto. }
  split; [exact Hnd|].
  destruct (applier_called_on_added_tokens_only column len move_right 3 2
              [CAdd 1%nat 1; CAdd 2%nat 2; CNewLines 9; CAdd 3%nat 3; CEnd]
              (fresh doc_ABC))
    as (fuel & r & new & H & Hn & _ & _ & Hd & _).
  exists fuel, r, new. split; [exact H|]. split; [exact Hn|]. exact (Hd Hnd).
Defined.

End Scenarios.

(** * The options (src/options.h)

    The enumerations of options.h and the table of option names.  An
    enumerator stands for the integer of its position, from 0; the table
    stores the integer in its [id] field. *)

Module Options.

Import String.
Local Open Scope string_scope.

Inductive argtype_t : Type :=
| AT_BOOL   (* true / false *)
| AT_IARF   (* Ignore / Add / Remove / Force *)
| AT_NUM.   (* Number *)

(* Arg values - these are bit fields *)
Inductive argval_t : Type :=
| AV_IGNORE
| AV_ADD
| AV_REMOVE
| AV_FORCE.  (* remove + add *)

Definition argval_int (a : argval_t) : Z :=
  match a with
  | AV_IGNORE => 0
  | AV_ADD => 1
  | AV_REMOVE => 2
  | AV_FORCE => 3
  end.

Inductive uncrustify_options : Type :=
| UO_indent
| UO_input_tab_size
| UO_output_tab_size
| UO_indent_columns
| UO_indent_with_tabs
| UO_indent_brace_struct
| UO_indent_paren
| UO_indent_paren_nl
| UO_leave_preproc_space
| UO_pp_indent
| UO_indent_switch_case
| UO_indent_case_body
| UO_indent_case_brace
| UO_indent_brace
| UO_indent_braces
| UO_indent_label
| UO_indent_align_string
| UO_indent_col1_comment
| UO_indent_func_call_param
| UO_sp_before_sparen
| UO_sp_after_sparen
| UO_sp_paren_brace
| UO_sp_after_cast
| UO_sp_before_byref
| UO_sp_inside_angle
| UO_sp_inside_sparen
| UO_sp_inside_fparen
| UO_sp_inside_paren
| UO_sp_inside_square
| UO_sp_after_angle
| UO_sp_before_angle
| UO_sp_before_square
| UO_sp_before_squares
| UO_sp_paren_paren
| UO_sp_return_paren
| UO_sp_sizeof_paren
| UO_sp_after_comma
| UO_sp_arith
| UO_sp_bool
| UO_sp_compare
| UO_sp_assign
| UO_sp_func_def_paren
| UO_sp_func_call_paren
| UO_sp_func_proto_paren
| UO_sp_func_class_paren
| UO_sp_type_func
| UO_sp_special_semi
| UO_sp_before_semi
| UO_sp_inside_braces
| UO_sp_inside_braces_enum
| UO_sp_inside_braces_struct
| UO_code_width
| UO_ls_before_bool_op
| UO_ls_before_paren
| UO_ls_after_arith
| UO_ls_honor_newlines
| UO_align_with_tabs
| UO_align_on_tabstop
| UO_align_nl_cont
| UO_align_enum_equ
| UO_align_assign_span
| UO_align_assign_thresh
| UO_align_right_cmt_span
| UO_align_var_def_span
| UO_align_var_def_inline
| UO_align_var_def_star
| UO_align_var_def_colon
| UO_align_var_struct_span
| UO_align_pp_define_span
| UO_align_pp_define_col_min
| UO_align_pp_define_col_max
| UO_align_pp_define_gap
| UO_align_enum_col_min
| UO_align_enum_col_max
| UO_align_struct_init_span
| UO_align_func_proto_span
| UO_align_number_left
| UO_align_typedef_span
| UO_align_typedef_gap
| UO_align_keep_tabs
| UO_nl_fdef_brace
| UO_nl_func_decl_args
| UO_nl_func_decl_end
| UO_nl_func_type_name
| UO_nl_func_var_def_blk
| UO_nl_before_case
| UO_nl_after_return
| UO_nl_after_case
| UO_nl_fcall_brace
| UO_nl_squeeze_ifdef
| UO_nl_enum_brace
| UO_nl_struct_brace
| UO_nl_union_brace
| UO_nl_assign_brace
| UO_nl_do_brace
| UO_nl_if_brace
| UO_nl_for_brace
| UO_nl_else_brace
| UO_nl_while_brace
| UO_nl_switch_brace
| UO_nl_brace_else
| UO_nl_brace_while
| UO_nl_define_macro
| UO_blc_before_block_comment
| UO_blc_after_func_body
| UO_blc_after_func_proto
| UO_blc_after_func_proto_group
| UO_blc_after_var_def_group
| UO_blc_after_ifdef
| UO_blc_max
| UO_eat_blanks_after_open_brace
| UO_eat_blanks_before_close_brace
| UO_mod_paren_on_return
| UO_mod_full_brace_nl
| UO_mod_full_brace_if
| UO_mod_full_brace_for
| UO_mod_full_brace_do
| UO_mod_full_brace_while
| UO_cmt_star_cont
| UO_option_count.

(* The value of an enumerator: its position in the declaration *)
Definition option_int (o : uncrustify_options) : Z :=
  match o with
  | UO_indent => 0
  | UO_input_tab_size => 1
  | UO_output_tab_size => 2
  | UO_indent_columns => 3
  | UO_indent_with_tabs => 4
  | UO_indent_brace_struct => 5
  | UO_indent_paren => 6
  | UO_indent_paren_nl => 7
  | UO_leave_preproc_space => 8
  | UO_pp_indent => 9
  | UO_indent_switch_case => 10
  | UO_indent_case_body => 11
  | UO_indent_case_brace => 12
  | UO_indent_brace => 13
  | UO_indent_braces => 14
  | UO_indent_label => 15
  | UO_indent_align_string => 16
  | UO_indent_col1_comment => 17
  | UO_indent_func_call_param => 18
  | UO_sp_before_sparen => 19
  | UO_sp_after_sparen => 20
  | UO_sp_paren_brace => 21
  | UO_sp_after_cast => 22
  | UO_sp_before_byref => 23
  | UO_sp_inside_angle => 24
  | UO_sp_inside_sparen => 25
  | UO_sp_inside_fparen => 26
  | UO_sp_inside_paren => 27
  | UO_sp_inside_square => 28
  | UO_sp_after_angle => 29
  | UO_sp_before_angle => 30
  | UO_sp_before_square => 31
  | UO_sp_before_squares => 32
  | UO_sp_paren_paren => 33
  | UO_sp_return_paren => 34
  | UO_sp_sizeof_paren => 35
  | UO_sp_after_comma => 36
  | UO_sp_arith => 37
  | UO_sp_bool => 38
  | UO_sp_compare => 39
  | UO_sp_assign => 40
  | UO_sp_func_def_paren => 41
  | UO_sp_func_call_paren => 42
  | UO_sp_func_proto_paren => 43
  | UO_sp_func_class_paren => 44
  | UO_sp_type_func => 45
  | UO_sp_special_semi => 46
  | UO_sp_before_semi => 47
  | UO_sp_inside_braces => 48
  | UO_sp_inside_braces_enum => 49
  | UO_sp_inside_braces_struct => 50
  | UO_code_width => 51
  | UO_ls_before_bool_op => 52
  | UO_ls_before_paren => 53
  | UO_ls_after_arith => 54
  | UO_ls_honor_newlines => 55
  | UO_align_with_tabs => 56
  | UO_align_on_tabstop => 57
  | UO_align_nl_cont => 58
  | UO_align_enum_equ => 59
  | UO_align_assign_span => 60
  | UO_align_assign_thresh => 61
  | UO_align_right_cmt_span => 62
  | UO_align_var_def_span => 63
  | UO_align_var_def_inline => 64
  | UO_align_var_def_star => 65
  | UO_align_var_def_colon => 66
  | UO_align_var_struct_span => 67
  | UO_align_pp_define_span => 68
  | UO_align_pp_define_col_min => 69
  | UO_align_pp_define_col_max => 70
  | UO_align_pp_define_gap => 71
  | UO_align_enum_col_min => 72
  | UO_align_enum_col_max => 73
  | UO_align_struct_init_span => 74
  | UO_align_func_proto_span => 75
  | UO_align_number_left => 76
  | UO_align_typedef_span => 77
  | UO_align_typedef_gap => 78
  | UO_align_keep_tabs => 79
  | UO_nl_fdef_brace => 80
  | UO_nl_func_decl_args => 81
  | UO_nl_func_decl_end => 82
  | UO_nl_func_type_name => 83
  | UO_nl_func_var_def_blk => 84
  | UO_nl_before_case => 85
  | UO_nl_after_return => 86
  | UO_nl_after_case => 87
  | UO_nl_fcall_brace => 88
  | UO_nl_squeeze_ifdef => 89
  | UO_nl_enum_brace => 90
  | UO_nl_struct_brace => 91
  | UO_nl_union_brace => 92
  | UO_nl_assign_brace => 93
  | UO_nl_do_brace => 94
  | UO_nl_if_brace => 95
  | UO_nl_for_brace => 96
  | UO_nl_else_brace => 97
  | UO_nl_while_brace => 98
  | UO_nl_switch_brace => 99
  | UO_nl_brace_else => 100
  | UO_nl_brace_while => 101
  | UO_nl_define_macro => 102
  | UO_blc_before_block_comment => 103
  | UO_blc_after_func_body => 104
  | UO_blc_after_func_proto => 105
  | UO_blc_after_func_proto_group => 106
  | UO_blc_after_var_def_group => 107
  | UO_blc_after_ifdef => 108
  | UO_blc_max => 109
  | UO_eat_blanks_after_open_brace => 110
  | UO_eat_blanks_before_close_brace => 111
  | UO_mod_paren_on_return => 112
  | UO_mod_full_brace_nl => 113
  | UO_mod_full_brace_if => 114
  | UO_mod_full_brace_for => 115
  | UO_mod_full_brace_do => 116
  | UO_mod_full_brace_while => 117
  | UO_cmt_star_cont => 118
  | UO_option_count => 119
  end.

Record options_name_tab : Type := mk_options_name_tab
  { id   : Z;
    type : argtype_t;
    name : string }.

(* #define OPTDEF(_x, t) { UO_ ## _x, t, # _x }: the enumerator UO_x, the
   type, and the name x as a string *)
Definition OPTDEF (o : uncrustify_options) (t : argtype_t) (x : string)
  : options_name_tab :=
  mk_options_name_tab (option_int o) t x.

(* "Keep this table sorted!" *)
Definition option_name_table : list options_name_tab :=
  [
    OPTDEF UO_align_assign_span AT_NUM "align_assign_span";
    OPTDEF UO_align_assign_thresh AT_NUM "align_assign_thresh";
    OPTDEF UO_align_enum_col_max AT_NUM "align_enum_col_max";
    OPTDEF UO_align_enum_col_min AT_NUM "align_enum_col_min";
    OPTDEF UO_align_enum_equ AT_NUM "align_enum_equ";
    OPTDEF UO_align_func_proto_span AT_NUM "align_func_proto_span";
    OPTDEF UO_align_keep_tabs AT_BOOL "align_keep_tabs";
    OPTDEF UO_align_nl_cont AT_BOOL "align_nl_cont";
    OPTDEF UO_align_number_left AT_BOOL "align_number_left";
    OPTDEF UO_align_on_tabstop AT_BOOL "align_on_tabstop";
    OPTDEF UO_align_pp_define_col_max AT_NUM "align_pp_define_col_max";
    OPTDEF UO_align_pp_define_col_min AT_NUM "align_pp_define_col_min";
    OPTDEF UO_align_pp_define_gap AT_NUM "align_pp_define_gap";
    OPTDEF UO_align_pp_define_span AT_NUM "align_pp_define_span";
    OPTDEF UO_align_right_cmt_span AT_NUM "align_right_cmt_span";
    OPTDEF UO_align_struct_init_span AT_NUM "align_struct_init_span";
    OPTDEF UO_align_typedef_gap AT_NUM "align_typedef_gap";
    OPTDEF UO_align_typedef_span AT_NUM "align_typedef_span";
    OPTDEF UO_align_var_def_colon AT_BOOL "align_var_def_colon";
    OPTDEF UO_align_var_def_inline AT_BOOL "align_var_def_inline";
    OPTDEF UO_align_var_def_span AT_NUM "align_var_def_span";
    OPTDEF UO_align_var_def_star AT_BOOL "align_var_def_star";
    OPTDEF UO_align_var_struct_span AT_NUM "align_var_struct_span";
    OPTDEF UO_align_with_tabs AT_BOOL "align_with_tabs";
    OPTDEF UO_blc_after_func_body AT_NUM "blc_after_func_body";
    OPTDEF UO_blc_after_func_proto AT_NUM "blc_after_func_proto";
    OPTDEF UO_blc_after_func_proto_group AT_NUM "blc_after_func_proto_group";
    OPTDEF UO_blc_after_ifdef AT_NUM "blc_after_ifdef";
    OPTDEF UO_blc_after_var_def_group AT_NUM "blc_after_var_def_group";
    OPTDEF UO_blc_before_block_comment AT_NUM "blc_before_block_comment";
    OPTDEF UO_blc_max AT_NUM "blc_max";
    OPTDEF UO_cmt_star_cont AT_BOOL "cmt_star_cont";
    OPTDEF UO_code_width AT_NUM "code_width";
    OPTDEF UO_eat_blanks_after_open_brace AT_BOOL "eat_blanks_after_open_brace";
    OPTDEF UO_eat_blanks_before_close_brace AT_BOOL "eat_blanks_before_close_brace";
    OPTDEF UO_indent AT_BOOL "indent";
    OPTDEF UO_indent_align_string AT_BOOL "indent_align_string";
    OPTDEF UO_indent_brace AT_NUM "indent_brace";
    OPTDEF UO_indent_brace_struct AT_NUM "indent_brace_struct";
    OPTDEF UO_indent_braces AT_BOOL "indent_braces";
    OPTDEF UO_indent_case_body AT_NUM "indent_case_body";
    OPTDEF UO_indent_case_brace AT_NUM "indent_case_brace";
    OPTDEF UO_indent_col1_comment AT_BOOL "indent_col1_comment";
    OPTDEF UO_indent_columns AT_NUM "indent_columns";
    OPTDEF UO_indent_func_call_param AT_BOOL "indent_func_call_param";
    OPTDEF UO_indent_label AT_NUM "indent_label";
    OPTDEF UO_indent_paren AT_NUM "indent_paren";
    OPTDEF UO_indent_paren_nl AT_BOOL "indent_paren_nl";
    OPTDEF UO_indent_switch_case AT_NUM "indent_switch_case";
    OPTDEF UO_indent_with_tabs AT_NUM "indent_with_tabs";
    OPTDEF UO_input_tab_size AT_NUM "input_tab_size";
    OPTDEF UO_leave_preproc_space AT_BOOL "leave_preproc_space";
    OPTDEF UO_ls_after_arith AT_BOOL "ls_after_arith";
    OPTDEF UO_ls_before_bool_op AT_BOOL "ls_before_bool_op";
    OPTDEF UO_ls_before_paren AT_BOOL "ls_before_paren";
    OPTDEF UO_ls_honor_newlines AT_BOOL "ls_honor_newlines";
    OPTDEF UO_mod_full_brace_do AT_IARF "mod_full_brace_do";
    OPTDEF UO_mod_full_brace_for AT_IARF "mod_full_brace_for";
    OPTDEF UO_mod_full_brace_if AT_IARF "mod_full_brace_if";
    OPTDEF UO_mod_full_brace_nl AT_NUM "mod_full_brace_nl";
    OPTDEF UO_mod_full_brace_while AT_IARF "mod_full_brace_while";
    OPTDEF UO_mod_paren_on_return AT_IARF "mod_paren_on_return";
    OPTDEF UO_nl_after_case AT_BOOL "nl_after_case";
    OPTDEF UO_nl_after_return AT_BOOL "nl_after_return";
    OPTDEF UO_nl_assign_brace AT_IARF "nl_assign_brace";
    OPTDEF UO_nl_before_case AT_BOOL "nl_before_case";
    OPTDEF UO_nl_brace_else AT_IARF "nl_brace_else";
    OPTDEF UO_nl_brace_while AT_IARF "nl_brace_while";
    OPTDEF UO_nl_define_macro AT_BOOL "nl_define_macro";
    OPTDEF UO_nl_do_brace AT_IARF "nl_do_brace";
    OPTDEF UO_nl_else_brace AT_IARF "nl_else_brace";
    OPTDEF UO_nl_enum_brace AT_IARF "nl_enum_brace";
    OPTDEF UO_nl_fcall_brace AT_IARF "nl_fcall_brace";
    OPTDEF UO_nl_fdef_brace AT_IARF "nl_fdef_brace";
    OPTDEF UO_nl_for_brace AT_IARF "nl_for_brace";
    OPTDEF UO_nl_func_decl_args AT_IARF "nl_func_decl_args";
    OPTDEF UO_nl_func_decl_end AT_IARF "nl_func_decl_end";
    OPTDEF UO_nl_func_type_name AT_IARF "nl_func_type_name";
    OPTDEF UO_nl_func_var_def_blk AT_NUM "nl_func_var_def_blk";
    OPTDEF UO_nl_if_brace AT_IARF "nl_if_brace";
    OPTDEF UO_nl_squeeze_ifdef AT_BOOL "nl_squeeze_ifdef";
    OPTDEF UO_nl_struct_brace AT_IARF "nl_struct_brace";
    OPTDEF UO_nl_switch_brace AT_IARF "nl_switch_brace";
    OPTDEF UO_nl_union_brace AT_IARF "nl_union_brace";
    OPTDEF UO_nl_while_brace AT_IARF "nl_while_brace";
    OPTDEF UO_output_tab_size AT_NUM "output_tab_size";
    OPTDEF UO_pp_indent AT_NUM "pp_indent";
    OPTDEF UO_sp_after_angle AT_IARF "sp_after_angle";
    OPTDEF UO_sp_after_cast AT_IARF "sp_after_cast";
    OPTDEF UO_sp_after_comma AT_IARF "sp_after_comma";
    OPTDEF UO_sp_after_sparen AT_IARF "sp_after_sparen";
    OPTDEF UO_sp_arith AT_IARF "sp_arith";
    OPTDEF UO_sp_assign AT_IARF "sp_assign";
    OPTDEF UO_sp_before_angle AT_IARF "sp_before_angle";
    OPTDEF UO_sp_before_byref AT_IARF "sp_before_byref";
    OPTDEF UO_sp_before_semi AT_IARF "sp_before_semi";
    OPTDEF UO_sp_before_sparen AT_IARF "sp_before_sparen";
    OPTDEF UO_sp_before_square AT_IARF "sp_before_square";
    OPTDEF UO_sp_before_squares AT_IARF "sp_before_squares";
    OPTDEF UO_sp_bool AT_IARF "sp_bool";
    OPTDEF UO_sp_compare AT_IARF "sp_compare";
    OPTDEF UO_sp_func_call_paren AT_IARF "sp_func_call_paren";
    OPTDEF UO_sp_func_class_paren AT_IARF "sp_func_class_paren";
    OPTDEF UO_sp_func_def_paren AT_IARF "sp_func_def_paren";
    OPTDEF UO_sp_func_proto_paren AT_IARF "sp_func_proto_paren";
    OPTDEF UO_sp_inside_angle AT_IARF "sp_inside_angle";
    OPTDEF UO_sp_inside_braces AT_IARF "sp_inside_braces";
    OPTDEF UO_sp_inside_braces_enum AT_IARF "sp_inside_braces_enum";
    OPTDEF UO_sp_inside_braces_struct AT_IARF "sp_inside_braces_struct";
    OPTDEF UO_sp_inside_fparen AT_IARF "sp_inside_fparen";
    OPTDEF UO_sp_inside_paren AT_IARF "sp_inside_paren";
    OPTDEF UO_sp_inside_sparen AT_IARF "sp_inside_sparen";
    OPTDEF UO_sp_inside_square AT_IARF "sp_inside_square";
    OPTDEF UO_sp_paren_brace AT_IARF "sp_paren_brace";
    OPTDEF UO_sp_paren_paren AT_IARF "sp_paren_paren";
    OPTDEF UO_sp_return_paren AT_IARF "sp_return_paren";
    OPTDEF UO_sp_sizeof_paren AT_IARF "sp_sizeof_paren";
    OPTDEF UO_sp_special_semi AT_IARF "sp_special_semi";
    OPTDEF UO_sp_type_func AT_IARF "sp_type_func"
  ].

(* strcmp(a, b) < 0: the order of the character codes *)
Definition strcmp_lt (a b : string) : bool :=
  match String.compare a b with
  | Lt => true
  | _ => false
  end.

(* Every entry is before all the later ones *)
Fixpoint strictly_sortedb (l : list options_name_tab) : bool :=
  match l with
  | [] => true
  | e :: l' =>
      forallb (fun e' => strcmp_lt (name e) (name e')) l' &&
      strictly_sortedb l'
  end.

(* The number of entries of the table with the id [n] *)
Definition entries_with_id (n : Z) : nat :=
  List.length (filter (fun e => Z.eqb (id e) n) option_name_table).

Definition name_before (e1 e2 : options_name_tab) : Prop :=
  String.compare (name e1) (name e2) = Lt.

Lemma strictly_sortedb_sound l :
  strictly_sortedb l = true -> StronglySorted name_before l.
Proof.
  induction l as [|e l IH]; simpl; intros H; constructor.
  - apply IH. now apply andb_true_iff in H.
  - apply andb_true_iff in H as (H & _). rewrite forallb_forall in H.
    apply Forall_forall. intros e' Hin. specialize (H e' Hin).
    unfold strcmp_lt in H. unfold name_before.
    destruct (String.compare (name e) (name e')); congruence.
Qed.

Lemma name_before_irrefl e : ~ name_before e e.
Proof.
  unfold name_before. intros H.
  pose proof (String.compare_antisym (name e) (name e)) as A.
  rewrite H in A. discriminate.
Qed.

Lemma sorted_names_NoDup l :
  StronglySorted name_before l -> NoDup (map name l).
Proof.
  induction 1 as [|e l _ IH Hall]; simpl; constructor; [|exact IH].
  intros Hin. apply in_map_iff in Hin as (e' & En & Hin).
  rewrite Forall_forall in Hall. specialize (Hall e' Hin).
  unfold name_before in Hall. rewrite En in Hall.
  pose proof (String.compare_antisym (name e) (name e)) as A.
  rewrite Hall in A. discriminate.
Qed.

(** X11.  The table of option names is sorted, as its comment asks: the name of
    an entry is before (strcmp < 0) the name of every later entry.  So no
    two entries have the same name. *)
Theorem option_name_table_sorted :
  StronglySorted name_before option_name_table /\
  NoDup (map name option_name_table).
Proof.
  assert (H : StronglySorted name_before option_name_table).
  { apply strictly_sortedb_sound. vm_compute. reflexivity. }
  split; [exact H|]. now apply sorted_names_NoDup.
Qed.

(** X12.  The table has one entry for each option: UO_option_count is the
    number of its entries, every option below UO_option_count is the id of
    exactly one entry, and no entry has another id. *)
Theorem option_name_table_complete :
  option_int UO_option_count = Z.of_nat (List.length option_name_table) /\
  (forall o, o <> UO_option_count -> entries_with_id (option_int o) = 1%nat) /\
  (forall e, In e option_name_table ->
     exists o, o <> UO_option_count /\ id e = option_int o).
Proof.
  split; [reflexivity|]. split.
  - intros o Ho. destruct o; try (vm_compute; reflexivity).
    now contradiction Ho.
  - intros e Hin. unfold option_name_table in Hin. simpl in Hin.
    repeat (destruct Hin as [<-|Hin];
            [eexists; split; [|reflexivity]; discriminate|]).
    contradiction.
Qed.

(** X13.  The values of argval_t are bit fields: AV_ADD and AV_REMOVE are two
    distinct bits, AV_IGNORE has neither and AV_FORCE is both; the values
    are closed under bitwise or and and, and a value is determined by its
    two bits. *)
Theorem argval_bit_fields :
  argval_int AV_FORCE = Z.lor (argval_int AV_ADD) (argval_int AV_REMOVE) /\
  Z.land (argval_int AV_ADD) (argval_int AV_REMOVE) = argval_int AV_IGNORE /\
  (forall a b, exists c, argval_int c = Z.lor (argval_int a) (argval_int b)) /\
  (forall a b, exists c, argval_int c = Z.land (argval_int a) (argval_int b)) /\
  (forall a b,
     Z.land (argval_int a) (argval_int AV_ADD)
     = Z.land (argval_int b) (argval_int AV_ADD) ->
     Z.land (argval_int a) (argval_int AV_REMOVE)
     = Z.land (argval_int b) (argval_int AV_REMOVE) ->
     a = b).
Proof.
  split; [reflexivity|]. split; [reflexivity|]. split; [|split].
  - intros [] []; simpl;
      first [ now (exists AV_IGNORE) | now (exists AV_ADD)
            | now (exists AV_REMOVE) | now (exists AV_FORCE) ].
  - intros [] []; simpl;
      first [ now (exists AV_IGNORE) | now (exists AV_ADD)
            | now (exists AV_REMOVE) | now (exists AV_FORCE) ].
  - intros [] []; simpl; intros H1 H2; try reflexivity; discriminate.
Qed.

Lemma option_name_table_complete_witness :
  UO_align_on_tabstop <> UO_option_count /\
  entries_with_id (option_int UO_align_on_tabstop) = 1%nat.
Proof.
  assert (H : UO_align_on_tabstop <> UO_option_count) by discriminate.
  split; [exact H|].
  exact (proj1 (proj2 option_name_table_complete) UO_align_on_tabstop H).
Defined.

End Options.
